(** * InstaAgent: the smart-comment pipeline, its ledger, scheduler and webhook

    A shallow embedding of

    - [src/config/botConfig.ts]            (the configuration record),
    - [src/models/PostMemory.ts]           (the ledger of commented posts),
    - [src/client/IG-bot/IgClient.ts]      ([getLastFourPosts], [postComment], [randomDelay]),
    - [src/client/Instagram.ts]            (the shared client),
    - [src/services/openrouter.ts]         (the requests of the comment generator),
    - [src/app.ts]                         ([POST /api/run-bot]),
    - [src/services/smart-comment.ts]      ([SmartCommentService]),
    - [src/services/scheduler.ts]          ([SchedulerService]),
    - the webhook router                   ([POST /run-bot], [runBotInBackground]).

    Conventions.  A [Date] the code makes with [new Date()] is the integer
    number of milliseconds it holds; a [Date] parsed from text of a page is
    a [Date] of this file, which may be Invalid Date.  A [number] that counts
    characters or milliseconds is a [Z]; the two random delays are computed
    in binary64 arithmetic, as the code computes them.
    An [async] function is a function of the world that yields a settled
    promise ([Resolved] or [Rejected]) and the world it leaves behind.
    Everything the code obtains from outside the repository (the browser,
    the language model, the clock, the random generator, storage faults,
    other writers of the same collection) is an oracle of the environment
    [Env]; an oracle may answer differently at every call because it is
    given the history of all calls made so far. *)

From Stdlib Require Import ZArith List String Ascii Lia Bool.
From stdpp Require Import gmap strings list pretty.
Import ListNotations.

Open Scope string_scope.
Open Scope Z_scope.
Open Scope list_scope.

(** ** JavaScript values shared by all modules *)

(** A thrown value.  Everything the collaborators throw is an [Error]
    object, and only its [message] is ever inspected. *)
Record Error := mkError { message : string }.

(** The state of a promise once it has settled. *)
Inductive Settled (A : Type) : Type :=
| Resolved (a : A)
| Rejected (e : Error).
Arguments Resolved {A} a.
Arguments Rejected {A} e.

(** [s || fallback] on strings: the empty string is falsy. *)
Definition orElse (s fallback : string) : string :=
  if String.eqb s "" then fallback else s.

(** ** src/config/botConfig.ts *)

Module Config.

Record CaptionLength := { cl_enabled : bool; cl_min : Z; cl_max : Z }.
Record MaxPostAge := { mpa_enabled : bool; mpa_days : Z }.
Record Filtering := {
  captionLength : CaptionLength;
  maxPostAge : MaxPostAge;
  skipDuplicates : bool }.
Record BetweenPosts := { bp_min : Z; bp_max : Z }.
Record Timing := {
  minDelay : Z; maxDelay : Z; afterLogin : Z;
  betweenPosts : BetweenPosts }.
Record Scheduler := {
  enabled : bool; interval : Z; runOnStartup : bool;
  skipIfRunning : bool; logStats : bool; statsInterval : Z }.
Record Target := { accounts : list string; maxPostsToInteract : Z }.
Record BotConfig := {
  target : Target;
  timing : Timing;
  filtering : Filtering;
  scheduler : Scheduler }.

End Config.
Import Config.

(** The values the repository ships. *)
Definition botConfig : BotConfig := {|
  target := {|
    accounts := ["lifebytosin"; "drshievag"; "napro_fertility_surgeon"];
    maxPostsToInteract := 1 |};
  timing := {|
    minDelay := 2000; maxDelay := 5000; afterLogin := 3000;
    betweenPosts := {| bp_min := 5000; bp_max := 10000 |} |};
  filtering := {|
    captionLength := {| cl_enabled := true; cl_min := 50; cl_max := 2200 |};
    maxPostAge := {| mpa_enabled := true; mpa_days := 1 |};
    skipDuplicates := true |};
  scheduler := {|
    enabled := true; interval := 1; runOnStartup := false;
    skipIfRunning := true; logStats := true; statsInterval := 24 |} |}.

(** ** Data of the pipeline *)

Inductive ContentType := image | video | reel.

(** [new Date(text)] for the [datetime] attribute of a page: a time value
    in milliseconds, or Invalid Date when the text does not parse; then
    [getTime()] is [NaN] and [toISOString()] throws a [RangeError]. *)
Inductive Date := date (ms : Z) | invalidDate.

(** An element of the array returned by [IgClient.getLastFourPosts]. *)
Record Post := {
  p_postId : string;
  p_postUrl : string;
  p_contentType : ContentType;
  p_timestamp : Date;
  p_isPinned : bool }.

(** The object returned by [IgClient.getPostDetails]. *)
Record PostDetails := {
  d_postId : string;
  d_postUrl : string;
  d_caption : string;
  d_captionLength : Z;
  d_postTimestamp : Date;
  d_screenshotBase64 : option string;
  d_videoFramesBase64 : option (list string);
  d_contentType : ContentType }.

Inductive Action := commented | skipped | failed.

(** [interface CommentResult]. *)
Record CommentResult := {
  targetAccount : string;
  success : bool;
  action : Action;
  reason : option string;
  postId : option string;
  postUrl : option string;
  r_captionLength : option Z;
  comment : option string }.

(** ** src/models/PostMemory.ts: the documents and their indexes *)

(** The argument of [recordComment]. *)
Record CommentData := {
  cd_platform : string;
  cd_targetAccount : string;
  cd_postId : string;
  cd_postUrl : string;
  cd_captionLength : Z;
  cd_caption : string;
  cd_commentText : string;
  cd_wasSuccessful : bool;
  cd_postTimestamp : Date }.

(** A stored document: [{...data, commentedAt}]. *)
Record PostMemoryDoc := {
  doc_data : CommentData;
  commentedAt : Z }.

Inductive Field :=
| f_platform | f_targetAccount | f_postId | f_commentedAt.

(** The value of an indexed field of a document. *)
Inductive FieldValue := VString (s : string) | VDate (t : Z).

Definition fieldValue (f : Field) (d : PostMemoryDoc) : FieldValue :=
  match f with
  | f_platform => VString (cd_platform (doc_data d))
  | f_targetAccount => VString (cd_targetAccount (doc_data d))
  | f_postId => VString (cd_postId (doc_data d))
  | f_commentedAt => VDate (commentedAt d)
  end.

Definition fieldValue_eqb (a b : FieldValue) : bool :=
  match a, b with
  | VString s, VString t => String.eqb s t
  | VDate s, VDate t => Z.eqb s t
  | _, _ => false
  end.

(** [schema.index(fields, { unique })]. *)
Record IndexSpec := { ix_fields : list Field; ix_unique : bool }.

(** The indexes the schema declares: the four fields marked
    [index: true], the compound [{platform, targetAccount, postId}] with
    [unique: true], and [{targetAccount, commentedAt}] for querying recent
    comments. *)
Definition postMemorySchema_indexes : list IndexSpec :=
  [ {| ix_fields := [f_platform]; ix_unique := false |};
    {| ix_fields := [f_targetAccount]; ix_unique := false |};
    {| ix_fields := [f_postId]; ix_unique := false |};
    {| ix_fields := [f_commentedAt]; ix_unique := false |};
    {| ix_fields := [f_platform; f_targetAccount; f_postId]; ix_unique := true |};
    {| ix_fields := [f_targetAccount; f_commentedAt]; ix_unique := false |} ].

(** The collection: documents in insertion order. *)
Definition Ledger := list PostMemoryDoc.

(** ** The world *)

(** Every interaction with the outside is recorded, with its result. *)
Inductive Event :=
| EvGetIgClient (r : Settled unit)
| EvGetLastFourPosts (account : string) (r : Settled (list Post))
| EvNow (t : Z)
| EvHasCommented (account pid : string) (r : Settled bool)
| EvGetPostDetails (url : string) (r : Settled (option PostDetails))
| EvGenerate (caption : string) (r : Settled string)
| EvPostComment (url text : string) (r : Settled unit)
| EvRecordComment (data : CommentData) (r : Settled PostMemoryDoc)
| EvSleep (ms : Z).

Definition History := list Event.

Record World := mkWorld { ledger : Ledger; history : History }.

(** ** Numbers: binary64 arithmetic *)

(** A finite IEEE 754 binary64 number, [mant * 2^expo].  The operations
    round to the nearest double, ties to even, with 53 bits of precision
    and the least exponent -1074; what the file computes stays far below
    2^1024, where the format overflows. *)
Record Double := { mant : Z; expo : Z }.

(** The number of bits of a whole number. *)
Definition bitLength (m : Z) : Z :=
  if m =? 0 then 0 else Z.log2 (Z.abs m) + 1.

(** The whole number nearest to [m / 2^sh], the even one of two that are
    equally near. *)
Definition roundHalfEven (m sh : Z) : Z :=
  let q := m / 2 ^ sh in
  let r := m mod 2 ^ sh in
  let half := 2 ^ (sh - 1) in
  if r <? half then q
  else if half <? r then q + 1
  else if Z.even q then q else q + 1.

(** The double nearest to an exact value: the bits beyond the 53rd, or
    below 2^-1074, are rounded away. *)
Definition roundDouble (x : Double) : Double :=
  let sh := Z.max (bitLength (mant x) - 53) (- 1074 - expo x) in
  if 0 <? sh
  then {| mant := roundHalfEven (mant x) sh; expo := expo x + sh |}
  else x.

(** A whole number as a [number]. *)
Definition ofZ (n : Z) : Double := roundDouble {| mant := n; expo := 0 |}.

(** [a * b], [a + b] and [a - b] on numbers. *)
Definition fmul (a b : Double) : Double :=
  roundDouble {| mant := mant a * mant b; expo := expo a + expo b |}.

Definition fadd (a b : Double) : Double :=
  let e := Z.min (expo a) (expo b) in
  roundDouble {| mant := mant a * 2 ^ (expo a - e) + mant b * 2 ^ (expo b - e);
                 expo := e |}.

Definition fsub (a b : Double) : Double :=
  fadd a {| mant := - mant b; expo := expo b |}.

(** [Math.floor]. *)
Definition mathFloor (x : Double) : Z :=
  if 0 <=? expo x then mant x * 2 ^ expo x else mant x / 2 ^ (- expo x).

(** A value of [Math.random()]: a double of [0, 1), namely
    [(r_mant mod 2^53) / 2^(53 + min r_shift 1021)]; every double that is
    at least 0 and below 1 is of this form. *)
Record Random := { r_mant : N; r_shift : N }.

Definition randomValue (u : Random) : Double :=
  {| mant := Z.of_N (r_mant u) mod 2 ^ 53;
     expo := - 53 - Z.min (Z.of_N (r_shift u)) 1021 |}.

(** The collaborators. *)
Record Env := {
  (** [getIgClient()]: rejects when the browser session cannot be set up. *)
  igClient : History -> Settled unit;
  (** What [getLastFourPosts] has collected in [postsWithTimestamps]
      before it sorts, or the error it throws. *)
  scrapePosts : History -> string -> Settled (list Post);
  (** [IgClient.getPostDetails]. *)
  postDetails : History -> string -> Settled (option PostDetails);
  (** [openRouterService.generateInstagramComment]. *)
  generateInstagramComment :
    History -> string -> option string -> option (list string) -> Settled string;
  (** [IgClient.postComment]. *)
  postComment : History -> string -> string -> Settled unit;
  (** [new Date()] / [Date.now()]. *)
  clock : History -> Z;
  (** [Math.random()]. *)
  random : History -> Random;
  (** A failure of the storage engine that is not a key conflict
      (lost connection, validation), for the operation about to run. *)
  storageFault : History -> option Error;
  (** Documents that other runs get persisted while this run is suspended
      between its duplicate check and its own insert. *)
  racingWrites : History -> list PostMemoryDoc }.

(** ** Control flow of an [async] function body *)

(** What a statement of a function body does: fall through to the next
    statement with a value, [return] from the function, or [throw]. *)
Inductive Flow (R A : Type) : Type :=
| Next (a : A)
| Return (r : R)
| Throw (e : Error).
Arguments Next {R A} a.
Arguments Return {R A} r.
Arguments Throw {R A} e.

(** An [async] function seen from its caller. *)
Definition Promise (A : Type) : Type := World -> Settled A * World.

(** A statement inside the body of a function that returns [R]. *)
Definition Stmt (R A : Type) : Type := World -> Flow R A * World.

Definition next {R A} (a : A) : Stmt R A := fun w => (Next a, w).
Definition return_ {R A} (r : R) : Stmt R A := fun w => (Return r, w).
Definition throw {R A} (e : Error) : Stmt R A := fun w => (Throw e, w).

Definition bind {R A B} (m : Stmt R A) (k : A -> Stmt R B) : Stmt R B :=
  fun w =>
    match m w with
    | (Next a, w') => k a w'
    | (Return r, w') => (Return r, w')
    | (Throw e, w') => (Throw e, w')
    end.

Notation "'let*' x ':=' m 'in' k" := (bind m (fun x => k))
  (at level 10, x name, m at level 100, k at level 200).

Definition log (ev : Event) (w : World) : World :=
  {| ledger := ledger w; history := history w ++ [ev] |}.

(** [await p]: run the callee, record how its promise settled, and either
    continue with the value or throw the rejection. *)
Definition await {R A} (p : Promise A) (ev : Settled A -> Event) : Stmt R A :=
  fun w =>
    let '(r, w') := p w in
    match r with
    | Resolved a => (Next a, log (ev r) w')
    | Rejected e => (Throw e, log (ev r) w')
    end.

(** A collaborator that neither reads nor writes the ledger. *)
Definition oracle {A} (f : History -> Settled A) : Promise A :=
  fun w => (f (history w), w).

(** [new Date()]. *)
Definition newDate {R} (env : Env) : Stmt R Z :=
  fun w => let t := clock env (history w) in (Next t, log (EvNow t) w).

(** [try { body } catch (error) { handler }] as the whole body of an
    [async] function: the promise resolves with what the body returns and
    with what the handler returns when the body throws. *)
Definition tryCatch {R} (body : Stmt R R) (handler : Error -> Stmt R R) : Promise R :=
  fun w =>
    match body w with
    | (Next r, w') | (Return r, w') => (Resolved r, w')
    | (Throw e, w') =>
        match handler e w' with
        | (Next r, w'') | (Return r, w'') => (Resolved r, w'')
        | (Throw e', w'') => (Rejected e', w'')
        end
    end.

(** ** src/models/PostMemory.ts: the operations *)

Definition sameKey (fs : list Field) (a b : PostMemoryDoc) : bool :=
  forallb (fun f => fieldValue_eqb (fieldValue f a) (fieldValue f b)) fs.

(** Would inserting [d] put two documents with the same key in a unique
    index? *)
Definition violates (l : Ledger) (d : PostMemoryDoc) (ix : IndexSpec) : bool :=
  ix_unique ix && existsb (sameKey (ix_fields ix) d) l.

(** The error MongoDB raises for a write that a unique index refuses. *)
Definition duplicateKeyError : Error :=
  mkError "E11000 duplicate key error collection: postmemories index: platform_1_targetAccount_1_postId_1".

(** The storage engine's insert under the declared indexes: the write is
    refused, and the collection left as it was, when a unique index
    already holds the key; otherwise the document is appended. *)
Definition insertOne (indexes : list IndexSpec) (l : Ledger) (d : PostMemoryDoc)
  : Settled PostMemoryDoc * Ledger :=
  if existsb (violates l d) indexes
  then (Rejected duplicateKeyError, l)
  else (Resolved d, l ++ [d]).

(** [countDocuments({ platform, targetAccount, postId })]. *)
Definition countDocuments (l : Ledger) (platform account pid : string) : Z :=
  Z.of_nat (length (List.filter
    (fun d => String.eqb (cd_platform (doc_data d)) platform
              && String.eqb (cd_targetAccount (doc_data d)) account
              && String.eqb (cd_postId (doc_data d)) pid) l)).

Section PostMemory.

Variable env : Env.

(** [PostMemory.hasCommented]. *)
Definition hasCommented (platform account pid : string) : Promise bool :=
  fun w =>
    match storageFault env (history w) with
    | Some e => (Rejected e, w)
    | None => (Resolved (0 <? countDocuments (ledger w) platform account pid), w)
    end.

(** [PostMemory.recordComment]:
    [this.create({ ...data, commentedAt: new Date() })]. *)
Definition recordComment (data : CommentData) : Promise PostMemoryDoc :=
  fun w =>
    match storageFault env (history w) with
    | Some e => (Rejected e, w)
    | None =>
        let doc := {| doc_data := data; commentedAt := clock env (history w) |} in
        let '(r, l') := insertOne postMemorySchema_indexes (ledger w) doc in
        (r, {| ledger := l'; history := history w |})
    end.

(** The writes of other runs that reach the store first.  They go
    through the same storage engine, so a unique index refuses those
    that collide. *)
Definition otherWriters (docs : list PostMemoryDoc) (l : Ledger) : Ledger :=
  fold_left (fun acc d => snd (insertOne postMemorySchema_indexes acc d)) docs l.

(** A store operation issued while other runs are writing. *)
Definition contended {A} (p : Promise A) : Promise A :=
  fun w =>
    p {| ledger := otherWriters (racingWrites env (history w)) (ledger w);
         history := history w |}.

End PostMemory.

(** ** src/client/IG-bot/IgClient.ts: the order of the discovered posts *)

(** [Array.prototype.sort(compare)] for a comparison that is an order:
    the stable sort; [x] goes before [y] when [compare x y <= 0] and [x]
    came first. *)
Fixpoint insertSorted {A} (compare : A -> A -> Z) (x : A) (l : list A) : list A :=
  match l with
  | [] => [x]
  | y :: l' =>
      if compare x y <=? 0 then x :: y :: l'
      else y :: insertSorted compare x l'
  end.

Fixpoint arraySort {A} (compare : A -> A -> Z) (l : list A) : list A :=
  match l with
  | [] => []
  | x :: l' => insertSorted compare x (arraySort compare l')
  end.

(** The run at the start of the array, after its first two elements:
    how many more elements continue it. *)
Fixpoint runRest {A} (compare : A -> A -> Z) (descending : bool)
    (previous : A) (rest : list A) : nat :=
  match rest with
  | [] => O
  | current :: rest' =>
      let order := compare current previous in
      if (if descending then 0 <=? order else order <? 0) then O
      else S (runRest compare descending current rest')
  end.

(** [CountAndMakeRun]: the length of the run the array starts with, and
    whether it is strictly descending (it is then reversed). *)
Definition countRun {A} (compare : A -> A -> Z) (l : list A) : nat * bool :=
  match l with
  | [] => (O, false)
  | [_] => (1%nat, false)
  | low :: high :: rest =>
      let descending := compare high low <? 0 in
      (S (S (runRest compare descending high rest)), descending)
  end.

(** The binary search of [BinaryInsertionSort] in the window
    [[left, right)] of the sorted part: where the pivot goes, counted from
    [left]. *)
Fixpoint insertionPoint {A} (compare : A -> A -> Z) (fuel : nat) (pivot : A)
    (window : list A) : nat :=
  match fuel with
  | O => O
  | S fuel' =>
      let mid := Nat.div2 (length window) in
      match nth_error window mid with
      | None => O
      | Some element =>
          if compare pivot element <? 0
          then insertionPoint compare fuel' pivot (firstn mid window)
          else S (mid + insertionPoint compare fuel' pivot (skipn (S mid) window))
      end
  end.

Definition binaryInsert {A} (compare : A -> A -> Z) (sorted : list A) (pivot : A)
    : list A :=
  let place := insertionPoint compare (length sorted) pivot sorted in
  firstn place sorted ++ pivot :: skipn place sorted.

(** [Array.prototype.sort(compare)] as V8, the engine of Node, carries it
    out on an array of fewer than 64 elements: the run the array starts with
    is found, reversed when it is strictly descending, and every further
    element is put at the place a binary search finds for it.  A comparison
    that yields [NaN] counts as [+0].  For a comparison that is an order the
    result is the stable sort, as with [arraySort]; for one that is not, the
    result depends on the comparisons made, and these are the engine's. *)
Definition engineSort {A} (compare : A -> A -> Z) (l : list A) : list A :=
  let (n, descending) := countRun compare l in
  fold_left (binaryInsert compare) (skipn n l)
            (if descending then rev (firstn n l) else firstn n l).

(** [(a, b) => b.timestamp.getTime() - a.timestamp.getTime()].  With an
    Invalid Date on either side the difference is [NaN], which the sort
    takes as [+0]. *)
Definition newestFirst (a b : Post) : Z :=
  match p_timestamp b, p_timestamp a with
  | date tb, date ta => tb - ta
  | _, _ => 0
  end.

(** [IgClient.getLastFourPosts]: the posts for which a [Date] was built,
    after [sort]; there are at most four of them. *)
Definition getLastFourPosts (env : Env) (account : string) : Promise (list Post) :=
  fun w =>
    match scrapePosts env (history w) account with
    | Resolved postsWithTimestamps =>
        (Resolved (engineSort newestFirst postsWithTimestamps), w)
    | Rejected e => (Rejected e, w)
    end.

(** ** src/services/smart-comment.ts *)

(** The result of [shouldCommentBasedOnLength]. *)
Record LengthVerdict := { allowed : bool; lv_reason : option string }.

Definition skippedResult (account why : string) : CommentResult :=
  {| targetAccount := account; success := true; action := skipped;
     reason := Some why; postId := None; postUrl := None;
     r_captionLength := None; comment := None |}.

(** The object both [catch] blocks build. *)
Definition failedResult (account : string) (error : Error) : CommentResult :=
  {| targetAccount := account; success := false; action := failed;
     reason := Some (orElse (message error) "Unknown error");
     postId := None; postUrl := None;
     r_captionLength := None; comment := None |}.

Definition commentedResult (account : string) (latest : Post)
    (details : PostDetails) (text : string) : CommentResult :=
  {| targetAccount := account; success := true; action := commented;
     reason := None; postId := Some (p_postId latest);
     postUrl := Some (p_postUrl latest);
     r_captionLength := Some (d_captionLength details);
     comment := Some text |}.

(** [Math.floor(Math.random() * (max - min) + min)], in the arithmetic of
    numbers. *)
Definition randomDelay (u : Random) (lo hi : Z) : Z :=
  mathFloor (fadd (fmul (randomValue u) (fsub (ofZ hi) (ofZ lo))) (ofZ lo)).

Section SmartCommentService.

Variable env : Env.
Variable cfg : BotConfig.

(** [shouldCommentBasedOnLength]. *)
Definition shouldCommentBasedOnLength (len : Z) : LengthVerdict :=
  let config := captionLength (filtering cfg) in
  if negb (cl_enabled config) then {| allowed := true; lv_reason := None |}
  else if len <? cl_min config then
    {| allowed := false;
       lv_reason := Some ("Caption too short (" +:+ pretty len +:+ " < "
                          +:+ pretty (cl_min config) +:+ " chars)") |}
  else if cl_max config <? len then
    {| allowed := false;
       lv_reason := Some ("Caption too long (" +:+ pretty len +:+ " > "
                          +:+ pretty (cl_max config) +:+ " chars)") |}
  else {| allowed := true; lv_reason := None |}.

Definition maxPostAgeDays : Z :=
  if mpa_enabled (maxPostAge (filtering cfg))
  then mpa_days (maxPostAge (filtering cfg))
  else 999.

Definition maxPostAgeMs : Z := maxPostAgeDays * 24 * 60 * 60 * 1000.

(** [postAge > maxPostAgeMs], checked only when the filter is enabled;
    for an Invalid Date [postAge] is [NaN] and the comparison is false. *)
Definition tooOld (now : Z) (post : Post) : bool :=
  mpa_enabled (maxPostAge (filtering cfg))
  && match p_timestamp post with
     | date t => maxPostAgeMs <? now - t
     | invalidDate => false
     end.

(** Step 2, the loop [for (const post of posts)] that fills
    [eligiblePosts]. *)
Fixpoint collectEligible {R} (account : string) (now : Z)
    (posts eligiblePosts : list Post) : Stmt R (list Post) :=
  match posts with
  | [] => next eligiblePosts
  | post :: rest =>
      if tooOld now post then collectEligible account now rest eligiblePosts
      else
        let* alreadyCommented :=
          await (hasCommented env "instagram" account (p_postId post))
                (EvHasCommented account (p_postId post)) in
        if (alreadyCommented : bool)
        then collectEligible account now rest eligiblePosts
        else collectEligible account now rest (eligiblePosts ++ [post])
  end.

(** Steps 1 to 4: the post the run goes on with, [eligiblePosts[0]].
    The log line of step 4 calls [timestamp.toISOString()], which throws
    on an Invalid Date. *)
Definition selectLatestEligible (account : string) : Stmt CommentResult Post :=
  let* _ := await (oracle (igClient env)) EvGetIgClient in
  let* posts := await (getLastFourPosts env account) (EvGetLastFourPosts account) in
  match posts with
  | [] => return_ (skippedResult account "No posts found for this account")
  | _ :: _ =>
      let* now := newDate env in
      let* eligiblePosts := collectEligible account now posts [] in
      match eligiblePosts with
      | [] =>
          return_ (skippedResult account
            ("No posts within " +:+ pretty maxPostAgeDays
             +:+ " days or all recent posts already commented on"))
      | latestEligiblePost :: _ =>
          match p_timestamp latestEligiblePost with
          | date _ => next latestEligiblePost
          | invalidDate => throw (mkError "Invalid time value")
          end
      end
  end.

Definition commentData (account : string) (latest : Post)
    (details : PostDetails) (text : string) : CommentData :=
  {| cd_platform := "instagram";
     cd_targetAccount := account;
     cd_postId := p_postId latest;
     cd_postUrl := p_postUrl latest;
     cd_captionLength := d_captionLength details;
     cd_caption := d_caption details;
     cd_commentText := text;
     cd_wasSuccessful := true;
     cd_postTimestamp := p_timestamp latest |}.

(** Steps 5 to 8 on the selected post: details, generation, submission,
    record. *)
Definition engage (account : string) (latest : Post)
  : Stmt CommentResult CommentResult :=
  let* post :=
    await (oracle (fun h => postDetails env h (p_postUrl latest)))
          (EvGetPostDetails (p_postUrl latest)) in
  match post with
  | None => return_ (skippedResult account "Failed to get post details")
  | Some details =>
      let* text :=
        await (oracle (fun h =>
                 generateInstagramComment env h (d_caption details)
                   (d_screenshotBase64 details) (d_videoFramesBase64 details)))
              (EvGenerate (d_caption details)) in
      if String.eqb text "" then throw (mkError "AI failed to generate a comment.")
      else
        let* _ :=
          await (oracle (fun h => postComment env h (p_postUrl latest) text))
                (EvPostComment (p_postUrl latest) text) in
        let data := commentData account latest details text in
        let* _ :=
          await (contended env (recordComment env data)) (EvRecordComment data) in
        return_ (commentedResult account latest details text)
  end.

(** The [try] block of [commentOnLatestPost]. *)
Definition tryBlock (account : string) : Stmt CommentResult CommentResult :=
  let* latestEligiblePost := selectLatestEligible account in
  engage account latestEligiblePost.

(** [commentOnLatestPost]: the [catch] block turns any error thrown in
    the [try] block into a [failed] result. *)
Definition commentOnLatestPost (account : string) : Promise CommentResult :=
  tryCatch (tryBlock account)
           (fun error => return_ (failedResult account error)).

(** The delay [processTargets] computes after a result. *)
Definition betweenAccountsDelay (h : History) : Z :=
  randomDelay (random env h)
    (bp_min (betweenPosts (timing cfg))) (bp_max (betweenPosts (timing cfg))).

(** One iteration of [for (const targetAccount of targetAccounts)]:
    inside [try], the call, [results.push(result)] and the sleep;
    in [catch], [results.push] of a failed result. *)
Definition processOne (account : string) (results : list CommentResult)
    (w : World) : list CommentResult * World :=
  match commentOnLatestPost account w with
  | (Resolved result, w1) =>
      (results ++ [result], log (EvSleep (betweenAccountsDelay (history w1))) w1)
  | (Rejected error, w1) =>
      (results ++ [failedResult account error], w1)
  end.

Fixpoint processLoop (targetAccounts : list string)
    (results : list CommentResult) (w : World) : list CommentResult * World :=
  match targetAccounts with
  | [] => (results, w)
  | targetAccount :: rest =>
      let '(results', w') := processOne targetAccount results w in
      processLoop rest results' w'
  end.

(** [processTargets]. *)
Definition processTargets (targetAccounts : list string)
  : Promise (list CommentResult) :=
  fun w =>
    let '(results, w') := processLoop targetAccounts [] w in
    (Resolved results, w').

End SmartCommentService.

(** ** src/services/scheduler.ts *)

(** The object stored in [lastRunResults]. *)
Record RunSnapshot := {
  runId : string;
  rs_timestamp : option Z;
  rs_duration : Z;
  rs_targets : option Z;
  rs_results : option (list CommentResult);
  rs_error : option string }.

(** The private fields of [SchedulerService]; [task] holds the cron
    expression of the armed timer. *)
Record SchedulerService := {
  task : option string;
  isRunning : bool;
  runCount : Z;
  lastRunTime : option Z;
  lastRunResults : option RunSnapshot }.

(** [new SchedulerService()]. *)
Definition schedulerService : SchedulerService :=
  {| task := None; isRunning := false; runCount := 0;
     lastRunTime := None; lastRunResults := None |}.

Section SchedulerService.

Variable env : Env.
Variable cfg : BotConfig.

(** [botConfig.scheduler.interval || 10]. *)
Definition intervalOrDefault : Z :=
  if interval (scheduler cfg) =? 0 then 10 else interval (scheduler cfg).

(** [start()], without the optional run on startup. *)
Definition start (this : SchedulerService) : SchedulerService :=
  if negb (enabled (scheduler cfg)) then this
  else match task this with
       | Some _ => this
       | None =>
           {| task := Some ("*/" +:+ pretty intervalOrDefault +:+ " * * * *");
              isRunning := isRunning this; runCount := runCount this;
              lastRunTime := lastRunTime this;
              lastRunResults := lastRunResults this |}
       end.

(** [stop()]. *)
Definition stop (this : SchedulerService) : SchedulerService :=
  match task this with
  | None => this
  | Some _ =>
      {| task := None; isRunning := isRunning this; runCount := runCount this;
         lastRunTime := lastRunTime this;
         lastRunResults := lastRunResults this |}
  end.

(** The guard at the top of [runScheduledTask]: [true] when the
    invocation returns at once. *)
Definition skipsThisInterval (this : SchedulerService) : bool :=
  isRunning this && skipIfRunning (scheduler cfg).

(** The statements between the guard and [try]. *)
Definition enterRun (this : SchedulerService) (now : Z) : SchedulerService :=
  {| task := task this; isRunning := true; runCount := runCount this + 1;
     lastRunTime := Some now; lastRunResults := lastRunResults this |}.

Definition withResults (this : SchedulerService) (snapshot : RunSnapshot)
  : SchedulerService :=
  {| task := task this; isRunning := isRunning this; runCount := runCount this;
     lastRunTime := lastRunTime this; lastRunResults := Some snapshot |}.

(** The [finally] block. *)
Definition leaveRun (this : SchedulerService) : SchedulerService :=
  {| task := task this; isRunning := false; runCount := runCount this;
     lastRunTime := lastRunTime this; lastRunResults := lastRunResults this |}.

(** [runScheduledTask].  The clock is read for [lastRunTime], for
    [startTime] and for the duration of the snapshot. *)
Definition runScheduledTask (this : SchedulerService) (w : World)
  : SchedulerService * World :=
  if skipsThisInterval this then (this, w)
  else
    let now := clock env (history w) in
    let w1 := log (EvNow now) w in
    let this1 := enterRun this now in
    let runId := "RUN-" +:+ pretty (runCount this1) in
    let startTime := clock env (history w1) in
    let w2 := log (EvNow startTime) w1 in
    let targets := accounts (target cfg) in
    match targets with
    | [] => (leaveRun this1, w2)
    | _ :: _ =>
        match processTargets env cfg targets w2 with
        | (Resolved results, w3) =>
            let finished := clock env (history w3) in
            (leaveRun (withResults this1
               {| runId := runId; rs_timestamp := lastRunTime this1;
                  rs_duration := finished - startTime;
                  rs_targets := Some (Z.of_nat (length targets));
                  rs_results := Some results; rs_error := None |}),
             log (EvNow finished) w3)
        | (Rejected error, w3) =>
            let finished := clock env (history w3) in
            (leaveRun (withResults this1
               {| runId := runId; rs_timestamp := lastRunTime this1;
                  rs_duration := finished - startTime;
                  rs_targets := None; rs_results := None;
                  rs_error := Some (message error) |}),
             log (EvNow finished) w3)
        end
    end.

(** [runNow()]: the same routine, then [return this.lastRunResults]. *)
Definition runNow (this : SchedulerService) (w : World)
  : option RunSnapshot * SchedulerService * World :=
  let '(this', w') := runScheduledTask this w in
  (lastRunResults this', this', w').

End SchedulerService.

(** ** The webhook router *)

(** A JSON value as far as the handler tells them apart. *)
Inductive Json := JString (s : string) | JOther.

(** [req.body]: [accounts] is [None] when missing or not an array,
    [apiKey] is [None] when missing or not a string. *)
Record RunBotBody := {
  body_accounts : option (list Json);
  body_apiKey : option string }.

Inductive Response :=
| Unauthorized
| BadRequest (error : string)
| Conflict (accounts : list string)
| Accepted (jobId : string) (accounts : list string).

(** [res.status(...)]. *)
Definition status (r : Response) : Z :=
  match r with
  | Unauthorized => 401
  | BadRequest _ => 400
  | Conflict _ => 409
  | Accepted _ _ => 202
  end.

(** The arguments of a call of [runBotInBackground]. *)
Record Job := { job_accounts : list string; job_id : string; job_key : string }.

(** White space as [String.prototype.trim] sees it, among the code units
    below 256. *)
Definition isWhiteSpace (c : ascii) : bool :=
  let n := nat_of_ascii c in
  ((9 <=? n) && (n <=? 13))%nat || (n =? 32)%nat || (n =? 160)%nat.

(** [s.trim().length === 0]. *)
Fixpoint trimsToEmpty (s : string) : bool :=
  match s with
  | EmptyString => true
  | String c s' => isWhiteSpace c && trimsToEmpty s'
  end.

(** The loop over [accounts] that validates each username: the strings
    in order, or the first offending element. *)
Fixpoint validateAccounts (accounts : list Json) : list string + Json :=
  match accounts with
  | [] => inl []
  | JString s :: rest =>
      if trimsToEmpty s then inr (JString s)
      else match validateAccounts rest with
           | inl names => inl (s :: names)
           | inr bad => inr bad
           end
  | JOther :: _ => inr JOther
  end.

(** The default comparison of [Array.prototype.sort] on strings. *)
Definition compareStrings (a b : string) : Z :=
  match String.compare a b with
  | Lt => -1
  | Eq => 0
  | Gt => 1
  end.

(** [Array.prototype.join]. *)
Fixpoint join (sep : string) (l : list string) : string :=
  match l with
  | [] => ""
  | [x] => x
  | x :: rest => x +:+ sep +:+ join sep rest
  end.

(** [accounts.sort().join(',')]. *)
Definition jobKeyOf (accounts : list string) : string :=
  join "," (arraySort compareStrings accounts).

(** [WEBHOOK_API_KEY && apiKey !== WEBHOOK_API_KEY]. *)
Definition keyRejected (WEBHOOK_API_KEY : option string) (apiKey : option string) : bool :=
  match WEBHOOK_API_KEY with
  | None => false
  | Some expected =>
      if String.eqb expected "" then false
      else match apiKey with
           | Some given => negb (String.eqb given expected)
           | None => true
           end
  end.

(** [router.post('/run-bot', ...)]: the response, the map of active jobs
    afterwards, and the call of [runBotInBackground] it makes, if any.
    [jobId] is the fresh identifier built from the clock and the random
    generator; the texts of the two 400 responses are shortened. *)
Definition postRunBot (WEBHOOK_API_KEY : option string) (jobId : string)
    (body : RunBotBody) (activeJobs : gmap string bool)
  : Response * gmap string bool * option Job :=
  if keyRejected WEBHOOK_API_KEY (body_apiKey body)
  then (Unauthorized, activeJobs, None)
  else
    match body_accounts body with
    | None | Some [] =>
        (BadRequest "Missing or invalid accounts array", activeJobs, None)
    | Some (first :: others) =>
        match validateAccounts (first :: others) with
        | inr _ => (BadRequest "Invalid account username", activeJobs, None)
        | inl names =>
            let sorted := arraySort compareStrings names in
            let jobKey := join "," sorted in
            match activeJobs !! jobKey with
            | Some _ => (Conflict sorted, activeJobs, None)
            | None =>
                (Accepted jobId sorted,
                 <[jobKey := true]> activeJobs,
                 Some {| job_accounts := sorted; job_id := jobId; job_key := jobKey |})
            end
        end
    end.

(** [runBotInBackground]: whatever [processTargets] does, the [finally]
    block deletes the key. *)
Definition runBotInBackground (env : Env) (cfg : BotConfig) (job : Job)
    (activeJobs : gmap string bool) (w : World)
  : Settled unit * gmap string bool * World :=
  match processTargets env cfg (job_accounts job) w with
  | (Resolved _, w') => (Resolved tt, delete (job_key job) activeJobs, w')
  | (Rejected error, w') => (Rejected error, delete (job_key job) activeJobs, w')
  end.

(** The router together with the background jobs that have been started
    and have not finished. *)
Record Webhook := {
  activeJobs : gmap string bool;
  inFlight : list Job }.

(** A request is served. *)
Definition serve (WEBHOOK_API_KEY : option string) (jobId : string)
    (body : RunBotBody) (wh : Webhook) : Response * Webhook :=
  let '(response, active, started) :=
    postRunBot WEBHOOK_API_KEY jobId body (activeJobs wh) in
  (response,
   {| activeJobs := active;
      inFlight := match started with
                  | Some job => inFlight wh ++ [job]
                  | None => inFlight wh
                  end |}).

(** A background job finishes: [runBotInBackground] has run to its end. *)
Definition finish (env : Env) (cfg : BotConfig) (job : Job) (wh : Webhook)
    (w : World) : Settled unit * Webhook * World :=
  let '(r, active, w') := runBotInBackground env cfg job (activeJobs wh) w in
  (r,
   {| activeJobs := active;
      inFlight := List.filter
                    (fun j => negb (String.eqb (job_key j) (job_key job)))
                    (inFlight wh) |},
   w').

(** ** Properties stated about the code *)

(** The tuple the unique index is built on. *)
Definition tupleOf (d : PostMemoryDoc) : string * string * string :=
  (cd_platform (doc_data d), cd_targetAccount (doc_data d), cd_postId (doc_data d)).

(** No two documents share [(platform, targetAccount, postId)]. *)
Definition uniqueTuples (l : Ledger) : Prop := NoDup (List.map tupleOf l).

(** The ledgers that can arise: the empty collection, and what any call
    of [recordComment] leaves behind. *)
Inductive ledgerReachable : Ledger -> Prop :=
| reach_empty : ledgerReachable []
| reach_record env data w :
    ledgerReachable (ledger w) ->
    ledgerReachable (ledger (snd (recordComment env data w))).


(** A post that neither filter of step 2 discards. *)
Definition survives (cfg : BotConfig) (now : Z) (l : Ledger) (account : string)
    (post : Post) : bool :=
  negb (tooOld cfg now post)
  && negb (0 <? countDocuments l "instagram" account (p_postId post)).

(** Both dates are valid and [y] is not later than [x]. *)
Definition notLater (y x : Post) : Prop :=
  match p_timestamp y, p_timestamp x with
  | date ty, date tx => ty <= tx
  | _, _ => False
  end.

Definition validTimestamp (post : Post) : Prop := p_timestamp post <> invalidDate.

(** Timestamps never increase along the list. *)
Fixpoint newestFirstOrder (l : list Post) : Prop :=
  match l with
  | [] => True
  | x :: l' => (forall y, In y l' -> notLater y x)
               /\ newestFirstOrder l'
  end.

(** The generation step returned nothing or threw. *)
Definition generationFailed (ev : Event) : bool :=
  match ev with
  | EvGenerate _ (Resolved text) => String.eqb text ""
  | EvGenerate _ (Rejected _) => true
  | _ => false
  end.

(** The submission step threw. *)
Definition submissionThrew (ev : Event) : bool :=
  match ev with
  | EvPostComment _ _ (Rejected _) => true
  | _ => false
  end.

(** The record step was refused by the unique index. *)
Definition conflictReported (ev : Event) : bool :=
  match ev with
  | EvRecordComment _ (Rejected e) =>
      String.eqb (message e) (message duplicateKeyError)
  | _ => false
  end.

Definition isSleep (ev : Event) : bool :=
  match ev with
  | EvSleep _ => true
  | _ => false
  end.

(** Events of the steps that come after the selection. *)
Definition afterSelection (ev : Event) : bool :=
  match ev with
  | EvGetPostDetails _ _ | EvGenerate _ _ | EvPostComment _ _ _
  | EvRecordComment _ _ | EvSleep _ => true
  | _ => false
  end.

(** What [engage] can do on the selected post, as a relation between the
    ledger it starts from, the way the statement ends, the ledger it
    leaves and the events it adds. *)
Inductive EngageRun (account : string) (latest : Post) (l : Ledger)
  : Flow CommentResult CommentResult -> Ledger -> list Event -> Prop :=
| run_detailsThrew e :
    EngageRun account latest l (Throw e) l
      [EvGetPostDetails (p_postUrl latest) (Rejected e)]
| run_noDetails :
    EngageRun account latest l
      (Return (skippedResult account "Failed to get post details")) l
      [EvGetPostDetails (p_postUrl latest) (Resolved None)]
| run_generateThrew d e :
    EngageRun account latest l (Throw e) l
      [EvGetPostDetails (p_postUrl latest) (Resolved (Some d));
       EvGenerate (d_caption d) (Rejected e)]
| run_generateEmpty d :
    EngageRun account latest l
      (Throw (mkError "AI failed to generate a comment.")) l
      [EvGetPostDetails (p_postUrl latest) (Resolved (Some d));
       EvGenerate (d_caption d) (Resolved "")]
| run_submitThrew d text e :
    String.eqb text "" = false ->
    EngageRun account latest l (Throw e) l
      [EvGetPostDetails (p_postUrl latest) (Resolved (Some d));
       EvGenerate (d_caption d) (Resolved text);
       EvPostComment (p_postUrl latest) text (Rejected e)]
| run_storageFault d text e others :
    String.eqb text "" = false ->
    EngageRun account latest l (Throw e) (otherWriters others l)
      [EvGetPostDetails (p_postUrl latest) (Resolved (Some d));
       EvGenerate (d_caption d) (Resolved text);
       EvPostComment (p_postUrl latest) text (Resolved tt);
       EvRecordComment (commentData account latest d text) (Rejected e)]
| run_conflict d text others doc :
    String.eqb text "" = false ->
    doc_data doc = commentData account latest d text ->
    existsb (violates (otherWriters others l) doc) postMemorySchema_indexes = true ->
    EngageRun account latest l (Throw duplicateKeyError) (otherWriters others l)
      [EvGetPostDetails (p_postUrl latest) (Resolved (Some d));
       EvGenerate (d_caption d) (Resolved text);
       EvPostComment (p_postUrl latest) text (Resolved tt);
       EvRecordComment (commentData account latest d text)
         (Rejected duplicateKeyError)]
| run_recorded d text others doc :
    String.eqb text "" = false ->
    doc_data doc = commentData account latest d text ->
    existsb (violates (otherWriters others l) doc) postMemorySchema_indexes = false ->
    EngageRun account latest l
      (Return (commentedResult account latest d text))
      (otherWriters others l ++ [doc])
      [EvGetPostDetails (p_postUrl latest) (Resolved (Some d));
       EvGenerate (d_caption d) (Resolved text);
       EvPostComment (p_postUrl latest) text (Resolved tt);
       EvRecordComment (commentData account latest d text) (Resolved doc)].

(** What the caller of [commentOnLatestPost] receives for the way the
    [try] block ended. *)
Definition settle (account : string) (fl : Flow CommentResult CommentResult)
  : CommentResult :=
  match fl with
  | Next r | Return r => r
  | Throw e => failedResult account e
  end.

(** The accounts of a body that passes both validations of the handler. *)
Definition validNames (body : RunBotBody) (names : list string) : Prop :=
  exists first others,
    body_accounts body = Some (first :: others)
    /\ validateAccounts (first :: others) = inl names.

Fixpoint hasComma (s : string) : bool :=
  match s with
  | EmptyString => false
  | String c s' => Ascii.eqb c ","%char || hasComma s'
  end.

(** A username that is not blank and holds no comma. *)
Definition plainName (s : string) : Prop :=
  trimsToEmpty s = false /\ hasComma s = false.

(** The map of active keys agrees with the jobs in flight: a key is
    marked exactly when a job in flight carries it, and the key of a job is
    its sorted account list joined by commas. *)
Definition coherent (wh : Webhook) : Prop :=
  (forall key, is_Some (activeJobs wh !! key)
               <-> exists job, In job (inFlight wh) /\ job_key job = key)
  /\ (forall job, In job (inFlight wh) ->
                  job_key job = join "," (job_accounts job)).

(** The router when the process starts. *)
Definition idleWebhook : Webhook := {| activeJobs := ∅; inFlight := [] |}.

(** A body whose accounts are all strings. *)
Definition bodyOf (names : list string) (apiKey : option string) : RunBotBody :=
  {| body_accounts := Some (List.map JString names); body_apiKey := apiKey |}.

(** ** Concrete runs used in the examples *)

Definition emptyWorld : World := {| ledger := []; history := [] |}.

Definition day : Z := 24 * 60 * 60 * 1000.

(** Three posts of one account, as scraped: half a day, two days and
    nine tenths of a day old at time [10 * day]. *)
Definition postHalfDay : Post :=
  {| p_postId := "DAhalf"; p_postUrl := "https://www.instagram.com/p/DAhalf/";
     p_contentType := image; p_timestamp := date (10 * day - day / 2);
     p_isPinned := false |}.

Definition postTwoDays : Post :=
  {| p_postId := "DAtwo"; p_postUrl := "https://www.instagram.com/reel/DAtwo/";
     p_contentType := reel; p_timestamp := date (8 * day); p_isPinned := true |}.

Definition postNineTenths : Post :=
  {| p_postId := "DAnine"; p_postUrl := "https://www.instagram.com/p/DAnine/";
     p_contentType := image; p_timestamp := date (10 * day - 9 * day / 10);
     p_isPinned := false |}.

Definition someDetails (post : Post) : PostDetails :=
  {| d_postId := p_postId post; d_postUrl := p_postUrl post;
     d_caption := "Sunrise over the valley, first light of the year";
     d_captionLength := 48; d_postTimestamp := p_timestamp post;
     d_screenshotBase64 := Some "iVBORw0KGgo"; d_videoFramesBase64 := None;
     d_contentType := p_contentType post |}.

Definition detailsByUrl (url : string) : option PostDetails :=
  if String.eqb url (p_postUrl postHalfDay) then Some (someDetails postHalfDay)
  else if String.eqb url (p_postUrl postTwoDays) then Some (someDetails postTwoDays)
  else if String.eqb url (p_postUrl postNineTenths) then Some (someDetails postNineTenths)
  else None.

(** Every collaborator answers, nobody else writes. *)
Definition calmEnv : Env :=
  {| igClient := fun _ => Resolved tt;
     scrapePosts := fun _ _ => Resolved [postNineTenths; postTwoDays; postHalfDay];
     postDetails := fun _ url => Resolved (detailsByUrl url);
     generateInstagramComment := fun _ _ _ _ => Resolved "That first light is unreal";
     postComment := fun _ _ _ => Resolved tt;
     clock := fun _ => 10 * day;
     random := fun _ => {| r_mant := 2 ^ 52; r_shift := 0 |};
     storageFault := fun _ => None;
     racingWrites := fun _ => [] |}.

(** The language model returns the empty string. *)
Definition muteEnv : Env :=
  {| igClient := igClient calmEnv;
     scrapePosts := scrapePosts calmEnv;
     postDetails := postDetails calmEnv;
     generateInstagramComment := fun _ _ _ _ => Resolved "";
     postComment := postComment calmEnv;
     clock := clock calmEnv;
     random := random calmEnv;
     storageFault := storageFault calmEnv;
     racingWrites := racingWrites calmEnv |}.

(** The document another run stores for the same post of the same
    account. *)
Definition rivalDoc (account : string) : PostMemoryDoc :=
  {| doc_data := commentData account postHalfDay (someDetails postHalfDay)
                   "Such a calm morning";
     commentedAt := 10 * day - 1 |}.

(** Another run records the post while this one is generating and
    submitting its comment. *)
Definition racingEnv : Env :=
  {| igClient := igClient calmEnv;
     scrapePosts := scrapePosts calmEnv;
     postDetails := postDetails calmEnv;
     generateInstagramComment := generateInstagramComment calmEnv;
     postComment := postComment calmEnv;
     clock := clock calmEnv;
     random := random calmEnv;
     storageFault := storageFault calmEnv;
     racingWrites := fun _ => [rivalDoc "lifebytosin"] |}.

(** The browser fails for one account only. *)
Definition flakyEnv : Env :=
  {| igClient := igClient calmEnv;
     scrapePosts := fun _ account =>
       if String.eqb account "drshievag"
       then Rejected (mkError "Navigation timeout of 30000 ms exceeded")
       else scrapePosts calmEnv [] account;
     postDetails := postDetails calmEnv;
     generateInstagramComment := generateInstagramComment calmEnv;
     postComment := postComment calmEnv;
     clock := clock calmEnv;
     random := random calmEnv;
     storageFault := storageFault calmEnv;
     racingWrites := racingWrites calmEnv |}.

(** A post whose [time] element carries a [datetime] that does not
    parse. *)
Definition postUnreadable : Post :=
  {| p_postId := "DAbad"; p_postUrl := "https://www.instagram.com/p/DAbad/";
     p_contentType := image; p_timestamp := invalidDate; p_isPinned := false |}.

(** The profile shows the older post first, then the post with the
    unreadable date, then the newer post. *)
Definition unreadableDateEnv : Env :=
  {| igClient := igClient calmEnv;
     scrapePosts := fun _ _ => Resolved [postNineTenths; postUnreadable; postHalfDay];
     postDetails := postDetails calmEnv;
     generateInstagramComment := generateInstagramComment calmEnv;
     postComment := postComment calmEnv;
     clock := clock calmEnv;
     random := random calmEnv;
     storageFault := storageFault calmEnv;
     racingWrites := racingWrites calmEnv |}.

(** The only post found has the unreadable date. *)
Definition onlyUnreadableEnv : Env :=
  {| igClient := igClient calmEnv;
     scrapePosts := fun _ _ => Resolved [postUnreadable];
     postDetails := postDetails calmEnv;
     generateInstagramComment := generateInstagramComment calmEnv;
     postComment := postComment calmEnv;
     clock := clock calmEnv;
     random := random calmEnv;
     storageFault := storageFault calmEnv;
     racingWrites := racingWrites calmEnv |}.

(** ** src/models/PostMemory.ts: the queries *)

From Stdlib Require QArith.

(** What [getStats] resolves with. *)
Record CommentStats := {
  cs_total : Z;
  cs_successful : Z;
  cs_failed : Z;
  cs_successRate : QArith_base.Q }.

(** [targetAccount ? ... : ...]: [undefined] and the empty string are
    falsy, and then the query has no account. *)
Definition accountGiven (account : option string) : option string :=
  match account with
  | Some a => if String.eqb a "" then None else Some a
  | None => None
  end.

(** The query of [getStats]: [{ targetAccount, commentedAt: { $gte } }]
    or [{ commentedAt: { $gte } }]. *)
Definition statsQuery (account : option string) (startDate : Z)
    (d : PostMemoryDoc) : bool :=
  match accountGiven account with
  | Some a =>
      String.eqb (cd_targetAccount (doc_data d)) a && (startDate <=? commentedAt d)
  | None => startDate <=? commentedAt d
  end.

(** [countDocuments(query)]. *)
Definition countWhere (query : PostMemoryDoc -> bool) (l : Ledger) : Z :=
  Z.of_nat (length (List.filter query l)).

(** [.sort({ commentedAt: -1 })]. *)
Definition latestCommentFirst (a b : PostMemoryDoc) : Z :=
  commentedAt b - commentedAt a.

Section PostMemoryQueries.

Variable env : Env.

(** [startDate.setDate(startDate.getDate() - days)]: the arithmetic of
    the local calendar, from an instant and a number of days to the
    instant that many calendar days earlier. *)
Variable setDateBack : Z -> Z -> Z.

(** [PostMemory.getStats].  Other runs may persist documents between
    the two counts. *)
Definition getStats (account : option string) (days : Z) : Promise CommentStats :=
  fun w =>
    let startDate := setDateBack (clock env (history w)) days in
    let query := statsQuery account startDate in
    match storageFault env (history w) with
    | Some e => (Rejected e, w)
    | None =>
        let total := countWhere query (ledger w) in
        let later := otherWriters (racingWrites env (history w)) (ledger w) in
        let successful :=
          countWhere (fun d => query d && cd_wasSuccessful (doc_data d)) later in
        let failed := total - successful in
        let successRate :=
          if 0 <? total
          then QArith_base.Qmult
                 (QArith_base.Qmake successful (Z.to_pos total))
                 (QArith_base.inject_Z 100)
          else QArith_base.inject_Z 0 in
        (Resolved {| cs_total := total; cs_successful := successful;
                     cs_failed := failed; cs_successRate := successRate |},
         {| ledger := later; history := history w |})
    end.

(** [PostMemory.getLastPostTimestamp]: [findOne] of the successful
    documents of the account, latest first, or [null]. *)
Definition getLastPostTimestamp (account : string) : Promise (option Z) :=
  fun w =>
    match storageFault env (history w) with
    | Some e => (Rejected e, w)
    | None =>
        let matching :=
          List.filter
            (fun d => String.eqb (cd_targetAccount (doc_data d)) account
                      && cd_wasSuccessful (doc_data d))
            (ledger w) in
        (Resolved (option_map commentedAt
                     (hd_error (arraySort latestCommentFirst matching))), w)
    end.

(** [SmartCommentService.getStats]: the statistics over all accounts,
    with the period they cover. *)
Definition serviceGetStats (days : Z) : Promise (string * CommentStats) :=
  fun w =>
    match getStats None days w with
    | (Resolved stats, w') => (Resolved ("Last " +:+ pretty days +:+ " days", stats), w')
    | (Rejected e, w') => (Rejected e, w')
    end.

End PostMemoryQueries.

(** The ledger key of a result that reports a comment. *)
Definition commentedKey (r : CommentResult) : option (string * string * string) :=
  match action r, postId r with
  | commented, Some pid => Some ("instagram", targetAccount r, pid)
  | _, _ => None
  end.

Fixpoint commentedKeys (results : list CommentResult)
  : list (string * string * string) :=
  match results with
  | [] => []
  | r :: rest =>
      match commentedKey r with
      | Some k => k :: commentedKeys rest
      | None => commentedKeys rest
      end
  end.

(** Every stored document is marked successful. *)
Definition allSuccessful (l : Ledger) : Prop :=
  Forall (fun d => cd_wasSuccessful (doc_data d) = true) l.

(** The configuration with another caption-length gate. *)
Definition withCaptionLength (cfg : BotConfig) (gate : CaptionLength) : BotConfig :=
  {| target := target cfg;
     timing := timing cfg;
     filtering := {| captionLength := gate;
                     maxPostAge := maxPostAge (filtering cfg);
                     skipDuplicates := skipDuplicates (filtering cfg) |};
     scheduler := scheduler cfg |}.

(** Calendar days taken as 24 hours each, for the examples. *)
Definition plainDays (now days : Z) : Z := now - days * day.

(** The world after the shipped accounts have been processed once. *)
Definition afterOneBatch : World :=
  snd (processTargets calmEnv botConfig (accounts (target botConfig)) emptyWorld).

(** A call of [postComment], whatever its outcome. *)
Definition isSubmission (ev : Event) : bool :=
  match ev with
  | EvPostComment _ _ _ => true
  | _ => false
  end.

(** The shipped configuration with the caption-length gate switched off. *)
Definition botConfigWithoutGate : BotConfig :=
  withCaptionLength botConfig {| cl_enabled := false; cl_min := 0; cl_max := 0 |}.

(** ** src/services/scheduler.ts: status and repeated ticks *)



(** Does this call of [start()] arm the extra run on startup
    ([setTimeout(() => this.runScheduledTask(), 2000)])? *)
Definition startupRunScheduled (cfg : BotConfig) (this : SchedulerService) : bool :=
  enabled (scheduler cfg)
  && match task this with Some _ => false | None => true end
  && runOnStartup (scheduler cfg).

(** [n] invocations of [runScheduledTask], each after the one before it
    has returned. *)
Fixpoint ticks (env : Env) (cfg : BotConfig) (n : nat)
    (this : SchedulerService) (w : World) : SchedulerService * World :=
  match n with
  | O => (this, w)
  | S n' =>
      let '(this', w') := runScheduledTask env cfg this w in
      ticks env cfg n' this' w'
  end.

(** The shipped configuration without target accounts. *)
Definition botConfigNoTargets : BotConfig :=
  {| target := {| accounts := []; maxPostsToInteract := 1 |};
     timing := timing botConfig;
     filtering := filtering botConfig;
     scheduler := scheduler botConfig |}.

(** ** The webhook router: order of the account names *)

(** [a] does not come after [b] in the order [Array.prototype.sort]
    uses. *)
Definition notAfter (a b : string) : Prop := compareStrings a b <= 0.

Fixpoint ascending (l : list string) : Prop :=
  match l with
  | [] => True
  | x :: l' => (forall y, In y l' -> notAfter x y) /\ ascending l'
  end.

(** ** src/client/IG-bot/IgClient.ts: URLs, post ids and delays *)

(** [s.startsWith(p)]. *)
Fixpoint startsWith (p s : string) : bool :=
  match p, s with
  | EmptyString, _ => true
  | String _ _, EmptyString => false
  | String a p', String b s' => Ascii.eqb a b && startsWith p' s'
  end.

(** The URL [postComment] navigates to for its argument: a full URL as
    it is, a relative URL on the site, a bare id as a [/p/] URL. *)
Definition commentUrl (postIdOrUrl : string) : string :=
  if startsWith "http" postIdOrUrl then postIdOrUrl
  else if startsWith "/" postIdOrUrl
       then "https://www.instagram.com" +:+ postIdOrUrl
       else "https://www.instagram.com/p/" +:+ postIdOrUrl +:+ "/".

(** The class [[^\/\?]] of the regular expression. *)
Definition idChar (c : ascii) : bool :=
  negb (Ascii.eqb c "/"%char) && negb (Ascii.eqb c "?"%char).

(** The longest prefix made of characters of the class. *)
Fixpoint takeIdChars (s : string) : string :=
  match s with
  | EmptyString => EmptyString
  | String c s' => if idChar c then String c (takeIdChars s') else EmptyString
  end.

Fixpoint dropChars (n : nat) (s : string) : string :=
  match n, s with
  | O, _ => s
  | S n', String _ s' => dropChars n' s'
  | S _, EmptyString => EmptyString
  end.

(** A match of [/\/(p|reel)\/([^\/\?]+)/] that starts at the first
    character: the two groups. *)
Definition matchPostAt (s : string) : option (string * string) :=
  if startsWith "/p/" s then
    let id := takeIdChars (dropChars 3 s) in
    if String.eqb id "" then None else Some ("p", id)
  else if startsWith "/reel/" s then
    let id := takeIdChars (dropChars 6 s) in
    if String.eqb id "" then None else Some ("reel", id)
  else None.

(** [s.match(/\/(p|reel)\/([^\/\?]+)/)]: the leftmost match. *)
Fixpoint matchPost (s : string) : option (string * string) :=
  match matchPostAt s with
  | Some groups => Some groups
  | None =>
      match s with
      | EmptyString => None
      | String _ s' => matchPost s'
      end
  end.

(** An element of what [getAllPosts] finds on the profile. *)
Record FoundPost := { href : string; fp_isPinned : bool }.

(** [href.startsWith('http') ? href : `https://www.instagram.com${href}`]. *)
Definition absoluteUrl (link : string) : string :=
  if startsWith "http" link then link else "https://www.instagram.com" +:+ link.

(** [contentTypeMatch === 'reel' ? 'reel' : 'image']. *)
Definition typeLabel (group : string) : ContentType :=
  if String.eqb group "reel" then reel else image.

(** One iteration of the loop over [selectedPosts]: the object pushed,
    or [None] when the iteration is abandoned before the push.
    [readTimestamp] stands for the visit of the post's page: the [Date]
    built from the [datetime] attribute of its [time] element, [None] when
    the page, the element or the attribute cannot be had.  An attribute
    that does not parse gives an Invalid Date, and the post is pushed with
    it: the log line that throws on it comes after the push. *)
Definition postWithTimestamp (readTimestamp : string -> option Date)
    (found : FoundPost) : option Post :=
  match matchPost (href found) with
  | None => None
  | Some (group, id) =>
      match readTimestamp (absoluteUrl (href found)) with
      | None => None
      | Some timestamp =>
          Some {| p_postId := id;
                  p_postUrl := absoluteUrl (href found);
                  p_contentType := typeLabel group;
                  p_timestamp := timestamp;
                  p_isPinned := fp_isPinned found |}
      end
  end.

Fixpoint keepSome {A B} (f : A -> option B) (l : list A) : list B :=
  match l with
  | [] => []
  | x :: l' =>
      match f x with
      | Some y => y :: keepSome f l'
      | None => keepSome f l'
      end
  end.

(** What [getLastFourPosts] returns for the links found on the profile:
    [posts.slice(0, 4)], the loop, the sort. *)
Definition lastFourPosts (readTimestamp : string -> option Date)
    (posts : list FoundPost) : list Post :=
  engineSort newestFirst
    (keepSome (postWithTimestamp readTimestamp) (firstn 4 posts)).

(** [randomDelay(min, max)] of the client:
    [Math.floor(Math.random() * (max - min + 1)) + min], in the arithmetic of
    numbers; the result is a whole number. *)
Definition clientRandomDelay (u : Random) (lo hi : Z) : Z :=
  mathFloor
    (fadd (ofZ (mathFloor (fmul (randomValue u)
                                (fadd (fsub (ofZ hi) (ofZ lo)) (ofZ 1)))))
          (ofZ lo)).

(** Two doubles just below 1: [1 - 2^-52] and [1 - 2^-53], the largest
    of all. *)
Definition almostOne52 : Random := {| r_mant := 2 ^ 53 - 2; r_shift := 0 |}.
Definition almostOne53 : Random := {| r_mant := 2 ^ 53 - 1; r_shift := 0 |}.

Fixpoint allChars (f : ascii -> bool) (s : string) : bool :=
  match s with
  | EmptyString => true
  | String c s' => f c && allChars f s'
  end.

(** A post id proper: not empty, without [/] and [?]. *)
Definition plainId (id : string) : Prop :=
  id <> "" /\ allChars idChar id = true.

(** ** src/client/Instagram.ts: the shared client *)

(** The fields of an [IgClient] that its methods test: whether
    [browser] and [page] are set. *)
Record IgClientState := { browser : bool; page : bool }.

(** Where [init] stops. *)
Inductive InitOutcome :=
  | initDone
  | launchFails (e : Error)
  | newPageFails (e : Error)
  | loginFails (e : Error).

(** [IgClient.init] on a new client: [browser] is assigned when the
    launch resolved, [page] when [newPage] resolved. *)
Definition init (o : InitOutcome) : Settled unit * IgClientState :=
  match o with
  | initDone => (Resolved tt, {| browser := true; page := true |})
  | launchFails e => (Rejected e, {| browser := false; page := false |})
  | newPageFails e => (Rejected e, {| browser := true; page := false |})
  | loginFails e => (Rejected e, {| browser := true; page := true |})
  end.

(** [IgClient.close]: [closing] is the outcome of [browser.close()]. *)
Definition close (closing : Settled unit) (c : IgClientState)
    : Settled unit * IgClientState :=
  if browser c then
    match closing with
    | Resolved _ => (Resolved tt, {| browser := false; page := false |})
    | Rejected e => (Rejected e, c)
    end
  else (Resolved tt, c).

(** The guard at the top of [getLastFourPosts], [getPostDetails] and
    [postComment]. *)
Definition pageGuard (c : IgClientState) : option Error :=
  if page c then None else Some (mkError "Page not initialized").

(** The module variable [igClient], and how many clients have been
    constructed and initialised so far. *)
Record InstagramModule := { cachedClient : option IgClientState; launches : nat }.

(** [getIgClient]: the variable is assigned before [init] is awaited.
    [outcomes n] is how the [n]-th initialisation ends. *)
Definition getIgClient (outcomes : nat -> InitOutcome) (m : InstagramModule)
    : Settled IgClientState * InstagramModule :=
  match cachedClient m with
  | Some c => (Resolved c, m)
  | None =>
      let (r, c) := init (outcomes (launches m)) in
      let m' := {| cachedClient := Some c; launches := S (launches m) |} in
      match r with
      | Resolved _ => (Resolved c, m')
      | Rejected e => (Rejected e, m')
      end
  end.

(** [closeIgClient]. *)
Definition closeIgClient (closing : Settled unit) (m : InstagramModule)
    : Settled unit * InstagramModule :=
  match cachedClient m with
  | None => (Resolved tt, m)
  | Some c =>
      let (r, c') := close closing c in
      match r with
      | Resolved _ => (Resolved tt, {| cachedClient := None; launches := launches m |})
      | Rejected e => (Rejected e, {| cachedClient := Some c'; launches := launches m |})
      end
  end.

(** [n] calls of [getIgClient] in a row. *)
Fixpoint getIgClientTimes (outcomes : nat -> InitOutcome) (n : nat)
    (m : InstagramModule) : InstagramModule :=
  match n with
  | O => m
  | S n' => getIgClientTimes outcomes n' (snd (getIgClient outcomes m))
  end.

(** ** src/services/openrouter.ts *)

(** [String.prototype.trim]. *)
Fixpoint trimStart (s : string) : string :=
  match s with
  | EmptyString => EmptyString
  | String c s' => if isWhiteSpace c then trimStart s' else s
  end.

Fixpoint trimEnd (s : string) : string :=
  match s with
  | EmptyString => EmptyString
  | String c s' =>
      match trimEnd s' with
      | EmptyString => if isWhiteSpace c then EmptyString else String c EmptyString
      | rest => String c rest
      end
  end.

Definition trim (s : string) : string := trimEnd (trimStart s).

(** The replacement text of [String.prototype.replace] for a string
    pattern: [$$], [$&], [$`] and [$'] are expanded, everything else is
    literal (there are no captures). *)
Fixpoint getSubstitution (matched before after replacement : string) : string :=
  match replacement with
  | EmptyString => EmptyString
  | String c r =>
      if Ascii.eqb c "$"%char then
        match r with
        | EmptyString => String c EmptyString
        | String d r' =>
            if Ascii.eqb d "$"%char
            then String "$"%char (getSubstitution matched before after r')
            else if Ascii.eqb d "&"%char
            then matched +:+ getSubstitution matched before after r'
            else if Ascii.eqb d "`"%char
            then before +:+ getSubstitution matched before after r'
            else if Ascii.eqb d "'"%char
            then after +:+ getSubstitution matched before after r'
            else String c (getSubstitution matched before after r)
        end
      else String c (getSubstitution matched before after r)
  end.

(** The search for the first occurrence, [before] being what has been
    passed. *)
Fixpoint replaceFrom (pattern replacement before s : string) : string :=
  if startsWith pattern s then
    let after := dropChars (String.length pattern) s in
    before +:+ getSubstitution pattern before after replacement +:+ after
  else
    match s with
    | EmptyString => before
    | String c s' => replaceFrom pattern replacement (before +:+ String c EmptyString) s'
    end.

(** [s.replace(pattern, replacement)] for strings. *)
Definition replace (s pattern replacement : string) : string :=
  replaceFrom pattern replacement "" s.

(** [s.includes(pattern)]. *)
Fixpoint includes (pattern s : string) : bool :=
  startsWith pattern s
  || match s with
     | EmptyString => false
     | String _ s' => includes pattern s'
     end.

(** [botConfig.ai.prompts.user]. *)
Definition promptsUser : string :=
  "Your task is to act as an authentic human user commenting on an Instagram post. Analyze the INPUT POST CAPTION and ensure the generated response matches the overall sentiment and subject matter of the post's tone. The comment must be specific to the content, referring directly to a detail or feature mentioned, and should be concise, aiming for a length between 50 and 80 characters (1-2 sentences). Crucially, the final comment must strictly adhere to the style constraint: do NOT include any hashtags (#) or emojis. Your output should contain ONLY the text of the comment itself, without any quotes, prefixes, or extraneous formatting.".

Module OpenRouter.

(** The text part of a vision request: the instruction that quotes the
    caption, or the one for a post without caption. *)
Inductive Instruction :=
  | captionAndVisual (caption : string)
  | visualOnly.

(** The [content] of the user message: a string, or parts. *)
Inductive UserContent :=
  | plainText (prompt : string)
  | contentParts (instruction : Instruction) (images : list string).

(** The messages of a request: the system message, when there is one,
    and the user message. *)
Record ChatRequest := { rq_system : option string; rq_user : UserContent }.

(** What is read of a response: [data.choices[0]?.message?.content] and
    [data.usage?.total_tokens], [data.choices] being an array. *)
Record Reply := { rp_content : option string; rp_totalTokens : option Z }.

(** A rejected [axios.post]: with [error.response] (the API's
    [data.error?.message] and the [statusText]) or without. *)
Inductive AxiosFailure :=
  | withResponse (apiMessage : option string) (statusText : string)
  | withoutResponse (e : Error).

(** [axios.post] on the completions endpoint; the first argument counts
    the requests sent before. *)
Definition Transport := nat -> ChatRequest -> AxiosFailure + Reply.

(** An action of the service: the requests sent so far are threaded. *)
Definition Api (A : Type) := list ChatRequest -> Settled A * list ChatRequest.

(** [a || b] on strings, [a] possibly undefined. *)
Definition orElse (a : option string) (b : string) : string :=
  match a with
  | Some (String c r) => String c r
  | _ => b
  end.

(** From the response to the returned text: the content check, the log
    line that reads [usage.total_tokens], the trim. *)
Definition readContent (noContent : string) (reply : Reply) : Settled string :=
  match rp_content reply with
  | Some (String c r) =>
      match rp_totalTokens reply with
      | Some _ => Resolved (trim (String c r))
      | None => Rejected (mkError "Cannot read properties of undefined (reading 'total_tokens')")
      end
  | _ => Rejected (mkError noContent)
  end.

Section Service.

Variable post : Transport.
(** [botConfig.ai.prompts.system] and [botConfig.ai.prompts.user]. *)
Variable systemPrompt : string.
Variable userTemplate : string.

Definition textRequest (prompt system : string) : ChatRequest :=
  {| rq_system := if String.eqb system "" then None else Some system;
     rq_user := plainText prompt |}.

(** [generateText]. *)
Definition generateText (prompt system : string) : Api string :=
  fun sent =>
    let request := textRequest prompt system in
    (match post (length sent) request with
     | inr reply => readContent "No content returned from OpenRouter" reply
     | inl (withResponse apiMessage statusText) =>
         Rejected (mkError ("OpenRouter API error: " +:+ orElse apiMessage statusText))
     | inl (withoutResponse e) => Rejected e
     end,
     sent ++ [request]).

Definition visionRequest (caption : string) (image : option string)
    (frames : option (list string)) : ChatRequest :=
  {| rq_system := Some systemPrompt;
     rq_user :=
       contentParts
         (if String.eqb caption "" then visualOnly else captionAndVisual caption)
         (match image with
          | Some (String c r) => [String c r]
          | _ =>
              match frames with
              | Some fs => firstn 3 fs
              | None => []
              end
          end) |}.

(** [generateCommentWithVision]: whatever the [try] block throws, the
    text-only request follows. *)
Definition generateCommentWithVision (caption : string) (image : option string)
    (frames : option (list string)) : Api string :=
  fun sent =>
    let request := visionRequest caption image frames in
    let fallback :=
      generateText (replace userTemplate "{caption}" (orElse (Some caption) "No caption"))
                   systemPrompt (sent ++ [request]) in
    match post (length sent) request with
    | inr reply =>
        match readContent "No content returned from OpenRouter vision API" reply with
        | Resolved text => (Resolved text, sent ++ [request])
        | Rejected _ => fallback
        end
    | inl _ => fallback
    end.

(** The test [imageBase64 || (videoFramesBase64 && videoFramesBase64.length > 0)]. *)
Definition hasVisual (image : option string) (frames : option (list string)) : bool :=
  match image, frames with
  | Some (String _ _), _ => true
  | _, Some (_ :: _) => true
  | _, _ => false
  end.

(** [generateInstagramComment]. *)
Definition generateInstagramComment (caption : string) (image : option string)
    (frames : option (list string)) : Api string :=
  if hasVisual image frames
  then generateCommentWithVision caption image frames
  else generateText (replace userTemplate "{caption}" caption) systemPrompt.

End Service.



End OpenRouter.

(** ** src/app.ts: the manual run of the configured accounts *)






(** ** Lemmas on the sort *)

Section Sorting.

Context {A : Type} (compare : A -> A -> Z).

Lemma In_insertSorted x y l :
  In x (insertSorted compare y l) <-> x = y \/ In x l.
Proof.
  induction l as [|z l IH]; simpl.
  - intuition congruence.
  - destruct (compare y z <=? 0); simpl; [intuition congruence|].
    rewrite IH. intuition congruence.
Qed.

Lemma In_arraySort x l : In x (arraySort compare l) <-> In x l.
Proof.
  induction l as [|y l IH]; simpl; [tauto|].
  rewrite In_insertSorted, IH. intuition congruence.
Qed.

Lemma Forall_arraySort (P : A -> Prop) l :
  Forall P l -> Forall P (arraySort compare l).
Proof.
  rewrite !List.Forall_forall. intros H x Hx. apply H.
  now apply In_arraySort.
Qed.

End Sorting.

Section EngineSortFacts.

Context {A : Type} (compare : A -> A -> Z).

Lemma binaryInsert_Permutation sorted pivot :
  Permutation (binaryInsert compare sorted pivot) (pivot :: sorted).
Proof.
  unfold binaryInsert.
  set (place := insertionPoint compare (length sorted) pivot sorted).
  rewrite <- Permutation_middle. constructor.
  now rewrite firstn_skipn.
Qed.

Lemma fold_binaryInsert_Permutation rest :
  forall sorted,
    Permutation (fold_left (binaryInsert compare) rest sorted) (sorted ++ rest).
Proof.
  induction rest as [|x rest IH]; intros sorted; simpl.
  - now rewrite app_nil_r.
  - rewrite IH, binaryInsert_Permutation.
    now rewrite (Permutation_middle sorted rest x).
Qed.

Lemma engineSort_Permutation l : Permutation (engineSort compare l) l.
Proof.
  unfold engineSort. destruct (countRun compare l) as [n descending].
  rewrite fold_binaryInsert_Permutation.
  transitivity (firstn n l ++ skipn n l); [|now rewrite firstn_skipn].
  apply Permutation_app_tail.
  destruct descending; [symmetry; apply Permutation_rev|reflexivity].
Qed.

Lemma In_engineSort x l : In x (engineSort compare l) <-> In x l.
Proof.
  split; apply Permutation_in; [|symmetry]; apply engineSort_Permutation.
Qed.

Lemma Forall_engineSort (Q : A -> Prop) l :
  Forall Q l -> Forall Q (engineSort compare l).
Proof.
  rewrite !List.Forall_forall. intros H x Hx. apply H.
  now apply In_engineSort.
Qed.

Lemma insertionPoint_within pivot :
  forall fuel window,
    (insertionPoint compare fuel pivot window <= length window)%nat.
Proof.
  induction fuel as [|fuel IH]; intros window; cbn [insertionPoint]; [lia|].
  destruct (nth_error window (Nat.div2 (length window))) as [x|] eqn:E; [|lia].
  assert (Hmid : (Nat.div2 (length window) < length window)%nat)
    by (apply nth_error_Some; congruence).
  destruct (compare pivot x <? 0).
  - specialize (IH (firstn (Nat.div2 (length window)) window)).
    rewrite length_firstn in IH. lia.
  - specialize (IH (skipn (S (Nat.div2 (length window))) window)).
    rewrite length_skipn in IH. lia.
Qed.

End EngineSortFacts.

Lemma notLater_trans z y x : notLater z y -> notLater y x -> notLater z x.
Proof.
  unfold notLater.
  destruct (p_timestamp z), (p_timestamp y), (p_timestamp x); try tauto; lia.
Qed.

Lemma notLater_refl x : validTimestamp x -> notLater x x.
Proof.
  unfold validTimestamp, notLater. destruct (p_timestamp x); [lia|congruence].
Qed.

(** What a comparison says about two posts with valid dates. *)
Lemma newestFirst_negative x y :
  validTimestamp x -> validTimestamp y ->
  if newestFirst x y <? 0 then notLater y x else notLater x y.
Proof.
  unfold validTimestamp, newestFirst, notLater.
  destruct (p_timestamp x), (p_timestamp y); try congruence. intros _ _.
  match goal with
  | |- context [?a <? 0] =>
      destruct (a <? 0) eqn:E; [apply Z.ltb_lt in E|apply Z.ltb_ge in E]; lia
  end.
Qed.

Lemma newestFirstOrder_app l1 l2 :
  newestFirstOrder (l1 ++ l2)
  <-> newestFirstOrder l1 /\ newestFirstOrder l2
      /\ forall x y, In x l1 -> In y l2 -> notLater y x.
Proof.
  induction l1 as [|a l1 IH]; simpl.
  - intuition.
  - rewrite IH. split.
    + intros (Ha & H1 & H2 & H12). repeat split; auto.
      * intros y Hy. apply Ha, in_or_app. auto.
      * intros x y [<-|Hx] Hy; [apply Ha, in_or_app; auto|auto].
    + intros ((Ha & H1) & H2 & H12). repeat split; auto.
      intros y Hy. apply in_app_or in Hy as [Hy|Hy]; auto.
Qed.

(** The place the binary search finds in an ordered window: everything
    before it is not older than the pivot, everything from it on is not
    newer. *)
Lemma insertionPoint_spec pivot :
  validTimestamp pivot ->
  forall fuel window,
    (length window <= fuel)%nat ->
    Forall validTimestamp window ->
    newestFirstOrder window ->
    (forall e, In e (firstn (insertionPoint newestFirst fuel pivot window) window) ->
               notLater pivot e)
    /\ (forall e, In e (skipn (insertionPoint newestFirst fuel pivot window) window) ->
                  notLater e pivot).
Proof.
  intros Hpivot. induction fuel as [|fuel IH]; intros window Hlen Hvalid Hsorted.
  - destruct window; [|simpl in Hlen; lia]. simpl. split; intros e [].
  - cbn [insertionPoint].
    set (mid := Nat.div2 (length window)).
    destruct (nth_error window mid) as [element|] eqn:Hmid.
    2:{ apply nth_error_None in Hmid.
        destruct window as [|a window]; [simpl; split; intros e []|].
        exfalso. subst mid.
        pose proof (Nat.lt_div2 (length (a :: window)) ltac:(simpl; lia)). lia. }
    pose proof (nth_error_split window mid Hmid) as (before & after & Hsplit & Hbefore).
    assert (Hfirst : firstn mid window = before).
    { rewrite Hsplit, <- Hbefore, firstn_app, Nat.sub_diag, firstn_all.
      simpl. now rewrite app_nil_r. }
    assert (Hskip : skipn (S mid) window = after).
    { rewrite Hsplit, <- Hbefore.
      change (before ++ element :: after) with (before ++ [element] ++ after).
      rewrite app_assoc.
      replace (S (length before)) with (length (before ++ [element]))
        by (rewrite length_app; simpl; lia).
      now rewrite skipn_app, Nat.sub_diag, skipn_all. }
    rewrite Hfirst, Hskip.
    rewrite Hsplit in Hsorted, Hvalid, Hlen. rewrite Hsplit.
    apply newestFirstOrder_app in Hsorted as (Hb & Hea & Hcross).
    destruct Hea as [Hafter Ha].
    apply List.Forall_app in Hvalid as [Hvb Hva].
    apply List.Forall_cons_iff in Hva as [Hve Hva].
    rewrite length_app in Hlen. simpl in Hlen.
    pose proof (newestFirst_negative pivot element Hpivot Hve) as Hcmp.
    destruct (newestFirst pivot element <? 0).
    + destruct (IH before ltac:(lia) Hvb Hb) as [H1 H2].
      pose proof (insertionPoint_within newestFirst pivot fuel before) as Hplace.
      set (place := insertionPoint newestFirst fuel pivot before) in *.
      split.
      * intros e He. rewrite firstn_app in He.
        replace (place - length before)%nat with O in He by lia.
        simpl in He. rewrite app_nil_r in He. auto.
      * intros e He. rewrite skipn_app in He.
        replace (place - length before)%nat with O in He by lia.
        simpl in He. apply in_app_or in He as [He|[<-|He]]; auto.
        apply (notLater_trans _ element); auto.
    + destruct (IH after ltac:(lia) Hva Ha) as [H1 H2].
      set (place := insertionPoint newestFirst fuel pivot after) in *.
      replace (S (mid + place)) with (length (before ++ [element]) + place)%nat
        by (rewrite length_app; simpl; lia).
      change (before ++ element :: after) with (before ++ [element] ++ after).
      rewrite app_assoc. split.
      * intros e He. rewrite firstn_app_2 in He.
        apply in_app_or in He as [He|He]; [|auto].
        apply in_app_or in He as [He|[<-|[]]]; [|exact Hcmp].
        apply (notLater_trans _ element); [exact Hcmp|].
        apply Hcross; [exact He|now left].
      * intros e He. rewrite skipn_app in He.
        rewrite skipn_all2 in He by lia. simpl in He.
        replace (length (before ++ [element]) + place - length (before ++ [element]))%nat
          with place in He by lia.
        auto.
Qed.

Lemma binaryInsert_ordered sorted pivot :
  validTimestamp pivot -> Forall validTimestamp sorted ->
  newestFirstOrder sorted ->
  newestFirstOrder (binaryInsert newestFirst sorted pivot).
Proof.
  intros Hpivot Hvalid Hsorted. unfold binaryInsert.
  destruct (insertionPoint_spec pivot Hpivot (length sorted) sorted
              (Nat.le_refl _) Hvalid Hsorted) as [H1 H2].
  set (place := insertionPoint newestFirst (length sorted) pivot sorted) in *.
  rewrite <- (firstn_skipn place sorted) in Hsorted.
  apply newestFirstOrder_app in Hsorted as (Hf & Hs & Hcross).
  apply newestFirstOrder_app. split; [exact Hf|]. split.
  - simpl. auto.
  - intros x y Hx [<-|Hy]; auto.
Qed.

Lemma fold_binaryInsert_ordered rest :
  forall sorted,
    Forall validTimestamp rest -> Forall validTimestamp sorted ->
    newestFirstOrder sorted ->
    newestFirstOrder (fold_left (binaryInsert newestFirst) rest sorted).
Proof.
  induction rest as [|x rest IH]; intros sorted Hrest Hvalid Hsorted; simpl;
    [exact Hsorted|].
  apply List.Forall_cons_iff in Hrest as [Hx Hrest].
  apply IH; [exact Hrest| |now apply binaryInsert_ordered].
  rewrite List.Forall_forall in *. intros y Hy.
  apply (Permutation_in _ (binaryInsert_Permutation newestFirst sorted x)) in Hy.
  destruct Hy as [<-|Hy]; auto.
Qed.

(** A run that is not descending is in order as it stands. *)
Lemma run_ascending rest :
  forall previous,
    validTimestamp previous -> Forall validTimestamp rest ->
    newestFirstOrder
      (previous :: firstn (runRest newestFirst false previous rest) rest).
Proof.
  induction rest as [|current rest IH]; intros previous Hp Hrest.
  - simpl. split; [intros y []|exact I].
  - apply List.Forall_cons_iff in Hrest as [Hc Hrest]. cbn [runRest].
    pose proof (newestFirst_negative current previous Hc Hp) as Hcmp.
    destruct (newestFirst current previous <? 0).
    + simpl. split; [intros y []|exact I].
    + specialize (IH current Hc Hrest). cbn [firstn].
      split; [|exact IH].
      intros y [<-|Hy]; [exact Hcmp|].
      apply (notLater_trans _ current); [|exact Hcmp].
      destruct IH as [Hhead _]. auto.
Qed.

(** A strictly descending run is in order once reversed. *)
Lemma run_descending rest :
  forall previous,
    validTimestamp previous -> Forall validTimestamp rest ->
    newestFirstOrder
      (rev (previous :: firstn (runRest newestFirst true previous rest) rest))
    /\ forall x, In x (previous
                       :: firstn (runRest newestFirst true previous rest) rest) ->
                 notLater previous x.
Proof.
  induction rest as [|current rest IH]; intros previous Hp Hrest.
  - simpl. split; [split; [intros y []|exact I]|].
    intros x [<-|[]]. now apply notLater_refl.
  - apply List.Forall_cons_iff in Hrest as [Hc Hrest]. cbn [runRest].
    pose proof (newestFirst_negative current previous Hc Hp) as Hcmp.
    destruct (Z.leb_spec 0 (newestFirst current previous)) as [Hge|Hlt].
    + simpl. split; [split; [intros y []|exact I]|].
      intros x [<-|[]]. now apply notLater_refl.
    + assert (E : (newestFirst current previous <? 0) = true) by (apply Z.ltb_lt; lia).
      rewrite E in Hcmp.
      destruct (IH current Hc Hrest) as [Hrev Hall]. cbn [firstn].
      assert (Hprev : forall x,
                In x (previous
                      :: current :: firstn (runRest newestFirst true current rest) rest) ->
                notLater previous x).
      { intros x [<-|Hx]; [now apply notLater_refl|].
        apply (notLater_trans _ current); [exact Hcmp|auto]. }
      split; [|exact Hprev].
      change (rev (previous :: ?l)) with (rev l ++ [previous]).
      apply newestFirstOrder_app. split; [exact Hrev|].
      split; [split; [intros y []|exact I]|].
      intros x y Hx [<-|[]]. apply Hprev. right. now apply in_rev.
Qed.

(** With valid dates only, the sort leaves the posts newest first. *)
Lemma newestFirstOrder_engineSort l :
  Forall validTimestamp l -> newestFirstOrder (engineSort newestFirst l).
Proof.
  intros Hvalid. unfold engineSort.
  destruct l as [|low [|high rest]].
  - simpl. exact I.
  - simpl. split; [intros y []|exact I].
  - cbn [countRun].
    assert (Hrest : Forall validTimestamp
                      (skipn (S (S (runRest newestFirst
                                      (newestFirst high low <? 0) high rest)))
                             (low :: high :: rest))).
    { rewrite List.Forall_forall in *. intros x Hx. apply Hvalid.
      rewrite <- (firstn_skipn (S (S (runRest newestFirst
                                       (newestFirst high low <? 0) high rest)))
                   (low :: high :: rest)).
      apply in_or_app. now right. }
    assert (Hrun : Forall validTimestamp
                      (firstn (S (S (runRest newestFirst
                                      (newestFirst high low <? 0) high rest)))
                             (low :: high :: rest))).
    { rewrite List.Forall_forall in *. intros x Hx. apply Hvalid.
      rewrite <- (firstn_skipn (S (S (runRest newestFirst
                                       (newestFirst high low <? 0) high rest)))
                   (low :: high :: rest)).
      apply in_or_app. now left. }
    apply List.Forall_cons_iff in Hvalid as [Hlow Hvalid].
    pose proof Hvalid as Hhr.
    apply List.Forall_cons_iff in Hvalid as [Hhigh Hvalid].
    destruct (newestFirst high low <? 0) eqn:E.
    + apply fold_binaryInsert_ordered; [exact Hrest| |].
      * rewrite List.Forall_forall in *. intros x Hx. apply Hrun. now apply in_rev.
      * pose proof (run_descending (high :: rest) low Hlow Hhr) as [Hrev _].
        cbn [runRest] in Hrev.
        destruct (Z.leb_spec 0 (newestFirst high low)) as [Hge|_];
          [apply Z.ltb_lt in E; lia|].
        exact Hrev.
    + apply fold_binaryInsert_ordered; [exact Hrest|exact Hrun|].
      pose proof (run_ascending (high :: rest) low Hlow Hhr) as Hasc.
      cbn [runRest] in Hasc. rewrite E in Hasc. exact Hasc.
Qed.

(** With valid dates only, what [getLastFourPosts] returns is newest
    first. *)
Lemma newestFirstOrder_sorted l :
  Forall validTimestamp (engineSort newestFirst l) ->
  newestFirstOrder (engineSort newestFirst l).
Proof.
  intros Hvalid. apply newestFirstOrder_engineSort.
  rewrite List.Forall_forall in *. intros x Hx. apply Hvalid.
  now apply In_engineSort.
Qed.

Lemma newestFirstOrder_filter f l :
  newestFirstOrder l -> newestFirstOrder (List.filter f l).
Proof.
  induction l as [|x l IH]; simpl; [auto|].
  intros [Hx Hl]. destruct (f x); simpl; auto.
  split; auto. intros y Hy. apply List.filter_In in Hy as [Hy _]. auto.
Qed.

(** The first element of a filtered, ordered list is a newest one among
    the elements that pass the filter. *)
Lemma head_of_filtered_is_newest f l p :
  Forall validTimestamp l ->
  newestFirstOrder l ->
  hd_error (List.filter f l) = Some p ->
  In p l /\ f p = true /\
  forall q, In q l -> f q = true -> notLater q p.
Proof.
  intros Hvalid Hs Hhd.
  assert (Hin : In p (List.filter f l)).
  { destruct (List.filter f l); simpl in Hhd; [discriminate|].
    injection Hhd as ->. now left. }
  apply List.filter_In in Hin as [Hin Hf]. repeat split; auto.
  intros q Hq Hfq.
  assert (Hq' : In q (List.filter f l)) by (apply List.filter_In; auto).
  apply (newestFirstOrder_filter f) in Hs.
  destruct (List.filter f l) as [|x r]; simpl in *; [discriminate|].
  injection Hhd as ->. destruct Hs as [Hx _].
  destruct Hq' as [->|Hq']; [|auto].
  rewrite List.Forall_forall in Hvalid. specialize (Hvalid q Hq).
  unfold validTimestamp in Hvalid. unfold notLater.
  destruct (p_timestamp q); [lia|contradiction].
Qed.

(** ** Lemmas on the pipeline *)

Lemma history_log ev w : history (log ev w) = history w ++ [ev].
Proof. reflexivity. Qed.

Lemma ledger_log ev w : ledger (log ev w) = ledger w.
Proof. reflexivity. Qed.

Lemma insertOne_cases indexes l d :
  (insertOne indexes l d = (Rejected duplicateKeyError, l)
   /\ existsb (violates l d) indexes = true)
  \/ (insertOne indexes l d = (Resolved d, l ++ [d])
      /\ existsb (violates l d) indexes = false).
Proof.
  unfold insertOne. destruct (existsb (violates l d) indexes); auto.
Qed.

Arguments insertOne : simpl never.

Section PipelineFacts.

Variable env : Env.
Variable cfg : BotConfig.

(** The loop of step 2 only reads the ledger, only calls
    [hasCommented], never returns from the function, and when it ends
    normally it has kept exactly the posts that pass both filters, in
    the order it met them. *)
Lemma collectEligible_run account now posts :
  forall eligiblePosts w,
  exists tr,
    Forall (fun ev => afterSelection ev = false) tr /\
    ledger (snd (collectEligible env cfg (R:=CommentResult) account now posts eligiblePosts w))
      = ledger w /\
    history (snd (collectEligible env cfg (R:=CommentResult) account now posts eligiblePosts w))
      = history w ++ tr /\
    match fst (collectEligible env cfg (R:=CommentResult) account now posts eligiblePosts w) with
    | Next el =>
        el = eligiblePosts
             ++ List.filter (survives cfg now (ledger w) account) posts
    | Return _ => False
    | Throw _ => True
    end.
Proof.
  induction posts as [|post rest IH]; intros acc w; simpl.
  - exists []. rewrite !app_nil_r. auto.
  - unfold survives at 1. destruct (tooOld cfg now post) eqn:Eold; simpl.
    + apply IH.
    + unfold bind, await, hasCommented.
      destruct (storageFault env (history w)) as [e|] eqn:Efault; simpl.
      * eexists. split; [|split; [reflexivity|split; [reflexivity|exact I]]].
        repeat constructor.
      * set (ev := EvHasCommented account (p_postId post) _).
        destruct (0 <? countDocuments (ledger w) "instagram" account (p_postId post));
          simpl.
        -- destruct (IH acc (log ev w)) as (tr & Htr & Hl & Hh & Hfl).
           exists (ev :: tr). rewrite Hl, Hh. simpl.
           rewrite <- app_assoc. repeat split; auto.
        -- destruct (IH (acc ++ [post]) (log ev w)) as (tr & Htr & Hl & Hh & Hfl).
           exists (ev :: tr). rewrite Hl, Hh. simpl.
           rewrite <- app_assoc. repeat split; auto.
           destruct (fst _); auto. rewrite Hfl, <- app_assoc. reflexivity.
Qed.

Arguments collectEligible : simpl never.

(** Steps 1 to 4. *)
Lemma selectLatestEligible_run account w :
  exists tr,
    Forall (fun ev => afterSelection ev = false) tr /\
    ledger (snd (selectLatestEligible env cfg account w)) = ledger w /\
    history (snd (selectLatestEligible env cfg account w)) = history w ++ tr /\
    match fst (selectLatestEligible env cfg account w) with
    | Next latest =>
        exists candidates now,
          In (EvGetLastFourPosts account (Resolved candidates)) tr /\
          In (EvNow now) tr /\
          (Forall validTimestamp candidates -> newestFirstOrder candidates) /\
          hd_error (List.filter (survives cfg now (ledger w) account) candidates)
            = Some latest
    | Return r =>
        action r = skipped /\ success r = true /\ targetAccount r = account
    | Throw _ => True
    end.
Proof.
  unfold selectLatestEligible, bind, await, oracle, getLastFourPosts, newDate.
  destruct (igClient env (history w)) as [[]|e]; simpl.
  2:{ eexists. split; [|split; [reflexivity|split; [reflexivity|exact I]]].
      repeat constructor. }
  match goal with
  | |- context [scrapePosts env ?h account] =>
      destruct (scrapePosts env h account) as [raw|e]; simpl
  end.
  2:{ eexists. split; [|split; [reflexivity|split; [rewrite <- app_assoc; reflexivity|exact I]]].
      repeat constructor. }
  assert (Hsorted : Forall validTimestamp (engineSort newestFirst raw) ->
                    newestFirstOrder (engineSort newestFirst raw))
    by apply newestFirstOrder_sorted.
  destruct (engineSort newestFirst raw) as [|c0 cs]; simpl.
  { eexists. split; [|split; [reflexivity|split; [rewrite <- app_assoc; reflexivity|auto]]].
    repeat constructor. }
  match goal with
  | |- context [collectEligible env cfg account ?t ?ps [] ?w0] =>
      set (w3 := w0); set (now := t);
      destruct (collectEligible_run account now ps [] w3)
        as (tr & Htr & Hl & Hh & Hfl);
      destruct (collectEligible env cfg account now ps [] w3) as [fl w4]
  end.
  simpl in Hl, Hh, Hfl.
  exists ([EvGetIgClient (Resolved tt);
           EvGetLastFourPosts account (Resolved (c0 :: cs));
           EvNow now] ++ tr).
  assert (Hpre : Forall (fun ev => afterSelection ev = false)
                   ([EvGetIgClient (Resolved tt);
                     EvGetLastFourPosts account (Resolved (c0 :: cs));
                     EvNow now] ++ tr))
    by (repeat constructor; exact Htr).
  assert (Hhist : history w4
                  = history w ++ [EvGetIgClient (Resolved tt);
                       EvGetLastFourPosts account (Resolved (c0 :: cs));
                       EvNow now] ++ tr)
    by (rewrite Hh; subst w3 now; simpl; rewrite <- !app_assoc; reflexivity).
  destruct fl as [el| |e]; [|contradiction|].
  - destruct el as [|latest more]; simpl.
    + repeat split; auto.
    + destruct (p_timestamp latest); simpl; [|repeat split; auto].
      repeat split; auto.
      exists (c0 :: cs), now.
      split; [simpl; tauto|]. split; [simpl; tauto|].
      split; [exact Hsorted|]. simpl. rewrite <- Hfl. reflexivity.
  - simpl. repeat split; auto.
Qed.

(** Steps 5 to 8 do one of the eight things of [EngageRun]. *)
Lemma engage_run account latest w :
  exists tr,
    EngageRun account latest (ledger w)
      (fst (engage env account latest w))
      (ledger (snd (engage env account latest w))) tr /\
    history (snd (engage env account latest w)) = history w ++ tr.
Proof.
  unfold engage, bind, await, oracle, contended, recordComment.
  destruct (postDetails env (history w) (p_postUrl latest)) as [[d|]|e]; simpl.
  2:{ eexists; split; [apply run_noDetails|reflexivity]. }
  2:{ eexists; split; [apply run_detailsThrew|reflexivity]. }
  match goal with
  | |- context [generateInstagramComment env ?h ?a ?b ?c] =>
      destruct (generateInstagramComment env h a b c) as [text|e]; simpl
  end.
  2:{ eexists; split; [apply run_generateThrew|rewrite <- app_assoc; reflexivity]. }
  destruct (String.eqb text "") eqn:Etext; simpl.
  { apply String.eqb_eq in Etext. subst text.
    eexists; split; [apply run_generateEmpty|rewrite <- app_assoc; reflexivity]. }
  match goal with
  | |- context [postComment env ?h ?a ?b] =>
      destruct (postComment env h a b) as [[]|e]; simpl
  end.
  2:{ eexists; split; [apply run_submitThrew; exact Etext
                      |rewrite <- !app_assoc; reflexivity]. }
  match goal with
  | |- context [storageFault env ?h] =>
      destruct (storageFault env h) as [e|]
  end.
  { simpl. eexists; split; [apply run_storageFault; exact Etext
                           |rewrite <- !app_assoc; reflexivity]. }
  match goal with
  | |- context [insertOne ?ixs ?l ?doc] =>
      destruct (insertOne_cases ixs l doc) as [[-> Edup]|[-> Edup]]
  end; simpl.
  - eexists; split; [eapply run_conflict; [exact Etext| |exact Edup]; reflexivity
                    |rewrite <- !app_assoc; reflexivity].
  - eexists; split; [eapply run_recorded; [exact Etext| |exact Edup]; reflexivity
                    |rewrite <- !app_assoc; reflexivity].
Qed.

(** The whole of [commentOnLatestPost]: its promise always resolves;
    the run either ends within steps 1 to 4, leaving the ledger alone,
    or goes on with the first post that passes the filters. *)
Lemma commentOnLatestPost_run account w :
  exists res w' trSel,
    commentOnLatestPost env cfg account w = (Resolved res, w') /\
    Forall (fun ev => afterSelection ev = false) trSel /\
    ((ledger w' = ledger w /\ history w' = history w ++ trSel /\
      ((action res = skipped /\ success res = true /\ targetAccount res = account)
       \/ exists e, res = failedResult account e))
     \/
     (exists latest candidates now fl trEng,
        In (EvGetLastFourPosts account (Resolved candidates)) trSel /\
        In (EvNow now) trSel /\
        (Forall validTimestamp candidates -> newestFirstOrder candidates) /\
        hd_error (List.filter (survives cfg now (ledger w) account) candidates)
          = Some latest /\
        EngageRun account latest (ledger w) fl (ledger w') trEng /\
        history w' = history w ++ trSel ++ trEng /\
        res = settle account fl)).
Proof.
  unfold commentOnLatestPost, tryCatch, tryBlock, bind.
  destruct (selectLatestEligible_run account w) as (trSel & Hpre & Hl & Hh & Hfl).
  destruct (selectLatestEligible env cfg account w) as [fl w1].
  simpl in Hl, Hh, Hfl.
  destruct fl as [latest|r|e].
  - destruct Hfl as (cands & now & Hc & Hn & Hs & Hhd).
    destruct (engage_run account latest w1) as (trEng & Hrun & Hh2).
    destruct (engage env account latest w1) as [fl2 w2].
    simpl in Hrun, Hh2. rewrite Hl in Hrun.
    exists (settle account fl2), w2, trSel.
    split; [destruct fl2; reflexivity|]. split; [exact Hpre|].
    right. exists latest, cands, now, fl2, trEng.
    rewrite Hh2, Hh, <- app_assoc. repeat split; auto.
  - exists r, w1, trSel. repeat split; auto.
  - exists (failedResult account e), w1, trSel. simpl.
    repeat split; auto. left. repeat split; auto. right. now exists e.
Qed.

End PipelineFacts.

(** ** Examples: the runs behave as the source does *)

Example calm_run_comments_on_newest :
  exists w',
    commentOnLatestPost calmEnv botConfig "lifebytosin" emptyWorld
    = (Resolved (commentedResult "lifebytosin" postHalfDay (someDetails postHalfDay)
                   "That first light is unreal"), w')
    /\ List.map tupleOf (ledger w') = [("instagram", "lifebytosin", "DAhalf")].
Proof. eexists. split; vm_compute; reflexivity. Qed.

Example second_run_takes_next_newest :
  let w1 := snd (commentOnLatestPost calmEnv botConfig "lifebytosin" emptyWorld) in
  option_map postId
    (match fst (commentOnLatestPost calmEnv botConfig "lifebytosin" w1) with
     | Resolved r => Some r
     | Rejected _ => None
     end) = Some (Some "DAnine").
Proof. vm_compute. reflexivity. Qed.

Example third_run_is_skipped :
  let w1 := snd (commentOnLatestPost calmEnv botConfig "lifebytosin" emptyWorld) in
  let w2 := snd (commentOnLatestPost calmEnv botConfig "lifebytosin" w1) in
  fst (commentOnLatestPost calmEnv botConfig "lifebytosin" w2)
  = Resolved (skippedResult "lifebytosin"
      "No posts within 1 days or all recent posts already commented on").
Proof. vm_compute. reflexivity. Qed.

(** ** Facts about traces *)

Lemma existsb_before_selection (P : Event -> bool) tr :
  (forall ev, P ev = true -> afterSelection ev = true) ->
  Forall (fun ev => afterSelection ev = false) tr ->
  existsb P tr = false.
Proof.
  intros HP. induction 1 as [|ev tr Hev _ IH]; simpl; [reflexivity|].
  rewrite IH, orb_false_r. destruct (P ev) eqn:E; [|reflexivity].
  apply HP in E. congruence.
Qed.

Lemma generationFailed_after ev : generationFailed ev = true -> afterSelection ev = true.
Proof. destruct ev; simpl; congruence. Qed.

Lemma submissionThrew_after ev : submissionThrew ev = true -> afterSelection ev = true.
Proof. destruct ev; simpl; congruence. Qed.

Lemma conflictReported_after ev : conflictReported ev = true -> afterSelection ev = true.
Proof. destruct ev; simpl; congruence. Qed.

Lemma isSleep_after ev : isSleep ev = true -> afterSelection ev = true.
Proof. destruct ev; simpl; congruence. Qed.

Lemma error_by_message e e' : String.eqb (message e) (message e') = true -> e = e'.
Proof.
  destruct e, e'; simpl. intros H. apply String.eqb_eq in H. now subst.
Qed.

(** Splits a run of [commentOnLatestPost] whose outcome and trace are
    given into the two shapes of [commentOnLatestPost_run]. *)
Ltac split_run env cfg account w Hrun Htr :=
  let res := fresh "res" in
  let w2 := fresh "w2" in
  let trSel := fresh "trSel" in
  let Heq := fresh "Heq" in
  let Hpre := fresh "Hpre" in
  let Hcase := fresh "Hcase" in
  destruct (commentOnLatestPost_run env cfg account w)
    as (res & w2 & trSel & Heq & Hpre & Hcase);
  rewrite Heq in Hrun; injection Hrun as <- <-;
  destruct Hcase as [(Hl & Hh & Hres)
                    |(latest & candidates & now & fl & trEng
                      & Hcands & Hnow & Hsorted & Hhd & Heng & Hh & Hres)];
  rewrite Hh in Htr; apply app_inv_head in Htr; subst.

(** ** C10: the shape of every result *)


(** ** C3: failed generation or submission *)

(** C3. In every run of [commentOnLatestPost] whose generation step
    returns the empty string or throws, or whose submission step throws,
    the result has action [failed] (and [success = false]) and the ledger
    after the run is the ledger before it. *)
Theorem failed_generation_or_submission_writes_nothing
    (env : Env) (cfg : BotConfig) (account : string) (w w' : World)
    (r : Settled CommentResult) (tr : list Event) :
  commentOnLatestPost env cfg account w = (r, w') ->
  history w' = history w ++ tr ->
  existsb generationFailed tr || existsb submissionThrew tr = true ->
  exists res,
    r = Resolved res /\ action res = failed /\ success res = false
    /\ ledger w' = ledger w.
Proof.
  intros Hrun Htr Hbad.
  split_run env cfg account w Hrun Htr.
  - rewrite (existsb_before_selection _ _ generationFailed_after Hpre),
            (existsb_before_selection _ _ submissionThrew_after Hpre) in Hbad.
    discriminate.
  - rewrite !existsb_app,
            (existsb_before_selection _ _ generationFailed_after Hpre),
            (existsb_before_selection _ _ submissionThrew_after Hpre) in Hbad.
    simpl in Hbad.
    inversion Heng; subst; simpl in Hbad;
      try match goal with
          | E : String.eqb _ "" = false |- _ => rewrite E in Hbad
          end;
      try discriminate; eexists; repeat split; reflexivity.
Qed.

(** The run of [muteEnv]: the model returns the empty string. *)
Lemma failed_generation_witness :
  exists res,
    fst (commentOnLatestPost muteEnv botConfig "lifebytosin" emptyWorld) = Resolved res
    /\ action res = failed /\ success res = false
    /\ ledger (snd (commentOnLatestPost muteEnv botConfig "lifebytosin" emptyWorld))
       = ledger emptyWorld.
Proof.
  destruct (failed_generation_or_submission_writes_nothing
              muteEnv botConfig "lifebytosin" emptyWorld
              (snd (commentOnLatestPost muteEnv botConfig "lifebytosin" emptyWorld))
              (fst (commentOnLatestPost muteEnv botConfig "lifebytosin" emptyWorld))
              (history (snd (commentOnLatestPost muteEnv botConfig "lifebytosin" emptyWorld))))
    as (res & H1 & H2 & H3 & H4).
  - vm_compute. reflexivity.
  - reflexivity.
  - vm_compute. reflexivity.
  - exists res. repeat split; assumption.
Defined.

(** ** C4: a conflict at the record step *)

(** C4, as the code has it. When the record step of a run is refused by
    the unique index, the comment has already been submitted, the error is
    caught by the [catch] block of [commentOnLatestPost], and the result is
    the failed result carrying the storage error; the run itself adds no
    document to the ledger. *)
Theorem record_conflict_is_reported_as_failure
    (env : Env) (cfg : BotConfig) (account : string) (w w' : World)
    (r : Settled CommentResult) (tr : list Event) :
  commentOnLatestPost env cfg account w = (r, w') ->
  history w' = history w ++ tr ->
  existsb conflictReported tr = true ->
  r = Resolved (failedResult account duplicateKeyError)
  /\ (exists url text, In (EvPostComment url text (Resolved tt)) tr)
  /\ (exists others, ledger w' = otherWriters others (ledger w)).
Proof.
  intros Hrun Htr Hbad.
  split_run env cfg account w Hrun Htr.
  - rewrite (existsb_before_selection _ _ conflictReported_after Hpre) in Hbad.
    discriminate.
  - rewrite !existsb_app,
            (existsb_before_selection _ _ conflictReported_after Hpre) in Hbad.
    simpl in Hbad.
    inversion Heng; subst; simpl in Hbad; try discriminate.
    + rewrite orb_false_r in Hbad. apply (error_by_message e duplicateKeyError) in Hbad. subst e.
      split; [reflexivity|]. split.
      * eexists _, _. apply in_or_app. right. simpl. eauto.
      * eauto.
    + split; [reflexivity|]. split.
      * eexists _, _. apply in_or_app. right. simpl. eauto.
      * eauto.
Qed.

(** The run of [racingEnv]: another run records the post first. *)
Lemma record_conflict_witness :
  fst (commentOnLatestPost racingEnv botConfig "lifebytosin" emptyWorld)
  = Resolved (failedResult "lifebytosin" duplicateKeyError)
  /\ List.map tupleOf
       (ledger (snd (commentOnLatestPost racingEnv botConfig "lifebytosin" emptyWorld)))
     = [("instagram", "lifebytosin", "DAhalf")].
Proof.
  destruct (record_conflict_is_reported_as_failure
              racingEnv botConfig "lifebytosin" emptyWorld
              (snd (commentOnLatestPost racingEnv botConfig "lifebytosin" emptyWorld))
              (fst (commentOnLatestPost racingEnv botConfig "lifebytosin" emptyWorld))
              (history (snd (commentOnLatestPost racingEnv botConfig "lifebytosin" emptyWorld))))
    as (H1 & _ & _).
  - vm_compute. reflexivity.
  - reflexivity.
  - vm_compute. reflexivity.
  - split; [exact H1|vm_compute; reflexivity].
Defined.

(** C4, as stated, fails: in the run of [racingEnv] the insert reports
    the conflict, and the result is a failed one. *)
Lemma record_conflict_counterexample :
  existsb conflictReported
    (history (snd (commentOnLatestPost racingEnv botConfig "lifebytosin" emptyWorld)))
  = true
  /\ exists res,
       fst (commentOnLatestPost racingEnv botConfig "lifebytosin" emptyWorld)
       = Resolved res
       /\ action res = failed /\ success res = false.
Proof.
  split; [vm_compute; reflexivity|].
  eexists. split; [vm_compute; reflexivity|]. split; reflexivity.
Qed.

(** ** C1: the selected post *)

(** Whenever a run of [commentOnLatestPost] goes on to a post (it asks
    for the details of [url]), that post is one of the candidates
    [getLastFourPosts] returned in this run and the first of those that
    pass the age filter and the already-commented filter.  When the dates
    of all candidates are valid, the survivors are
    in timestamp-descending order and no candidate that passes both filters
    has a later timestamp. *)
Lemma selected_post_is_first_survivor
    (env : Env) (cfg : BotConfig) (account : string) (w w' : World)
    (r : Settled CommentResult) (tr : list Event)
    (url : string) (d : Settled (option PostDetails)) :
  commentOnLatestPost env cfg account w = (r, w') ->
  history w' = history w ++ tr ->
  In (EvGetPostDetails url d) tr ->
  exists candidates now latest,
    In (EvGetLastFourPosts account (Resolved candidates)) tr
    /\ In (EvNow now) tr
    /\ p_postUrl latest = url
    /\ hd_error (List.filter (survives cfg now (ledger w) account) candidates)
       = Some latest
    /\ In latest candidates
    /\ survives cfg now (ledger w) account latest = true
    /\ (Forall validTimestamp candidates ->
        newestFirstOrder (List.filter (survives cfg now (ledger w) account) candidates)
        /\ forall q, In q candidates ->
                     survives cfg now (ledger w) account q = true ->
                     notLater q latest).
Proof.
  intros Hrun Htr Hin.
  split_run env cfg account w Hrun Htr.
  - rewrite List.Forall_forall in Hpre. apply Hpre in Hin. discriminate.
  - apply in_app_or in Hin as [Hin|Hin].
    { rewrite List.Forall_forall in Hpre. apply Hpre in Hin. discriminate. }
    assert (Hurl : p_postUrl latest = url).
    { inversion Heng; subst; simpl in Hin;
        repeat (destruct Hin as [Hin|Hin]; [congruence|]); contradiction. }
    assert (Hsel : In latest (List.filter (survives cfg now (ledger w) account) candidates)).
    { destruct (List.filter _ candidates); simpl in Hhd; [discriminate|].
      injection Hhd as ->. now left. }
    apply List.filter_In in Hsel as [Hcand Hsurv].
    exists candidates, now, latest.
    split; [apply in_or_app; auto|]. split; [apply in_or_app; auto|].
    split; [exact Hurl|]. split; [exact Hhd|]. split; [exact Hcand|].
    split; [exact Hsurv|].
    intros Hvalid.
    destruct (head_of_filtered_is_newest _ _ _ Hvalid (Hsorted Hvalid) Hhd)
      as (_ & _ & H3).
    split; [apply newestFirstOrder_filter; exact (Hsorted Hvalid)|exact H3].
Qed.

(** C1, what the code does with an Invalid Date.  The profile shows an
    older post, then a post whose [datetime] attribute does not parse, then
    a newer post.  [getLastFourPosts] keeps the post with the Invalid Date,
    the comparison of the sort yields [NaN] against it, and the three posts
    stay in the order of the page; all three pass the filters, and the run
    asks for the details of the older post and comments on it, although the
    newer post is a candidate that passes both filters and has a later
    timestamp.  When the post with the Invalid Date is the only one, the run
    fails on the log line of step 4 and comments on nothing. *)
Theorem invalid_date_hides_newer_post :
  let run := commentOnLatestPost unreadableDateEnv botConfig "lifebytosin" emptyWorld in
  let candidates := [postNineTenths; postUnreadable; postHalfDay] in
  fst run
  = Resolved (commentedResult "lifebytosin" postNineTenths
                (someDetails postNineTenths) "That first light is unreal")
  /\ In (EvGetLastFourPosts "lifebytosin" (Resolved candidates)) (history (snd run))
  /\ In (EvNow (10 * day)) (history (snd run))
  /\ In (EvGetPostDetails (p_postUrl postNineTenths)
           (Resolved (Some (someDetails postNineTenths))))
        (history (snd run))
  /\ List.filter (survives botConfig (10 * day) [] "lifebytosin") candidates
     = candidates
  /\ p_timestamp postNineTenths = date (10 * day - 9 * day / 10)
  /\ p_timestamp postHalfDay = date (10 * day - day / 2)
  /\ 10 * day - 9 * day / 10 < 10 * day - day / 2
  /\ ~ notLater postHalfDay postNineTenths
  /\ fst (commentOnLatestPost onlyUnreadableEnv botConfig "lifebytosin" emptyWorld)
     = Resolved (failedResult "lifebytosin" (mkError "Invalid time value")).
Proof.
  cbv zeta.
  split; [vm_compute; reflexivity|].
  split; [vm_compute; tauto|].
  split; [vm_compute; tauto|].
  split; [vm_compute; tauto|].
  split; [vm_compute; reflexivity|].
  split; [reflexivity|]. split; [reflexivity|].
  split; [vm_compute; reflexivity|].
  split; [vm_compute; intros H; apply H; reflexivity|].
  vm_compute. reflexivity.
Qed.

(** ** Lemmas on the batch loop *)

Section BatchFacts.

Variable env : Env.
Variable cfg : BotConfig.

(** Since the promise of [commentOnLatestPost] always resolves, an
    iteration pushes its result and then sleeps. *)
Lemma processOne_run account results w :
  exists res w1,
    commentOnLatestPost env cfg account w = (Resolved res, w1)
    /\ targetAccount res = account
    /\ processOne env cfg account results w
       = (results ++ [res],
          log (EvSleep (betweenAccountsDelay env cfg (history w1))) w1).
Proof.
  destruct (commentOnLatestPost_run env cfg account w)
    as (res & w1 & trSel & Heq & _ & Hcase).
  exists res, w1. split; [exact Heq|]. split.
  - destruct Hcase as [(_ & _ & [(_ & _ & Ht)|(e & ->)])
                      |(latest & cands & now & fl & trEng & _ & _ & _ & _ & Hrun & _ & ->)];
      auto.
    inversion Hrun; reflexivity.
  - unfold processOne. rewrite Heq. reflexivity.
Qed.

Lemma processLoop_acc targetAccounts :
  forall acc w,
    processLoop env cfg targetAccounts acc w
    = (acc ++ fst (processLoop env cfg targetAccounts [] w),
       snd (processLoop env cfg targetAccounts [] w)).
Proof.
  induction targetAccounts as [|a rest IH]; intros acc w; simpl.
  - now rewrite app_nil_r.
  - destruct (processOne_run a acc w) as (res & w1 & Heq & _ & Hacc).
    destruct (processOne_run a [] w) as (res' & w1' & Heq' & _ & Hnil).
    rewrite Heq in Heq'. injection Heq' as <- <-.
    rewrite Hacc, Hnil.
    rewrite (IH (acc ++ [res])), (IH ([] ++ [res])).
    simpl. now rewrite <- app_assoc.
Qed.

Lemma processLoop_app before after :
  forall acc w,
    processLoop env cfg (before ++ after) acc w
    = processLoop env cfg after
        (fst (processLoop env cfg before acc w))
        (snd (processLoop env cfg before acc w)).
Proof.
  induction before as [|a rest IH]; intros acc w; simpl; [reflexivity|].
  destruct (processOne env cfg a acc w) as [acc' w']. apply IH.
Qed.

Lemma processLoop_accounts targetAccounts :
  forall w,
    List.map targetAccount (fst (processLoop env cfg targetAccounts [] w))
    = targetAccounts.
Proof.
  induction targetAccounts as [|a rest IH]; intros w; simpl; [reflexivity|].
  destruct (processOne_run a [] w) as (res & w1 & _ & Ha & ->).
  rewrite processLoop_acc. simpl. now rewrite IH, Ha.
Qed.

(** No step of [commentOnLatestPost] sleeps. *)
Lemma commentOnLatestPost_never_sleeps account w :
  exists tr,
    history (snd (commentOnLatestPost env cfg account w)) = history w ++ tr
    /\ List.filter isSleep tr = [].
Proof.
  destruct (commentOnLatestPost_run env cfg account w)
    as (res & w1 & trSel & Heq & Hpre & Hcase).
  rewrite Heq. simpl.
  assert (Hsel : List.filter isSleep trSel = []).
  { clear -Hpre. induction Hpre as [|ev tr Hev _ IH]; simpl; [reflexivity|].
    destruct (isSleep ev) eqn:E; [|exact IH].
    apply isSleep_after in E. congruence. }
  destruct Hcase as [(_ & Hh & _)
                    |(latest & cands & now & fl & trEng & _ & _ & _ & _ & Hrun & Hh & _)].
  - exists trSel. auto.
  - exists (trSel ++ trEng). split; [exact Hh|].
    rewrite List.filter_app, Hsel. inversion Hrun; reflexivity.
Qed.

(** The batch sleeps once per account. *)
Lemma processLoop_sleeps targetAccounts :
  forall acc w,
  exists tr,
    history (snd (processLoop env cfg targetAccounts acc w)) = history w ++ tr
    /\ length (List.filter isSleep tr) = length targetAccounts.
Proof.
  induction targetAccounts as [|a rest IH]; intros acc w; simpl.
  - exists []. now rewrite app_nil_r.
  - destruct (processOne_run a acc w) as (res & w1 & Heq & _ & ->).
    destruct (commentOnLatestPost_never_sleeps a w) as (tr1 & Hh1 & Hs1).
    rewrite Heq in Hh1. simpl in Hh1.
    destruct (IH (acc ++ [res])
                (log (EvSleep (betweenAccountsDelay env cfg (history w1))) w1))
      as (tr2 & Hh2 & Hs2).
    exists (tr1 ++ [EvSleep (betweenAccountsDelay env cfg (history w1))] ++ tr2).
    split.
    + rewrite Hh2. simpl. rewrite Hh1, <- !app_assoc. reflexivity.
    + rewrite !List.filter_app, Hs1. simpl. now rewrite Hs2.
Qed.

End BatchFacts.

(** ** Lemmas on the numbers *)

Lemma bitLength_spec m : 0 < m -> 2 ^ (bitLength m - 1) <= m < 2 ^ bitLength m.
Proof.
  intros Hm. unfold bitLength. destruct (Z.eqb_spec m 0) as [->|_]; [lia|].
  rewrite Z.abs_eq by lia. replace (Z.log2 m + 1 - 1) with (Z.log2 m) by lia.
  replace (Z.log2 m + 1) with (Z.succ (Z.log2 m)) by lia.
  apply Z.log2_spec. exact Hm.
Qed.

Lemma roundHalfEven_le m sh c :
  0 < sh -> m <= c * 2 ^ sh -> roundHalfEven m sh <= c.
Proof.
  intros Hsh Hm. unfold roundHalfEven.
  assert (Hp : 0 < 2 ^ sh) by (apply Z.pow_pos_nonneg; lia).
  assert (Hh : 0 < 2 ^ (sh - 1)) by (apply Z.pow_pos_nonneg; lia).
  pose proof (Z.div_mod m (2 ^ sh) ltac:(lia)) as Hdm.
  pose proof (Z.mod_pos_bound m (2 ^ sh) Hp) as Hr.
  assert (Hq : m / 2 ^ sh <= c) by (apply Z.div_le_upper_bound; lia).
  destruct (m mod 2 ^ sh <? 2 ^ (sh - 1)) eqn:E1; [exact Hq|].
  apply Z.ltb_ge in E1.
  assert (Hlt : m / 2 ^ sh < c) by nia.
  destruct (2 ^ (sh - 1) <? m mod 2 ^ sh); [lia|].
  destruct (Z.even (m / 2 ^ sh)); lia.
Qed.

Lemma roundHalfEven_ge m sh c :
  0 < sh -> c * 2 ^ sh <= m -> c <= roundHalfEven m sh.
Proof.
  intros Hsh Hm. unfold roundHalfEven.
  assert (Hp : 0 < 2 ^ sh) by (apply Z.pow_pos_nonneg; lia).
  assert (Hq : c <= m / 2 ^ sh) by (apply Z.div_le_lower_bound; lia).
  destruct (m mod 2 ^ sh <? 2 ^ (sh - 1)); [exact Hq|].
  destruct (2 ^ (sh - 1) <? m mod 2 ^ sh); [lia|].
  destruct (Z.even (m / 2 ^ sh)); lia.
Qed.

(** The rounded mantissa is at most half a unit above the exact one. *)
Lemma roundHalfEven_near m sh :
  0 < sh -> roundHalfEven m sh * 2 ^ sh <= m + 2 ^ (sh - 1).
Proof.
  intros Hsh. unfold roundHalfEven.
  assert (Hp : 0 < 2 ^ sh) by (apply Z.pow_pos_nonneg; lia).
  assert (Hh : 0 < 2 ^ (sh - 1)) by (apply Z.pow_pos_nonneg; lia).
  assert (H2 : 2 ^ sh = 2 * 2 ^ (sh - 1)).
  { replace sh with (1 + (sh - 1)) at 1 by lia. rewrite Z.pow_add_r by lia. reflexivity. }
  pose proof (Z.div_mod m (2 ^ sh) ltac:(lia)) as Hdm.
  pose proof (Z.mod_pos_bound m (2 ^ sh) Hp) as Hr.
  destruct (m mod 2 ^ sh <? 2 ^ (sh - 1)) eqn:E1; [nia|].
  apply Z.ltb_ge in E1.
  destruct (2 ^ (sh - 1) <? m mod 2 ^ sh) eqn:E2.
  - apply Z.ltb_lt in E2. nia.
  - apply Z.ltb_ge in E2. destruct (Z.even (m / 2 ^ sh)); nia.
Qed.

Lemma pow2_split a b : 0 <= a -> 0 <= b -> 2 ^ (a + b) = 2 ^ a * 2 ^ b.
Proof. intros. apply Z.pow_add_r; assumption. Qed.

(** Rounding keeps an exact value between two whole numbers between
    them, as long as they are below 2^53. *)
Lemma roundDouble_between (x : Double) (a b : Z) :
  - 1074 <= expo x <= 0 ->
  0 <= a -> b < 2 ^ 53 ->
  a * 2 ^ (- expo x) <= mant x <= b * 2 ^ (- expo x) ->
  expo x <= expo (roundDouble x) <= 0
  /\ a * 2 ^ (- expo (roundDouble x)) <= mant (roundDouble x)
     <= b * 2 ^ (- expo (roundDouble x)).
Proof.
  intros He Ha Hb Hm. unfold roundDouble.
  set (sh := Z.max (bitLength (mant x) - 53) (- 1074 - expo x)).
  destruct (0 <? sh) eqn:Esh; [|split; [lia|exact Hm]].
  apply Z.ltb_lt in Esh.
  assert (Hsh : sh = bitLength (mant x) - 53) by lia.
  assert (Hpe : 0 < 2 ^ (- expo x)) by (apply Z.pow_pos_nonneg; lia).
  assert (Hpos : 0 < mant x).
  { destruct (Z.eq_dec (mant x) 0) as [E0|E0]; [|nia].
    rewrite E0 in Hsh. unfold bitLength in Hsh. simpl in Hsh. lia. }
  destruct (bitLength_spec (mant x) Hpos) as [Hlow _].
  assert (Hexp : expo x + sh <= 0).
  { assert (Hlt : 2 ^ (bitLength (mant x) - 1) < 2 ^ (53 - expo x)).
    { replace (53 - expo x) with (53 + - expo x) by lia.
      rewrite (pow2_split 53 (- expo x)) by lia. nia. }
    apply Z.pow_lt_mono_r_iff in Hlt; lia. }
  cbn [mant expo]. split; [lia|].
  assert (Hsplit : 2 ^ (- expo x) = 2 ^ (- (expo x + sh)) * 2 ^ sh).
  { rewrite <- pow2_split by lia. f_equal. lia. }
  split.
  - apply roundHalfEven_ge; [exact Esh|]. rewrite <- Z.mul_assoc, <- Hsplit. lia.
  - apply roundHalfEven_le; [exact Esh|]. rewrite <- Z.mul_assoc, <- Hsplit. lia.
Qed.

Lemma roundDouble_exact n :
  Z.abs n < 2 ^ 53 -> roundDouble {| mant := n; expo := 0 |} = {| mant := n; expo := 0 |}.
Proof.
  intros Hn. unfold roundDouble. cbn [mant expo].
  assert (Hb : bitLength n <= 53).
  { unfold bitLength. destruct (Z.eqb_spec n 0); [lia|].
    assert (Z.log2 (Z.abs n) < 53) by (apply Z.log2_lt_pow2; lia). lia. }
  destruct (0 <? Z.max (bitLength n - 53) (- 1074 - 0)) eqn:E; [|reflexivity].
  apply Z.ltb_lt in E. lia.
Qed.

Lemma ofZ_exact n : Z.abs n < 2 ^ 53 -> ofZ n = {| mant := n; expo := 0 |}.
Proof. apply roundDouble_exact. Qed.

Lemma fadd_whole a b :
  Z.abs (a + b) < 2 ^ 53 ->
  fadd {| mant := a; expo := 0 |} {| mant := b; expo := 0 |}
  = {| mant := a + b; expo := 0 |}.
Proof.
  intros H. unfold fadd. cbn [mant expo]. change (Z.min 0 0) with 0.
  change (2 ^ (0 - 0)) with 1. rewrite !Z.mul_1_r. now apply roundDouble_exact.
Qed.

Lemma fsub_whole a b :
  Z.abs (a - b) < 2 ^ 53 ->
  fsub {| mant := a; expo := 0 |} {| mant := b; expo := 0 |}
  = {| mant := a - b; expo := 0 |}.
Proof.
  intros H. unfold fsub. cbn [mant expo]. rewrite fadd_whole; [reflexivity|].
  now replace (a + - b) with (a - b) by lia.
Qed.

Lemma randomValue_range u :
  0 <= mant (randomValue u) < 2 ^ 53
  /\ - 1074 <= expo (randomValue u) <= - 53.
Proof.
  unfold randomValue. cbn [mant expo]. split; [apply Z.mod_pos_bound; lia|lia].
Qed.

(** The product of a random value and a whole number below 2^53. *)
Lemma fmul_random_between u n :
  0 <= n < 2 ^ 53 ->
  let y := fmul (randomValue u) {| mant := n; expo := 0 |} in
  - 1074 <= expo y <= 0
  /\ 0 <= mant y <= n * 2 ^ (- expo y).
Proof.
  intros Hn y. subst y. unfold fmul. cbn [mant expo].
  destruct (randomValue_range u) as [Hm He].
  set (m := mant (randomValue u)) in *. set (e := expo (randomValue u)) in *.
  rewrite Z.add_0_r.
  assert (Hpe : 2 ^ 53 <= 2 ^ (- e)) by (apply Z.pow_le_mono_r; lia).
  assert (Hprod : 0 * 2 ^ (- e) <= m * n <= n * 2 ^ (- e)).
  { split; [nia|]. rewrite (Z.mul_comm m n). apply Z.mul_le_mono_nonneg_l; lia. }
  pose proof (roundDouble_between {| mant := m * n; expo := e |} 0 n
                ltac:(cbn [expo]; lia) ltac:(lia) ltac:(lia) Hprod) as [H1 H2].
  cbn [mant expo] in H1. split; lia.
Qed.

Lemma fadd_between (y : Double) (c a b : Z) :
  - 1074 <= expo y <= 0 ->
  0 <= a -> b < 2 ^ 53 ->
  (a - c) * 2 ^ (- expo y) <= mant y <= (b - c) * 2 ^ (- expo y) ->
  let z := fadd y {| mant := c; expo := 0 |} in
  - 1074 <= expo z <= 0
  /\ a * 2 ^ (- expo z) <= mant z <= b * 2 ^ (- expo z).
Proof.
  intros He Ha Hb Hm z. subst z. unfold fadd. cbn [mant expo].
  rewrite Z.min_l by lia. rewrite Z.sub_diag. change (2 ^ 0) with 1.
  rewrite Z.mul_1_r. replace (0 - expo y) with (- expo y) by lia.
  assert (Hp : 0 < 2 ^ (- expo y)) by (apply Z.pow_pos_nonneg; lia).
  pose proof (roundDouble_between
                {| mant := mant y + c * 2 ^ (- expo y); expo := expo y |} a b
                ltac:(cbn [expo]; lia) Ha Hb ltac:(cbn [mant expo]; nia))
    as [H1 H2].
  cbn [mant expo] in H1. split; [lia|exact H2].
Qed.

Lemma mathFloor_between (z : Double) (a b : Z) :
  expo z <= 0 ->
  a * 2 ^ (- expo z) <= mant z <= b * 2 ^ (- expo z) ->
  a <= mathFloor z <= b.
Proof.
  intros He Hm. unfold mathFloor.
  assert (Hp : 0 < 2 ^ (- expo z)) by (apply Z.pow_pos_nonneg; lia).
  destruct (0 <=? expo z) eqn:E.
  - apply Z.leb_le in E. assert (expo z = 0) as E0 by lia. rewrite E0 in *.
    change (2 ^ (- 0)) with 1 in Hm. change (2 ^ 0) with 1. lia.
  - split.
    + apply Z.div_le_lower_bound; lia.
    + apply Z.div_le_upper_bound; lia.
Qed.

(** The computed delay lies in the configured window, both ends
    included. *)
Lemma randomDelay_within u lo hi :
  0 <= lo -> lo <= hi -> hi < 2 ^ 53 ->
  lo <= randomDelay u lo hi <= hi.
Proof.
  intros H0 Hle Hhi. unfold randomDelay.
  rewrite !ofZ_exact by lia. rewrite fsub_whole by lia.
  destruct (fmul_random_between u (hi - lo)) as [He Hm]; [lia|].
  destruct (fadd_between _ lo lo hi He H0 Hhi) as [He' Hm'].
  { replace (lo - lo) with 0 by lia. lia. }
  apply mathFloor_between; [lia|exact Hm'].
Qed.

(** ** C6: one result per account *)

(** C6. [processTargets] resolves with one result per account, in the
    order of the accounts.  The result at any position is the result of
    [commentOnLatestPost] for that account, run in the world the accounts
    before it left; when the [try] block throws for that account, its
    result is the failed one, and the accounts before and after it are
    processed as they are on their own. *)
Theorem processTargets_isolates_failures (env : Env) (cfg : BotConfig) :
  (forall targetAccounts w,
     exists results w',
       processTargets env cfg targetAccounts w = (Resolved results, w')
       /\ length results = length targetAccounts
       /\ List.map targetAccount results = targetAccounts)
  /\ (forall before account after w,
        exists resultsBefore w1 res w2 resultsAfter w3,
          processTargets env cfg before w = (Resolved resultsBefore, w1)
          /\ commentOnLatestPost env cfg account w1 = (Resolved res, w2)
          /\ processTargets env cfg after
               (log (EvSleep (betweenAccountsDelay env cfg (history w2))) w2)
             = (Resolved resultsAfter, w3)
          /\ processTargets env cfg (before ++ account :: after) w
             = (Resolved (resultsBefore ++ res :: resultsAfter), w3)
          /\ (forall e wt,
                tryBlock env cfg account w1 = (Throw e, wt) ->
                res = failedResult account e /\ action res = failed)).
Proof.
  split.
  - intros targetAccounts w. unfold processTargets.
    pose proof (processLoop_accounts env cfg targetAccounts w) as Hacc.
    destruct (processLoop env cfg targetAccounts [] w) as [results w'].
    simpl in Hacc. exists results, w'. split; [reflexivity|].
    split; [|exact Hacc].
    rewrite <- (List.length_map targetAccount results). now rewrite Hacc.
  - intros before account after w. unfold processTargets.
    rewrite processLoop_app.
    destruct (processLoop env cfg before [] w) as [resultsBefore w1]. simpl.
    destruct (processOne_run env cfg account resultsBefore w1)
      as (res & w2 & Heq & _ & ->).
    rewrite processLoop_acc.
    destruct (processLoop env cfg after []
                (log (EvSleep (betweenAccountsDelay env cfg (history w2))) w2))
      as [resultsAfter w3] eqn:Eafter. simpl.
    exists resultsBefore, w1, res, w2, resultsAfter, w3.
    split; [reflexivity|]. split; [exact Heq|].
    split; [rewrite Eafter; reflexivity|].
    split; [now rewrite <- app_assoc|].
    intros e wt Htry.
    unfold commentOnLatestPost, tryCatch in Heq. rewrite Htry in Heq.
    simpl in Heq. injection Heq as <- _. split; reflexivity.
Qed.

(** Three accounts, the browser fails for the second one only: three
    results, the second failed, the first and third commented. *)
Example three_accounts_one_failure :
  option_map (List.map (fun r => (targetAccount r, action r)))
    (match fst (processTargets flakyEnv botConfig (accounts (target botConfig)) emptyWorld) with
     | Resolved results => Some results
     | Rejected _ => None
     end)
  = Some [("lifebytosin", commented); ("drshievag", failed);
          ("napro_fertility_surgeon", commented)].
Proof. vm_compute. reflexivity. Qed.

(** ** C8: the sleeps of a batch *)

(** C8, what the code does. Whatever the batch [before ++ [last]], the
    last thing [processTargets] does is to sleep, after the last account;
    it sleeps once per account, [length (before ++ [last])] times in all,
    not only between consecutive accounts. *)
Theorem processTargets_sleeps_after_last_account
    (env : Env) (cfg : BotConfig) (before : list string) (last : string) (w : World) :
  exists tr ms,
    history (snd (processTargets env cfg (before ++ [last]) w))
    = history w ++ tr ++ [EvSleep ms]
    /\ ms = randomDelay (random env (history w ++ tr))
              (bp_min (betweenPosts (timing cfg)))
              (bp_max (betweenPosts (timing cfg)))
    /\ length (List.filter isSleep (tr ++ [EvSleep ms])) = length (before ++ [last]).
Proof.
  unfold processTargets. rewrite processLoop_app.
  destruct (processLoop_sleeps env cfg before [] w) as (tr1 & Hh1 & Hs1).
  destruct (processLoop env cfg before [] w) as [results1 w1].
  simpl in Hh1 |- *.
  destruct (processOne_run env cfg last results1 w1) as (res & w2 & Heq & _ & ->).
  destruct (commentOnLatestPost_never_sleeps env cfg last w1) as (tr2 & Hh2 & Hs2).
  rewrite Heq in Hh2. simpl in Hh2 |- *.
  exists (tr1 ++ tr2), (betweenAccountsDelay env cfg (history w2)).
  split; [|split].
  - rewrite Hh2, Hh1, <- !app_assoc. reflexivity.
  - unfold betweenAccountsDelay. rewrite Hh2, Hh1, <- app_assoc. reflexivity.
  - rewrite !List.filter_app, Hs2, !List.length_app, Hs1. simpl. lia.
Qed.

(** ** Lemmas on the ledger *)

Lemma sameKey_tuple a b :
  sameKey [f_platform; f_targetAccount; f_postId] a b = true
  <-> tupleOf a = tupleOf b.
Proof.
  unfold sameKey, tupleOf. simpl. rewrite andb_true_r, !andb_true_iff.
  rewrite !String.eqb_eq. split.
  - intros (-> & -> & ->). reflexivity.
  - intros H. injection H as -> -> ->. auto.
Qed.

(** The declared indexes refuse a document exactly when its tuple is
    already stored. *)
Lemma violates_declared_indexes l d :
  existsb (violates l d) postMemorySchema_indexes = true
  <-> In (tupleOf d) (List.map tupleOf l).
Proof.
  unfold postMemorySchema_indexes, violates. simpl.
  rewrite !orb_false_r, List.existsb_exists, List.in_map_iff. split.
  - intros (x & Hx & Hk). apply sameKey_tuple in Hk. exists x. auto.
  - intros (x & Hk & Hx). exists x. split; [exact Hx|].
    apply sameKey_tuple. auto.
Qed.

Lemma insertOne_keeps_unique l d :
  uniqueTuples l ->
  uniqueTuples (snd (insertOne postMemorySchema_indexes l d)).
Proof.
  intros Hu.
  destruct (insertOne_cases postMemorySchema_indexes l d) as [[-> _]|[-> Hv]];
    simpl; [exact Hu|].
  unfold uniqueTuples. rewrite List.map_app. simpl.
  apply NoDup_app. split; [exact Hu|]. split.
  - intros x Hx Hx'. apply list_elem_of_In in Hx, Hx'.
    destruct Hx' as [<-|[]].
    apply violates_declared_indexes in Hx. congruence.
  - apply NoDup_singleton.
Qed.

Lemma otherWriters_keep_unique docs :
  forall l, uniqueTuples l -> uniqueTuples (otherWriters docs l).
Proof.
  induction docs as [|d docs IH]; intros l Hu; simpl; [exact Hu|].
  apply IH, insertOne_keeps_unique, Hu.
Qed.

Lemma recordComment_keeps_unique env data w :
  uniqueTuples (ledger w) ->
  uniqueTuples (ledger (snd (recordComment env data w))).
Proof.
  intros Hu. unfold recordComment.
  destruct (storageFault env (history w)); [exact Hu|].
  match goal with
  | |- context [insertOne ?ixs ?l ?doc] =>
      pose proof (insertOne_keeps_unique l doc Hu) as H;
      destruct (insertOne ixs l doc)
  end.
  exact H.
Qed.

Lemma commentOnLatestPost_keeps_unique env cfg account w :
  uniqueTuples (ledger w) ->
  uniqueTuples (ledger (snd (commentOnLatestPost env cfg account w))).
Proof.
  intros Hu.
  destruct (commentOnLatestPost_run env cfg account w)
    as (res & w' & trSel & -> & _ & Hcase). simpl.
  destruct Hcase as [(-> & _)
                    |(latest & cands & now & fl & trEng & _ & _ & _ & _ & Hrun & _)];
    [exact Hu|].
  inversion Hrun; subst; try (rewrite <- ?H; congruence);
    try (match goal with
         | E : _ = ledger w' |- _ => rewrite <- E
         end).
  - now apply otherWriters_keep_unique.
  - now apply otherWriters_keep_unique.
  - pose proof (insertOne_keeps_unique (otherWriters others (ledger w)) doc
                  (otherWriters_keep_unique others _ Hu)) as Hins.
    unfold insertOne in Hins.
    match goal with
    | E : existsb _ _ = false |- _ => rewrite E in Hins
    end.
    exact Hins.
Qed.

Lemma processLoop_keeps_unique env cfg targetAccounts :
  forall acc w,
    uniqueTuples (ledger w) ->
    uniqueTuples (ledger (snd (processLoop env cfg targetAccounts acc w))).
Proof.
  induction targetAccounts as [|a rest IH]; intros acc w Hu; simpl; [exact Hu|].
  destruct (processOne_run env cfg a acc w) as (res & w1 & Heq & _ & ->).
  apply IH. simpl.
  pose proof (commentOnLatestPost_keeps_unique env cfg a w Hu) as H.
  now rewrite Heq in H.
Qed.

(** ** C2: uniqueness in the ledger *)

(** C2. In every ledger that can arise no two documents share
    [(platform, targetAccount, postId)].  [recordComment] preserves this,
    and so does a whole batch.  The guarantee is the unique index of the
    schema: [recordComment] makes no lookup of its own, an insert whose
    tuple is already stored is refused by the storage engine with the
    duplicate-key error and leaves the collection as it was, and the same
    insert under an index that is not unique would be accepted. *)
Theorem ledger_tuples_stay_unique :
  (forall l, ledgerReachable l -> uniqueTuples l)
  /\ (forall env data w,
        uniqueTuples (ledger w) ->
        uniqueTuples (ledger (snd (recordComment env data w))))
  /\ (forall env cfg targetAccounts w,
        uniqueTuples (ledger w) ->
        uniqueTuples (ledger (snd (processTargets env cfg targetAccounts w))))
  /\ (forall env data w,
        storageFault env (history w) = None ->
        In (cd_platform data, cd_targetAccount data, cd_postId data)
           (List.map tupleOf (ledger w)) ->
        recordComment env data w = (Rejected duplicateKeyError, w))
  /\ (forall fields l d,
        insertOne [ {| ix_fields := fields; ix_unique := false |} ] l d
        = (Resolved d, l ++ [d])).
Proof.
  split; [|split; [|split; [|split]]].
  - induction 1 as [|env data w _ IH].
    + constructor.
    + now apply recordComment_keeps_unique.
  - apply recordComment_keeps_unique.
  - intros env cfg targetAccounts w Hu. unfold processTargets.
    pose proof (processLoop_keeps_unique env cfg targetAccounts [] w Hu) as H.
    destruct (processLoop env cfg targetAccounts [] w). exact H.
  - intros env data [l h] Hfault Hin. unfold recordComment. simpl in *.
    rewrite Hfault.
    match goal with
    | |- context [insertOne ?ixs ?l0 ?doc] =>
        destruct (insertOne_cases ixs l0 doc) as [[-> _]|[_ Hv]]
    end; [reflexivity|].
    exfalso.
    match type of Hv with
    | existsb (violates _ ?doc) _ = false =>
        assert (Ht : existsb (violates l doc) postMemorySchema_indexes = true)
          by (apply violates_declared_indexes; exact Hin)
    end.
    congruence.
  - intros fields l d. reflexivity.
Qed.

(** Two calls of [recordComment] for the same post: the second one is
    refused and the ledger still holds one document for the tuple. *)
Lemma ledger_unique_witness :
  let data := commentData "lifebytosin" postHalfDay (someDetails postHalfDay) "Lovely" in
  let w1 := snd (recordComment calmEnv data emptyWorld) in
  uniqueTuples (ledger (snd (recordComment calmEnv data w1)))
  /\ recordComment calmEnv data w1 = (Rejected duplicateKeyError, w1).
Proof.
  cbv zeta. split.
  - apply (proj1 ledger_tuples_stay_unique).
    apply reach_record, reach_record, reach_empty.
  - apply (proj1 (proj2 (proj2 (proj2 ledger_tuples_stay_unique)))).
    + reflexivity.
    + vm_compute. tauto.
Defined.

(** ** C5: the overlap guard *)

(** C5. When [runScheduledTask] is invoked while [isRunning] is set and
    [skipIfRunning] is configured, it returns with the scheduler exactly as
    it was ([runCount], [lastRunTime], [lastRunResults] and [isRunning]
    included), no collaborator is called and nothing is written; [runNow]
    then hands back the snapshot of the earlier run. *)
Theorem runScheduledTask_skips_when_running
    (env : Env) (cfg : BotConfig) (this : SchedulerService) (w : World) :
  isRunning this = true ->
  skipIfRunning (scheduler cfg) = true ->
  runScheduledTask env cfg this w = (this, w)
  /\ runCount (fst (runScheduledTask env cfg this w)) = runCount this
  /\ lastRunTime (fst (runScheduledTask env cfg this w)) = lastRunTime this
  /\ lastRunResults (fst (runScheduledTask env cfg this w)) = lastRunResults this
  /\ isRunning (fst (runScheduledTask env cfg this w)) = true
  /\ runNow env cfg this w = (lastRunResults this, this, w).
Proof.
  intros Hrunning Hskip.
  assert (H : runScheduledTask env cfg this w = (this, w)).
  { unfold runScheduledTask, skipsThisInterval. now rewrite Hrunning, Hskip. }
  unfold runNow. rewrite H. simpl. repeat split; auto.
Qed.

(** A tick that arrives after a run has entered and before it has left. *)
Lemma runScheduledTask_skip_witness :
  let running := enterRun schedulerService (10 * day) in
  runScheduledTask calmEnv botConfig running emptyWorld = (running, emptyWorld)
  /\ runCount (fst (runScheduledTask calmEnv botConfig running emptyWorld)) = 1.
Proof.
  cbv zeta.
  destruct (runScheduledTask_skips_when_running calmEnv botConfig
              (enterRun schedulerService (10 * day)) emptyWorld
              eq_refl eq_refl) as (H1 & H2 & _).
  split; [exact H1|]. rewrite H2. reflexivity.
Defined.

(** Without the guard the same tick starts a second run. *)
Example runScheduledTask_runs_when_idle :
  let '(this, w) := runScheduledTask calmEnv botConfig schedulerService emptyWorld in
  runCount this = 1 /\ isRunning this = false
  /\ option_map runId (lastRunResults this) = Some "RUN-1"
  /\ length (ledger w) = 3%nat.
Proof. vm_compute. repeat split; reflexivity. Qed.

(** ** C7: the caption-length gate *)

(** C7. With the caption-length gate enabled, a length is rejected
    exactly when it is below [min] or above [max]; with the bounds 50 and
    2200 the lengths 49 and 2201 are rejected and the lengths 50 and 2200
    are allowed. *)
Theorem caption_length_gate (cfg : BotConfig) (len : Z) :
  cl_enabled (captionLength (filtering cfg)) = true ->
  (allowed (shouldCommentBasedOnLength cfg len) = false
   <-> len < cl_min (captionLength (filtering cfg))
       \/ len > cl_max (captionLength (filtering cfg)))
  /\ (cl_min (captionLength (filtering cfg)) = 50 ->
      cl_max (captionLength (filtering cfg)) = 2200 ->
      allowed (shouldCommentBasedOnLength cfg 49) = false
      /\ allowed (shouldCommentBasedOnLength cfg 50) = true
      /\ allowed (shouldCommentBasedOnLength cfg 2200) = true
      /\ allowed (shouldCommentBasedOnLength cfg 2201) = false).
Proof.
  intros Hen. unfold shouldCommentBasedOnLength. rewrite Hen. simpl. split.
  - destruct (len <? cl_min (captionLength (filtering cfg))) eqn:E1; simpl.
    + apply Z.ltb_lt in E1. split; auto.
    + apply Z.ltb_ge in E1.
      destruct (cl_max (captionLength (filtering cfg)) <? len) eqn:E2; simpl.
      * apply Z.ltb_lt in E2. split; [right; lia|auto].
      * apply Z.ltb_ge in E2. split; [discriminate|lia].
  - intros -> ->. repeat split; reflexivity.
Qed.

(** The shipped configuration at length 49. *)
Lemma caption_length_gate_witness :
  allowed (shouldCommentBasedOnLength botConfig 49) = false
  /\ allowed (shouldCommentBasedOnLength botConfig 50) = true
  /\ allowed (shouldCommentBasedOnLength botConfig 2200) = true
  /\ allowed (shouldCommentBasedOnLength botConfig 2201) = false.
Proof.
  exact (proj2 (caption_length_gate botConfig 49 eq_refl) eq_refl eq_refl).
Defined.

(** ** Lemmas on the webhook *)

Lemma hasComma_append a b : hasComma (a +:+ b) = hasComma a || hasComma b.
Proof.
  induction a as [|c a IH]; simpl; [reflexivity|].
  now rewrite IH, orb_assoc.
Qed.

Lemma trimsToEmpty_nonempty s : trimsToEmpty s = false -> s <> "".
Proof. intros H ->. discriminate. Qed.

(** Two comma-free strings followed by a comma and a rest agree when the
    whole strings agree. *)
Lemma append_empty (s : string) : "" +:+ s = s.
Proof. reflexivity. Qed.

Lemma append_String c (a s : string) : String c a +:+ s = String c (a +:+ s).
Proof. reflexivity. Qed.

Lemma split_at_comma a :
  forall b x y,
    hasComma a = false -> hasComma b = false ->
    a +:+ "," +:+ x = b +:+ "," +:+ y -> a = b /\ x = y.
Proof.
  induction a as [|c a IH]; intros [|c' b] x y Ha Hb Heq;
    repeat (rewrite append_empty in Heq || rewrite append_String in Heq);
    simpl in Ha, Hb.
  - injection Heq as ->. auto.
  - injection Heq as <- _. discriminate.
  - injection Heq as -> _. discriminate.
  - injection Heq as -> Heq.
    apply orb_false_iff in Ha as [_ Ha]. apply orb_false_iff in Hb as [_ Hb].
    destruct (IH b x y Ha Hb Heq) as [-> ->]. auto.
Qed.

Lemma join_cons2 sep x y r : join sep (x :: y :: r) = x +:+ sep +:+ join sep (y :: r).
Proof. reflexivity. Qed.

(** On plain names [join ","] loses nothing. *)
Lemma join_injective l1 :
  forall l2,
    Forall plainName l1 -> Forall plainName l2 ->
    join "," l1 = join "," l2 -> l1 = l2.
Proof.
  induction l1 as [|x l1 IH]; intros l2 H1 H2 Heq.
  - destruct l2 as [|y l2]; [reflexivity|].
    apply Forall_cons in H2 as [[Hy _] _]. apply trimsToEmpty_nonempty in Hy.
    destruct l2; simpl in Heq; destruct y;
      repeat (rewrite append_empty in Heq || rewrite append_String in Heq);
      congruence.
  - apply Forall_cons in H1 as [[Hx Hxc] H1].
    destruct l2 as [|y l2].
    { apply trimsToEmpty_nonempty in Hx.
      destruct l1; simpl in Heq; destruct x;
        repeat (rewrite append_empty in Heq || rewrite append_String in Heq);
        congruence. }
    apply Forall_cons in H2 as [[Hy Hyc] H2].
    destruct l1 as [|x2 l1], l2 as [|y2 l2].
    + simpl in Heq. now subst.
    + rewrite join_cons2 in Heq. simpl join in Heq at 1. subst x.
      rewrite hasComma_append in Hxc. simpl in Hxc.
      rewrite orb_true_r in Hxc. discriminate.
    + rewrite join_cons2 in Heq. simpl join in Heq at 2. subst y.
      rewrite hasComma_append in Hyc. simpl in Hyc.
      rewrite orb_true_r in Hyc. discriminate.
    + rewrite !join_cons2 in Heq.
      destruct (split_at_comma x y _ _ Hxc Hyc Heq) as [-> Hrest].
      f_equal. apply IH; auto.
Qed.

Lemma validateAccounts_names accounts :
  forall names,
    validateAccounts accounts = inl names ->
    Forall (fun s => trimsToEmpty s = false) names.
Proof.
  induction accounts as [|[s|] rest IH]; intros names H; simpl in H.
  - injection H as <-. constructor.
  - destruct (trimsToEmpty s) eqn:Es; [discriminate|].
    destruct (validateAccounts rest) as [ns|]; [|discriminate].
    injection H as <-. constructor; auto.
  - discriminate.
Qed.

(** What the handler does with an authorised, valid request. *)
Lemma postRunBot_valid key jobId body active names :
  keyRejected key (body_apiKey body) = false ->
  validNames body names ->
  postRunBot key jobId body active
  = match active !! jobKeyOf names with
    | Some _ => (Conflict (arraySort compareStrings names), active, None)
    | None =>
        (Accepted jobId (arraySort compareStrings names),
         <[jobKeyOf names := true]> active,
         Some {| job_accounts := arraySort compareStrings names;
                 job_id := jobId; job_key := jobKeyOf names |})
    end.
Proof.
  intros Hkey (first & others & Hbody & Hvalid).
  unfold postRunBot. rewrite Hkey, Hbody, Hvalid. reflexivity.
Qed.

Lemma coherent_idle : coherent idleWebhook.
Proof.
  split.
  - intros key. simpl. rewrite lookup_empty. split.
    + intros [? ?]. discriminate.
    + intros (? & [] & _).
  - intros ? [].
Qed.

(** Serving a request keeps the map and the jobs in agreement. *)
Lemma serve_coherent key jobId body wh :
  coherent wh -> coherent (snd (serve key jobId body wh)).
Proof.
  intros [Hkeys Hjobs]. unfold serve, postRunBot.
  destruct (keyRejected key (body_apiKey body)); [split; auto|].
  destruct (body_accounts body) as [[|first others]|]; [split; auto| |split; auto].
  destruct (validateAccounts (first :: others)) as [names|]; [|split; auto].
  destruct (activeJobs wh !! join "," (arraySort compareStrings names)) eqn:Elook;
    [split; auto|].
  cbn [snd]. split.
  - intros k. simpl (activeJobs _). simpl (inFlight _).
    rewrite lookup_insert_is_Some. split.
    + intros [<-|[Hne Hsome]].
      * eexists. split; [apply in_or_app; right; left; reflexivity|reflexivity].
      * apply Hkeys in Hsome as (job & Hin & Hk).
        exists job. split; [apply in_or_app; auto|exact Hk].
    + intros (job & Hin & Hk). apply in_app_or in Hin as [Hin|[<-|[]]].
      * destruct (decide (join "," (arraySort compareStrings names) = k)); auto.
        right. split; [assumption|]. apply Hkeys. eauto.
      * left. exact Hk.
  - intros job Hin. simpl (inFlight _) in Hin.
    apply in_app_or in Hin as [Hin|[<-|[]]]; auto.
Qed.

(** So does the end of a background job. *)
Lemma finish_coherent env cfg job wh w :
  coherent wh -> coherent (snd (fst (finish env cfg job wh w))).
Proof.
  intros [Hkeys Hjobs]. unfold finish, runBotInBackground.
  assert (H : coherent
    {| activeJobs := delete (job_key job) (activeJobs wh);
       inFlight := List.filter
                     (fun j => negb (String.eqb (job_key j) (job_key job)))
                     (inFlight wh) |}).
  { split; simpl.
    - intros k. rewrite lookup_delete_is_Some. split.
      + intros [Hne Hsome]. apply Hkeys in Hsome as (j & Hin & Hk).
        exists j. split; [|exact Hk]. apply List.filter_In. split; [exact Hin|].
        apply negb_true_iff, String.eqb_neq. congruence.
      + intros (j & Hin & Hk). apply List.filter_In in Hin as [Hin Hne].
        apply negb_true_iff, String.eqb_neq in Hne. split; [congruence|].
        apply Hkeys. eauto.
    - intros j Hin. apply List.filter_In in Hin as [Hin _]. auto. }
  destruct (processTargets env cfg (job_accounts job) w) as [[?|?] ?]; exact H.
Qed.

(** ** C9: the webhook *)

(** C9, as the code has it. Take a request that passes the API-key check
    and the validation of its accounts, in a state where the active keys
    agree with the jobs in flight.  If its sorted account list is that of a
    job in flight, the response is 409, no job is started and nothing
    changes.  If no job in flight has its sorted account list, and the
    names involved hold no comma, the response is 202 with the job
    identifier, the key is marked and one background job is started for
    the sorted accounts.  When a background job finishes, however
    [processTargets] ended, its key is no longer marked. *)
Theorem run_bot_conflict_accept_release
    (key : option string) (jobId : string) (body : RunBotBody)
    (names : list string) (wh : Webhook) :
  coherent wh ->
  keyRejected key (body_apiKey body) = false ->
  validNames body names ->
  ((exists job, In job (inFlight wh)
                /\ job_accounts job = arraySort compareStrings names) ->
   serve key jobId body wh = (Conflict (arraySort compareStrings names), wh)
   /\ status (fst (serve key jobId body wh)) = 409)
  /\ ((forall job, In job (inFlight wh) ->
                   job_accounts job <> arraySort compareStrings names) ->
      Forall (fun s => hasComma s = false) names ->
      (forall job, In job (inFlight wh) -> Forall plainName (job_accounts job)) ->
      let job := {| job_accounts := arraySort compareStrings names;
                    job_id := jobId; job_key := jobKeyOf names |} in
      serve key jobId body wh
      = (Accepted jobId (arraySort compareStrings names),
         {| activeJobs := <[jobKeyOf names := true]> (activeJobs wh);
            inFlight := inFlight wh ++ [job] |})
      /\ status (fst (serve key jobId body wh)) = 202)
  /\ (forall env cfg job wh0 w,
        activeJobs (snd (fst (finish env cfg job wh0 w))) !! job_key job = None
        /\ forall j, In j (inFlight (snd (fst (finish env cfg job wh0 w)))) ->
                     job_key j <> job_key job).
Proof.
  intros [Hkeys Hjobs] Hkey Hvalid.
  pose proof (postRunBot_valid key jobId body (activeJobs wh) names Hkey Hvalid) as Hpost.
  split; [|split].
  - intros (job & Hin & Hacc).
    assert (Hsome : is_Some (activeJobs wh !! jobKeyOf names)).
    { apply Hkeys. exists job. split; [exact Hin|].
      rewrite (Hjobs job Hin), Hacc. reflexivity. }
    destruct Hsome as [b Hb]. rewrite Hb in Hpost.
    unfold serve. rewrite Hpost. simpl. destruct wh; auto.
  - intros Hnone Hplain Hflight job.
    assert (Hfree : activeJobs wh !! jobKeyOf names = None).
    { destruct (activeJobs wh !! jobKeyOf names) eqn:Elook; [|reflexivity].
      exfalso.
      assert (Hsome : is_Some (activeJobs wh !! jobKeyOf names)) by eauto.
      apply Hkeys in Hsome as (j & Hin & Hk).
      apply (Hnone j Hin). rewrite (Hjobs j Hin) in Hk.
      apply join_injective; [auto| |exact Hk].
      apply Forall_arraySort.
      destruct Hvalid as (first & others & _ & Hv).
      apply validateAccounts_names in Hv.
      rewrite List.Forall_forall in Hv, Hplain |- *.
      intros s Hs. split; auto. }
    rewrite Hfree in Hpost. unfold serve. rewrite Hpost. auto.
  - intros env cfg job wh0 w. unfold finish, runBotInBackground.
    destruct (processTargets env cfg (job_accounts job) w) as [[?|?] ?]; simpl;
      (split; [apply lookup_delete_eq|]);
      intros j Hin; apply List.filter_In in Hin as [_ Hne];
      apply negb_true_iff, String.eqb_neq in Hne; exact Hne.
Qed.

(** A job for two accounts is in flight; the same accounts in the other
    order are refused with 409. *)
Lemma run_bot_witness :
  let wh := snd (serve None "job-1" (bodyOf ["drshievag"; "lifebytosin"] None)
                   idleWebhook) in
  status (fst (serve None "job-2" (bodyOf ["lifebytosin"; "drshievag"] None) wh))
  = 409
  /\ snd (serve None "job-2" (bodyOf ["lifebytosin"; "drshievag"] None) wh) = wh.
Proof.
  cbv zeta.
  destruct (run_bot_conflict_accept_release None "job-2"
              (bodyOf ["lifebytosin"; "drshievag"] None)
              ["lifebytosin"; "drshievag"]
              (snd (serve None "job-1" (bodyOf ["drshievag"; "lifebytosin"] None)
                      idleWebhook)))
    as (H409 & _ & _).
  - apply serve_coherent, coherent_idle.
  - reflexivity.
  - eexists _, _. split; reflexivity.
  - destruct H409 as [Heq Hst].
    + eexists. split; [left; reflexivity|]. vm_compute. reflexivity.
    + split; [exact Hst|]. rewrite Heq. reflexivity.
Defined.

(** C9, as stated, fails: with an API key configured, a request that
    names the accounts of a job in flight and carries no key is answered
    401, not 409. *)
Lemma run_bot_counterexample :
  let wh := snd (serve (Some "s3cret") "job-1"
                   (bodyOf ["lifebytosin"] (Some "s3cret")) idleWebhook) in
  (exists job, In job (inFlight wh)
               /\ job_accounts job = arraySort compareStrings ["lifebytosin"])
  /\ status (fst (serve (Some "s3cret") "job-2" (bodyOf ["lifebytosin"] None) wh))
     = 401.
Proof.
  cbv zeta. split.
  - eexists. split; [left; reflexivity|]. vm_compute. reflexivity.
  - reflexivity.
Qed.

(** A name that holds a comma: the request for the single account
    ["a,b"] is refused while the job for ["a"; "b"] is in flight, although
    no job in flight has its account list. *)
Example comma_in_a_name_collides :
  let wh := snd (serve None "job-1" (bodyOf ["a"; "b"] None) idleWebhook) in
  (forall job, In job (inFlight wh) ->
               job_accounts job <> arraySort compareStrings ["a,b"])
  /\ status (fst (serve None "job-2" (bodyOf ["a,b"] None) wh)) = 409.
Proof.
  cbv zeta. split.
  - intros job [<-|[]]. vm_compute. discriminate.
  - vm_compute. reflexivity.
Qed.

(** ** More on the ledger: lookups and inserts *)

Lemma countDocuments_positive l platform account pid :
  (0 <? countDocuments l platform account pid) = true
  <-> In (platform, account, pid) (List.map tupleOf l).
Proof.
  unfold countDocuments. rewrite Z.ltb_lt, List.in_map_iff. split.
  - intros H.
    destruct (List.filter _ l) as [|d r] eqn:E; [simpl in H; lia|].
    assert (Hd : In d (d :: r)) by (left; reflexivity).
    rewrite <- E in Hd. apply List.filter_In in Hd as [Hin Hq].
    apply andb_true_iff in Hq as [Hq H3]. apply andb_true_iff in Hq as [H1 H2].
    apply String.eqb_eq in H1, H2, H3. exists d. unfold tupleOf.
    split; [congruence|exact Hin].
  - intros (d & Ht & Hin). unfold tupleOf in Ht. injection Ht as H1 H2 H3.
    assert (Hd : In d (List.filter
      (fun d => String.eqb (cd_platform (doc_data d)) platform
                && String.eqb (cd_targetAccount (doc_data d)) account
                && String.eqb (cd_postId (doc_data d)) pid) l)).
    { apply List.filter_In. split; [exact Hin|].
      rewrite H1, H2, H3, !String.eqb_refl. reflexivity. }
    destruct (List.filter _ l); [contradiction|simpl; lia].
Qed.

Lemma otherWriters_keep_tuples docs :
  forall l t, In t (List.map tupleOf l) ->
              In t (List.map tupleOf (otherWriters docs l)).
Proof.
  induction docs as [|d docs IH]; intros l t Hin; simpl; [exact Hin|].
  apply IH.
  destruct (insertOne_cases postMemorySchema_indexes l d) as [[-> _]|[-> _]];
    simpl; [exact Hin|].
  rewrite List.map_app. apply in_or_app. now left.
Qed.

(** X1. Insert then lookup.  After [recordComment] has resolved, a
    lookup of the recorded tuple on that ledger answers [true], and a
    lookup of any other tuple answers what it answered before the insert. *)
Theorem recordComment_then_hasCommented
    (env : Env) (data : CommentData) (w : World) :
  forall doc w',
    recordComment env data w = (Resolved doc, w') ->
    forall w2,
      ledger w2 = ledger w' ->
      storageFault env (history w2) = None ->
      hasCommented env (cd_platform data) (cd_targetAccount data) (cd_postId data) w2
      = (Resolved true, w2)
      /\ forall platform account pid,
           (platform, account, pid)
           <> (cd_platform data, cd_targetAccount data, cd_postId data) ->
           hasCommented env platform account pid w2
           = (Resolved (0 <? countDocuments (ledger w) platform account pid), w2).
Proof.
  intros doc w' Hrec w2 Hl Hfault.
  unfold recordComment in Hrec.
  destruct (storageFault env (history w)); [discriminate|].
  match type of Hrec with
  | context [insertOne ?ixs ?l0 ?d0] =>
      destruct (insertOne_cases ixs l0 d0) as [[E _]|[E _]]; rewrite E in Hrec
  end; [discriminate|].
  injection Hrec as <- <-. simpl in Hl.
  unfold hasCommented. rewrite Hfault, Hl. split.
  - f_equal. f_equal. apply countDocuments_positive.
    rewrite List.map_app. apply in_or_app. right. left. reflexivity.
  - intros platform account pid Hne. f_equal. f_equal.
    apply eq_true_iff_eq. rewrite !countDocuments_positive, List.map_app.
    rewrite in_app_iff. simpl. unfold tupleOf at 2. simpl. intuition congruence.
Qed.

Lemma recordComment_then_hasCommented_witness :
  let data := commentData "lifebytosin" postHalfDay (someDetails postHalfDay) "Lovely" in
  let w' := snd (recordComment calmEnv data emptyWorld) in
  fst (hasCommented calmEnv "instagram" "lifebytosin" "DAhalf" w') = Resolved true
  /\ fst (hasCommented calmEnv "instagram" "drshievag" "DAhalf" w') = Resolved false.
Proof.
  cbv zeta.
  destruct (recordComment_then_hasCommented calmEnv
              (commentData "lifebytosin" postHalfDay (someDetails postHalfDay) "Lovely")
              emptyWorld _ _ eq_refl _ eq_refl eq_refl) as [H1 H2].
  specialize (H2 "instagram" "drshievag" "DAhalf" ltac:(discriminate)).
  split.
  - exact (f_equal fst H1).
  - exact (f_equal fst H2).
Defined.

(** X2. The lookup and the unique index agree.  Absent a storage fault,
    [hasCommented] answers [true] for a tuple exactly when [recordComment]
    for that tuple is refused with the duplicate-key error; when it answers
    [false] the insert resolves and appends one document carrying the data. *)
Theorem hasCommented_agrees_with_unique_index
    (env : Env) (data : CommentData) (w : World) :
  storageFault env (history w) = None ->
  (fst (hasCommented env (cd_platform data) (cd_targetAccount data) (cd_postId data) w)
   = Resolved true
   <-> fst (recordComment env data w) = Rejected duplicateKeyError)
  /\ (fst (hasCommented env (cd_platform data) (cd_targetAccount data) (cd_postId data) w)
      = Resolved false ->
      exists doc,
        doc_data doc = data
        /\ fst (recordComment env data w) = Resolved doc
        /\ ledger (snd (recordComment env data w)) = ledger w ++ [doc]).
Proof.
  intros Hfault. unfold hasCommented, recordComment. rewrite Hfault. simpl.
  match goal with
  | |- context [insertOne ?ixs ?l0 ?d0] =>
      pose proof (violates_declared_indexes l0 d0) as Hv;
      change (tupleOf d0)
        with (cd_platform data, cd_targetAccount data, cd_postId data) in Hv;
      destruct (insertOne_cases ixs l0 d0) as [[E Hd]|[E Hd]]; rewrite E
  end; cbn [fst snd ledger].
  - apply Hv in Hd. apply countDocuments_positive in Hd. rewrite Hd.
    split; [tauto|discriminate].
  - assert (Hc : (0 <? countDocuments (ledger w) (cd_platform data)
                         (cd_targetAccount data) (cd_postId data)) = false).
    { destruct (0 <? countDocuments (ledger w) (cd_platform data)
                        (cd_targetAccount data) (cd_postId data)) eqn:Ec;
        [|reflexivity].
      apply countDocuments_positive, Hv in Ec. congruence. }
    rewrite Hc. split; [split; discriminate|].
    intros _. eexists. split; [|split; reflexivity]. reflexivity.
Qed.

Lemma hasCommented_agrees_witness :
  let data := commentData "lifebytosin" postHalfDay (someDetails postHalfDay) "Lovely" in
  let w' := snd (recordComment calmEnv data emptyWorld) in
  fst (recordComment calmEnv data w') = Rejected duplicateKeyError
  /\ ledger (snd (recordComment calmEnv data emptyWorld))
     = [ {| doc_data := data; commentedAt := 10 * day |} ].
Proof.
  cbv zeta. split.
  - apply (proj1 (hasCommented_agrees_with_unique_index calmEnv
                    (commentData "lifebytosin" postHalfDay (someDetails postHalfDay) "Lovely")
                    (snd (recordComment calmEnv _ emptyWorld)) eq_refl)).
    reflexivity.
  - destruct (proj2 (hasCommented_agrees_with_unique_index calmEnv
                    (commentData "lifebytosin" postHalfDay (someDetails postHalfDay) "Lovely")
                    emptyWorld eq_refl) eq_refl) as (doc & Hd & Hr & Hl).
    rewrite Hl. vm_compute in Hr. injection Hr as <-. reflexivity.
Defined.

(** ** The statistics *)

Lemma countWhere_nonneg q l : 0 <= countWhere q l.
Proof. unfold countWhere. lia. Qed.

Lemma countWhere_narrower (p q : PostMemoryDoc -> bool) l :
  countWhere (fun d => q d && p d) l <= countWhere q l.
Proof.
  unfold countWhere. apply inj_le.
  induction l as [|d l IH]; simpl; [lia|].
  destruct (q d), (p d); simpl; lia.
Qed.

Lemma countWhere_allSuccessful q l :
  allSuccessful l ->
  countWhere (fun d => q d && cd_wasSuccessful (doc_data d)) l = countWhere q l.
Proof.
  unfold countWhere. intros H. f_equal. f_equal.
  induction H as [|d l Hd _ IH]; simpl; [reflexivity|].
  rewrite Hd, andb_true_r, IH. reflexivity.
Qed.

(** X3. The arithmetic of [getStats].  When no other run writes between
    its two counts, the resolved statistics satisfy
    [total = successful + failed] with [0 <= successful <= total] and
    [0 <= failed], the success rate lies between 0 and 100 and is 0 for an
    empty window, and the ledger is left as it was.  An empty account name
    is treated like no account: the statistics then cover all accounts. *)
Theorem getStats_arithmetic
    (env : Env) (setDateBack : Z -> Z -> Z) (account : option string)
    (days : Z) (w : World) :
  racingWrites env (history w) = [] ->
  forall stats w',
    getStats env setDateBack account days w = (Resolved stats, w') ->
    cs_total stats = cs_successful stats + cs_failed stats
    /\ 0 <= cs_successful stats <= cs_total stats
    /\ 0 <= cs_failed stats
    /\ QArith_base.Qle (QArith_base.inject_Z 0) (cs_successRate stats)
    /\ QArith_base.Qle (cs_successRate stats) (QArith_base.inject_Z 100)
    /\ (cs_total stats = 0 -> cs_successRate stats = QArith_base.inject_Z 0)
    /\ w' = w
    /\ getStats env setDateBack (Some "") days w
       = getStats env setDateBack None days w.
Proof.
  intros Hquiet stats w' Hrun. unfold getStats in Hrun.
  destruct (storageFault env (history w)); [discriminate|].
  rewrite Hquiet in Hrun. simpl in Hrun. injection Hrun as <- <-. simpl.
  set (q := statsQuery account (setDateBack (clock env (history w)) days)).
  pose proof (countWhere_nonneg q (ledger w)) as Ht.
  pose proof (countWhere_nonneg (fun d => q d && cd_wasSuccessful (doc_data d))
                (ledger w)) as Hs.
  pose proof (countWhere_narrower (fun d => cd_wasSuccessful (doc_data d)) q
                (ledger w)) as Hle.
  cbv beta in Hle.
  split; [lia|]. split; [lia|]. split; [lia|].
  split; [|split; [|split; [|split]]].
  - destruct (0 <? countWhere q (ledger w)) eqn:E;
      unfold QArith_base.Qle; simpl; lia.
  - destruct (0 <? countWhere q (ledger w)) eqn:E.
    + apply Z.ltb_lt in E. unfold QArith_base.Qle. simpl.
      rewrite ?Pos.mul_1_r, Z2Pos.id by exact E. lia.
    + unfold QArith_base.Qle. simpl. lia.
  - intros H0. rewrite H0. reflexivity.
  - destruct w. reflexivity.
  - reflexivity.
Qed.

(** The ledger after [engage]: untouched, or what the other writers
    made of it, with at most one document of this run appended. *)
Lemma engage_ledger env account latest w :
  ledger (snd (engage env account latest w)) = ledger w
  \/ exists h,
       ledger (snd (engage env account latest w))
       = otherWriters (racingWrites env h) (ledger w)
       \/ exists d text,
            ledger (snd (engage env account latest w))
            = otherWriters (racingWrites env h) (ledger w)
              ++ [ {| doc_data := commentData account latest d text;
                      commentedAt := clock env h |} ].
Proof.
  unfold engage, bind, await, oracle, contended, recordComment.
  destruct (postDetails env (history w) (p_postUrl latest)) as [[d|]|e]; simpl; auto.
  match goal with
  | |- context [generateInstagramComment env ?h ?a ?b ?c] =>
      destruct (generateInstagramComment env h a b c) as [text|e]; simpl; auto
  end.
  destruct (String.eqb text ""); simpl; auto.
  match goal with
  | |- context [postComment env ?h ?a ?b] =>
      destruct (postComment env h a b) as [[]|e]; simpl; auto
  end.
  match goal with
  | |- context [storageFault env ?h] =>
      destruct (storageFault env h) as [e|]
  end.
  { simpl. right. eexists. left. reflexivity. }
  match goal with
  | |- context [insertOne ?ixs ?l ?doc] =>
      destruct (insertOne_cases ixs l doc) as [[-> _]|[-> _]]
  end; simpl; right; eexists.
  - left. reflexivity.
  - right. eexists _, _. reflexivity.
Qed.

Lemma commentOnLatestPost_ledger env cfg account w :
  ledger (snd (commentOnLatestPost env cfg account w)) = ledger w
  \/ exists h,
       ledger (snd (commentOnLatestPost env cfg account w))
       = otherWriters (racingWrites env h) (ledger w)
       \/ exists latest d text,
            ledger (snd (commentOnLatestPost env cfg account w))
            = otherWriters (racingWrites env h) (ledger w)
              ++ [ {| doc_data := commentData account latest d text;
                      commentedAt := clock env h |} ].
Proof.
  unfold commentOnLatestPost, tryCatch, tryBlock, bind.
  destruct (selectLatestEligible_run env cfg account w) as (tr & _ & Hl & _ & _).
  destruct (selectLatestEligible env cfg account w) as [[latest|r|e] w1];
    simpl in Hl; simpl; auto.
  destruct (engage_ledger env account latest w1) as [H|(h & [H|(d & text & H)])];
    destruct (engage env account latest w1) as [[r|r|e] w2]; simpl in *;
    rewrite H, ?Hl; eauto 7.
Qed.

(** X4. Only successes are recorded.  If every stored document is marked
    successful and so is every document other runs write, this still holds
    after a batch; and on such a ledger, with no write between the two
    counts, the statistics of the service report [failed = 0], with a
    success rate of 100 as soon as the window holds a record. *)
Theorem only_successes_are_recorded
    (env : Env) (cfg : BotConfig) (setDateBack : Z -> Z -> Z) :
  (forall h, allSuccessful (racingWrites env h)) ->
  (forall targetAccounts w,
     allSuccessful (ledger w) ->
     allSuccessful (ledger (snd (processTargets env cfg targetAccounts w))))
  /\ (forall days w period stats w',
        allSuccessful (ledger w) ->
        racingWrites env (history w) = [] ->
        serviceGetStats env setDateBack days w = (Resolved (period, stats), w') ->
        cs_failed stats = 0
        /\ cs_successful stats = cs_total stats
        /\ (0 < cs_total stats ->
            QArith_base.Qeq (cs_successRate stats) (QArith_base.inject_Z 100))).
Proof.
  intros Hothers.
  assert (Hwriters : forall docs l,
            allSuccessful docs -> allSuccessful l ->
            allSuccessful (otherWriters docs l)).
  { induction docs as [|d docs IH]; intros l Hd Hl; simpl; [exact Hl|].
    apply Forall_cons in Hd as [Hd Hdocs]. apply IH; [exact Hdocs|].
    destruct (insertOne_cases postMemorySchema_indexes l d) as [[-> _]|[-> _]];
      simpl; [exact Hl|].
    apply Forall_app. split; [exact Hl|]. constructor; [exact Hd|constructor]. }
  assert (Hone : forall account w,
            allSuccessful (ledger w) ->
            allSuccessful (ledger (snd (commentOnLatestPost env cfg account w)))).
  { intros account w Hw.
    destruct (commentOnLatestPost_ledger env cfg account w)
      as [->|(h & [->|(latest & d & text & ->)])]; [exact Hw| |].
    - apply Hwriters; auto.
    - apply Forall_app. split; [apply Hwriters; auto|].
      constructor; [reflexivity|constructor]. }
  split.
  - intros targetAccounts w Hw. unfold processTargets.
    assert (Hloop : forall acc w0,
              allSuccessful (ledger w0) ->
              allSuccessful (ledger (snd (processLoop env cfg targetAccounts acc w0)))).
    { induction targetAccounts as [|a rest IH]; intros acc w0 H0; simpl; [exact H0|].
      destruct (processOne_run env cfg a acc w0) as (res & w1 & Heq & _ & ->).
      apply IH. simpl. specialize (Hone a w0 H0). now rewrite Heq in Hone. }
    specialize (Hloop [] w Hw).
    destruct (processLoop env cfg targetAccounts [] w). exact Hloop.
  - intros days w period stats w' Hw Hquiet Hrun.
    unfold serviceGetStats, getStats in Hrun.
    destruct (storageFault env (history w)); [discriminate|].
    rewrite Hquiet in Hrun. simpl in Hrun. injection Hrun as _ <- _. simpl.
    rewrite (countWhere_allSuccessful _ _ Hw).
    split; [lia|]. split; [reflexivity|].
    intros Hpos. apply Z.ltb_lt in Hpos as Hpos'. rewrite Hpos'.
    unfold QArith_base.Qeq. simpl.
    rewrite ?Pos.mul_1_r, Z2Pos.id by exact Hpos. lia.
Qed.

Lemma getStats_witness :
  match fst (getStats calmEnv plainDays (Some "lifebytosin") 7 afterOneBatch) with
  | Resolved stats =>
      cs_total stats = 1 /\ cs_total stats = cs_successful stats + cs_failed stats
      /\ 0 <= cs_failed stats
  | Rejected _ => False
  end.
Proof.
  destruct (getStats calmEnv plainDays (Some "lifebytosin") 7 afterOneBatch)
    as [[stats|e] w'] eqn:E.
  - destruct (getStats_arithmetic calmEnv plainDays (Some "lifebytosin") 7
                afterOneBatch eq_refl stats w' E) as (H1 & _ & H3 & _).
    simpl. split; [|split; assumption].
    vm_compute in E. injection E as <- _. reflexivity.
  - vm_compute in E. discriminate.
Defined.

Lemma only_successes_witness :
  allSuccessful (ledger afterOneBatch)
  /\ match fst (serviceGetStats calmEnv plainDays 7 afterOneBatch) with
     | Resolved (_, stats) => cs_failed stats = 0 /\ cs_total stats = 3
     | Rejected _ => False
     end.
Proof.
  destruct (only_successes_are_recorded calmEnv botConfig plainDays
              (fun _ => Forall_nil_2 _)) as [Hbatch Hstats].
  assert (Hall : allSuccessful (ledger afterOneBatch)).
  { apply Hbatch. constructor. }
  split; [exact Hall|].
  destruct (serviceGetStats calmEnv plainDays 7 afterOneBatch)
    as [[[period stats]|e] w'] eqn:E.
  - destruct (Hstats 7 afterOneBatch period stats w' Hall eq_refl E) as (H1 & _).
    simpl. split; [exact H1|].
    vm_compute in E. injection E as _ <- _. reflexivity.
  - vm_compute in E. discriminate.
Defined.

(** ** The latest recorded comment *)

Section SortByKey.

Context {A : Type} (key : A -> Z).

(** The first element after sorting by decreasing key is an element
    with the greatest key. *)
Lemma head_of_sorted_by_key l x :
  hd_error (arraySort (fun a b => key b - key a) l) = Some x ->
  In x l /\ forall y, In y l -> key y <= key x.
Proof.
  revert x. induction l as [|a l IH]; intros x Hhd; simpl in Hhd; [discriminate|].
  destruct (arraySort (fun a b => key b - key a) l) as [|y s] eqn:Es; simpl in Hhd.
  - injection Hhd as <-.
    assert (l = []) as ->.
    { destruct l as [|b l]; [reflexivity|].
      assert (Hb : In b (arraySort (fun a b => key b - key a) (b :: l)))
        by (apply In_arraySort; left; reflexivity).
      rewrite Es in Hb. contradiction. }
    split; [left; reflexivity|]. intros y [<-|[]]. lia.
  - destruct (IH y eq_refl) as [Hy Hmax].
    destruct (key y - key a <=? 0) eqn:E; injection Hhd as <-.
    + apply Z.leb_le in E. split; [left; reflexivity|].
      intros z [<-|Hz]; [lia|]. specialize (Hmax z Hz). lia.
    + apply Z.leb_gt in E. split; [right; exact Hy|].
      intros z [<-|Hz]; [lia|auto].
Qed.

Lemma head_of_sorted_none (compare : A -> A -> Z) l :
  hd_error (arraySort compare l) = None -> l = [].
Proof.
  destruct l as [|a l]; [reflexivity|]. simpl.
  destruct (arraySort compare l) as [|y s]; simpl; [discriminate|].
  destruct (compare a y <=? 0); discriminate.
Qed.

End SortByKey.

(** X5. [getLastPostTimestamp].  Absent a storage fault it resolves with
    [null] exactly when the account has no document marked successful;
    otherwise with the [commentedAt] of such a document, and no successful
    document of the account has a later one.  Documents of other accounts
    and unsuccessful ones do not count. *)
Theorem getLastPostTimestamp_is_latest
    (env : Env) (account : string) (w : World) :
  storageFault env (history w) = None ->
  exists answer,
    getLastPostTimestamp env account w = (Resolved answer, w)
    /\ (answer = None <->
        forall d, In d (ledger w) ->
                  cd_targetAccount (doc_data d) = account ->
                  cd_wasSuccessful (doc_data d) = false)
    /\ forall t, answer = Some t ->
         (exists d, In d (ledger w)
                    /\ cd_targetAccount (doc_data d) = account
                    /\ cd_wasSuccessful (doc_data d) = true
                    /\ commentedAt d = t)
         /\ forall d, In d (ledger w) ->
                      cd_targetAccount (doc_data d) = account ->
                      cd_wasSuccessful (doc_data d) = true ->
                      commentedAt d <= t.
Proof.
  intros Hfault. unfold getLastPostTimestamp. rewrite Hfault.
  set (matching := List.filter _ (ledger w)).
  assert (Hm : forall d, In d matching <->
                         In d (ledger w)
                         /\ cd_targetAccount (doc_data d) = account
                         /\ cd_wasSuccessful (doc_data d) = true).
  { intros d. unfold matching. rewrite List.filter_In, andb_true_iff, String.eqb_eq.
    tauto. }
  eexists. split; [reflexivity|]. split.
  - split.
    + intros Hnone d Hin Hacc.
      destruct (hd_error (arraySort latestCommentFirst matching)) eqn:E;
        [discriminate|].
      apply head_of_sorted_none in E.
      destruct (cd_wasSuccessful (doc_data d)) eqn:Es; [|reflexivity].
      assert (Hd : In d matching) by (apply Hm; auto).
      rewrite E in Hd. contradiction.
    + intros Hnone.
      destruct (hd_error (arraySort latestCommentFirst matching)) as [x|] eqn:E;
        [|reflexivity].
      apply (head_of_sorted_by_key commentedAt) in E as [Hx _].
      apply Hm in Hx as (Hin & Hacc & Hs).
      rewrite (Hnone x Hin Hacc) in Hs. discriminate.
  - intros t Ht.
    destruct (hd_error (arraySort latestCommentFirst matching)) as [x|] eqn:E;
      [|discriminate].
    injection Ht as <-.
    apply (head_of_sorted_by_key commentedAt) in E as [Hx Hmax].
    split.
    + exists x. apply Hm in Hx as (? & ? & ?). auto.
    + intros d Hin Hacc Hs. apply Hmax, Hm. auto.
Qed.

Lemma getLastPostTimestamp_witness :
  fst (getLastPostTimestamp calmEnv "drshievag" afterOneBatch) = Resolved (Some (10 * day))
  /\ fst (getLastPostTimestamp calmEnv "nobody" afterOneBatch) = Resolved None.
Proof.
  destruct (getLastPostTimestamp_is_latest calmEnv "drshievag" afterOneBatch eq_refl)
    as (answer & Heq & _ & _).
  split.
  - rewrite Heq. vm_compute in Heq. injection Heq as <-. reflexivity.
  - vm_compute. reflexivity.
Defined.

(** ** At most once *)

Lemma isSubmission_after ev : isSubmission ev = true -> afterSelection ev = true.
Proof. destruct ev; simpl; congruence. Qed.

Lemma filter_before_selection (P : Event -> bool) tr :
  (forall ev, P ev = true -> afterSelection ev = true) ->
  Forall (fun ev => afterSelection ev = false) tr ->
  List.filter P tr = [].
Proof.
  intros HP. induction 1 as [|ev tr Hev _ IH]; simpl; [reflexivity|].
  destruct (P ev) eqn:E; [|exact IH]. apply HP in E. congruence.
Qed.

(** X6. What a run does to the ledger.  A run never removes a record and
    calls [postComment] at most once.  If its result is [commented], the
    post was not in the ledger before the run, the comment was submitted,
    and the ledger now ends with one new document for
    [("instagram", account, postId)], marked successful and holding the
    submitted text.  With any other result the run added no document of its
    own. *)
Theorem commented_means_fresh_and_recorded
    (env : Env) (cfg : BotConfig) (account : string) (w : World) :
  exists res w' tr,
    commentOnLatestPost env cfg account w = (Resolved res, w')
    /\ history w' = history w ++ tr
    /\ (forall t, In t (List.map tupleOf (ledger w)) ->
                  In t (List.map tupleOf (ledger w')))
    /\ (length (List.filter isSubmission tr) <= 1)%nat
    /\ (action res = commented ->
        exists pid text doc others,
          postId res = Some pid /\ comment res = Some text
          /\ ~ In ("instagram", account, pid) (List.map tupleOf (ledger w))
          /\ (exists url, In (EvPostComment url text (Resolved tt)) tr)
          /\ ledger w' = otherWriters others (ledger w) ++ [doc]
          /\ tupleOf doc = ("instagram", account, pid)
          /\ cd_wasSuccessful (doc_data doc) = true
          /\ cd_commentText (doc_data doc) = text)
    /\ (action res <> commented ->
        exists others, ledger w' = otherWriters others (ledger w)).
Proof.
  destruct (commentOnLatestPost_run env cfg account w)
    as (res & w' & trSel & Heq & Hpre & Hcase).
  pose proof (filter_before_selection _ _ isSubmission_after Hpre) as Hsub.
  destruct Hcase as [(Hl & Hh & Hres)
                    |(latest & cands & now & fl & trEng & _ & _ & _ & _ & Hrun & Hh & Hres)].
  - exists res, w', trSel. split; [exact Heq|]. split; [exact Hh|].
    split; [rewrite Hl; auto|]. split; [rewrite Hsub; simpl; lia|]. split.
    + intros Ha. destruct Hres as [(Hs & _)|(e & ->)]; [congruence|discriminate].
    + intros _. exists []. rewrite Hl. reflexivity.
  - exists res, w', (trSel ++ trEng). split; [exact Heq|]. split; [exact Hh|].
    rewrite List.filter_app, Hsub. simpl. subst res.
    remember (ledger w') as l' eqn:El'.
    destruct Hrun as [e| |d e|d|d text e Htext|d text e others Htext
                     |d text others doc Htext Hdata Hdup
                     |d text others doc Htext Hdata Hdup]; simpl;
      try (split; [rewrite El'; auto|]; split; [lia|]; split; [discriminate|];
           intros _; exists []; rewrite El'; reflexivity).
    + split; [intros t Ht; now apply otherWriters_keep_tuples|].
      split; [lia|]. split; [discriminate|]. intros _. eauto.
    + split; [intros t Ht; now apply otherWriters_keep_tuples|].
      split; [lia|]. split; [discriminate|]. intros _. eauto.
    + split.
      { intros t Ht. rewrite List.map_app. apply in_or_app. left.
        now apply otherWriters_keep_tuples. }
      split; [lia|]. split; [|congruence].
      intros _. exists (p_postId latest), text, doc, others.
      assert (Htuple : tupleOf doc = ("instagram", account, p_postId latest)).
      { unfold tupleOf. rewrite Hdata. reflexivity. }
      split; [reflexivity|]. split; [reflexivity|]. split.
      { intros Hin. apply (otherWriters_keep_tuples others) in Hin.
        rewrite <- Htuple in Hin. apply violates_declared_indexes in Hin.
        congruence. }
      split.
      { exists (p_postUrl latest). apply in_or_app. right. simpl. auto. }
      split; [reflexivity|]. split; [exact Htuple|].
      rewrite Hdata. split; reflexivity.
Qed.

(** The key a result reports was not in the ledger before the run and is
    in it afterwards; no key is lost. *)
Lemma commentedKey_effect env cfg account w :
  exists res w',
    commentOnLatestPost env cfg account w = (Resolved res, w')
    /\ (forall t, In t (List.map tupleOf (ledger w)) ->
                  In t (List.map tupleOf (ledger w')))
    /\ forall k, commentedKey res = Some k ->
                 ~ In k (List.map tupleOf (ledger w))
                 /\ In k (List.map tupleOf (ledger w')).
Proof.
  destruct (commentOnLatestPost_run env cfg account w)
    as (res & w' & trSel & Heq & _ & Hcase).
  exists res, w'. split; [exact Heq|].
  destruct Hcase as [(Hl & _ & Hres)
                    |(latest & cands & now & fl & trEng & _ & _ & _ & _ & Hrun & _ & Hres)].
  - rewrite Hl. split; [auto|]. intros k Hk. unfold commentedKey in Hk.
    destruct Hres as [(Ha & _)|(e & ->)]; [rewrite Ha in Hk|]; discriminate.
  - subst res. remember (ledger w') as l' eqn:El'.
    destruct Hrun as [e| |d e|d|d text e Htext|d text e others Htext
                     |d text others doc Htext Hdata Hdup
                     |d text others doc Htext Hdata Hdup]; simpl;
      try (split; [auto|discriminate]).
    + intros t Ht. now apply otherWriters_keep_tuples.
    + intros t Ht. now apply otherWriters_keep_tuples.
    + assert (Htuple : tupleOf doc = ("instagram", account, p_postId latest)).
      { unfold tupleOf. rewrite Hdata. reflexivity. }
      split.
      { intros t Ht. rewrite List.map_app. apply in_or_app. left.
        now apply otherWriters_keep_tuples. }
      intros k Hk. unfold commentedKey in Hk. simpl in Hk. injection Hk as <-.
      split.
      * intros Hin. apply (otherWriters_keep_tuples others) in Hin.
        rewrite <- Htuple in Hin. apply violates_declared_indexes in Hin.
        congruence.
      * rewrite List.map_app. apply in_or_app. right. left. exact Htuple.
Qed.

(** X7. No post twice in a batch.  The results of [processTargets] that
    report a comment name pairwise different ledger keys, also when an
    account is listed more than once; none of these keys was in the ledger
    before the batch, and all of them are in it afterwards. *)
Theorem batch_never_comments_twice
    (env : Env) (cfg : BotConfig) (targetAccounts : list string) (w : World) :
  exists results w',
    processTargets env cfg targetAccounts w = (Resolved results, w')
    /\ NoDup (commentedKeys results)
    /\ forall k, In k (commentedKeys results) ->
                 ~ In k (List.map tupleOf (ledger w))
                 /\ In k (List.map tupleOf (ledger w')).
Proof.
  unfold processTargets.
  assert (Hkeys_app : forall a b, commentedKeys (a ++ b) = commentedKeys a ++ commentedKeys b).
  { induction a as [|r a IH]; intros b; simpl; [reflexivity|].
    destruct (commentedKey r); simpl; now rewrite IH. }
  assert (Hloop : forall accs acc w0,
    (forall t, In t (List.map tupleOf (ledger w)) -> In t (List.map tupleOf (ledger w0))) ->
    NoDup (commentedKeys acc) ->
    (forall k, In k (commentedKeys acc) ->
               ~ In k (List.map tupleOf (ledger w))
               /\ In k (List.map tupleOf (ledger w0))) ->
    NoDup (commentedKeys (fst (processLoop env cfg accs acc w0)))
    /\ forall k, In k (commentedKeys (fst (processLoop env cfg accs acc w0))) ->
                 ~ In k (List.map tupleOf (ledger w))
                 /\ In k (List.map tupleOf
                            (ledger (snd (processLoop env cfg accs acc w0))))).
  { induction accs as [|a rest IH]; intros acc w0 Hmono Hnd Hin; simpl; [auto|].
    destruct (processOne_run env cfg a acc w0) as (res & w1 & Heq & Hacc & ->).
    destruct (commentedKey_effect env cfg a w0)
      as (res' & w1' & Heq' & Hkeep & Hkey).
    rewrite Heq in Heq'. injection Heq' as <- <-.
    apply IH.
    - intros t Ht. simpl. auto.
    - rewrite Hkeys_app. simpl.
      destruct (commentedKey res) as [k|] eqn:Ek; [|now rewrite app_nil_r].
      apply NoDup_app. split; [exact Hnd|]. split; [|apply NoDup_singleton].
      intros x Hx Hx'. apply list_elem_of_In in Hx, Hx'. destruct Hx' as [<-|[]].
      destruct (Hkey k eq_refl) as [Hfresh _]. apply Hfresh, (Hin _ Hx).
    - intros k Hk. rewrite Hkeys_app in Hk. simpl.
      apply in_app_or in Hk as [Hk|Hk].
      + destruct (Hin k Hk). auto.
      + simpl in Hk. destruct (commentedKey res) as [k'|] eqn:Ek; [|contradiction].
        destruct Hk as [<-|[]]. destruct (Hkey k' eq_refl) as [Hfresh Hnow].
        split; [|exact Hnow]. intros Hold. apply Hfresh. auto. }
  destruct (Hloop targetAccounts [] w (fun _ H => H) NoDup_nil_2
              (fun _ (H : In _ []) => match H with end)) as [H1 H2].
  destruct (processLoop env cfg targetAccounts [] w) as [results w'].
  exists results, w'. auto.
Qed.

(** The same account three times over: three different posts at most. *)
Example same_account_thrice :
  option_map commentedKeys
    (match fst (processTargets calmEnv botConfig
                  ["lifebytosin"; "lifebytosin"; "lifebytosin"] emptyWorld) with
     | Resolved results => Some results
     | Rejected _ => None
     end)
  = Some [("instagram", "lifebytosin", "DAhalf");
          ("instagram", "lifebytosin", "DAnine")].
Proof. vm_compute. reflexivity. Qed.

(** ** What the pipeline reads of the configuration *)

Section SameAgeFilter.

Variable env : Env.
Variables cfg1 cfg2 : BotConfig.
Hypothesis same_age : maxPostAge (filtering cfg1) = maxPostAge (filtering cfg2).

Lemma tooOld_same now post : tooOld cfg1 now post = tooOld cfg2 now post.
Proof. unfold tooOld, maxPostAgeMs, maxPostAgeDays. now rewrite same_age. Qed.

Lemma collectEligible_same account now posts :
  forall eligiblePosts w,
    collectEligible env cfg1 (R:=CommentResult) account now posts eligiblePosts w
    = collectEligible env cfg2 account now posts eligiblePosts w.
Proof.
  induction posts as [|post rest IH]; intros acc w; simpl; [reflexivity|].
  rewrite tooOld_same. destruct (tooOld cfg2 now post); [apply IH|].
  unfold bind.
  destruct (await (hasCommented env "instagram" account (p_postId post))
              (EvHasCommented account (p_postId post)) w) as [[[]| |] w1];
    auto.
Qed.

Lemma selectLatestEligible_same account w :
  selectLatestEligible env cfg1 account w = selectLatestEligible env cfg2 account w.
Proof.
  unfold selectLatestEligible, bind.
  destruct (await (oracle (igClient env)) EvGetIgClient w) as [[[]| |] w1]; auto.
  destruct (await (getLastFourPosts env account) (EvGetLastFourPosts account) w1)
    as [[[|p ps]| |] w2]; auto.
  destruct (newDate env w2) as [[now| |] w3]; auto.
  rewrite collectEligible_same.
  destruct (collectEligible env cfg2 account now (p :: ps) [] w3) as [[[|l ls]| |] w4];
    auto.
  unfold maxPostAgeDays. now rewrite same_age.
Qed.

Lemma commentOnLatestPost_same account w :
  commentOnLatestPost env cfg1 account w = commentOnLatestPost env cfg2 account w.
Proof.
  unfold commentOnLatestPost, tryCatch, tryBlock, bind.
  now rewrite selectLatestEligible_same.
Qed.

End SameAgeFilter.

(** X8. The pipeline never consults the caption-length gate.  Two
    configurations with the same [maxPostAge] give the same run of
    [commentOnLatestPost], result and effects alike, whatever their
    caption-length bounds, [skipDuplicates] flag or other settings; if they
    also have the same [betweenPosts] window they give the same batch. *)
Theorem pipeline_ignores_caption_gate
    (env : Env) (cfg1 cfg2 : BotConfig) :
  maxPostAge (filtering cfg1) = maxPostAge (filtering cfg2) ->
  (forall account w,
     commentOnLatestPost env cfg1 account w = commentOnLatestPost env cfg2 account w)
  /\ (betweenPosts (timing cfg1) = betweenPosts (timing cfg2) ->
      forall targetAccounts w,
        processTargets env cfg1 targetAccounts w
        = processTargets env cfg2 targetAccounts w).
Proof.
  intros Hage. split; [apply commentOnLatestPost_same; exact Hage|].
  intros Hbetween targetAccounts w. unfold processTargets.
  assert (Hloop : forall acc w0,
            processLoop env cfg1 targetAccounts acc w0
            = processLoop env cfg2 targetAccounts acc w0).
  { induction targetAccounts as [|a rest IH]; intros acc w0; simpl; [reflexivity|].
    unfold processOne, betweenAccountsDelay.
    rewrite (commentOnLatestPost_same env cfg1 cfg2 Hage), Hbetween.
    destruct (commentOnLatestPost env cfg2 a w0) as [[res|e] w1]; apply IH. }
  now rewrite Hloop.
Qed.

(** The gate rejects a caption of 48 characters, and the run comments on
    the post all the same, as it does with the gate switched off. *)
Lemma pipeline_ignores_gate_witness :
  allowed (shouldCommentBasedOnLength botConfig 48) = false
  /\ commentOnLatestPost calmEnv botConfig "lifebytosin" emptyWorld
     = commentOnLatestPost calmEnv botConfigWithoutGate "lifebytosin" emptyWorld
  /\ option_map (fun r => (action r, r_captionLength r))
       (match fst (commentOnLatestPost calmEnv botConfig "lifebytosin" emptyWorld) with
        | Resolved r => Some r
        | Rejected _ => None
        end) = Some (commented, Some 48).
Proof.
  split; [reflexivity|]. split.
  - apply (proj1 (pipeline_ignores_caption_gate calmEnv botConfig
                    botConfigWithoutGate eq_refl)).
  - vm_compute. reflexivity.
Defined.

(** ** The sleeps of a batch *)

(** X9. Every sleep of a batch lies in the configured window.  The
    delay is computed as the code computes it, in binary64 arithmetic with
    its two roundings; when [0 <= betweenPosts.min <= betweenPosts.max] and
    [max] is below 2^53, each delay [processTargets] waits is at least [min]
    and at most [max], both ends included. *)
Theorem batch_sleeps_within_window
    (env : Env) (cfg : BotConfig) (targetAccounts : list string) (w : World) :
  0 <= bp_min (betweenPosts (timing cfg)) ->
  bp_min (betweenPosts (timing cfg)) <= bp_max (betweenPosts (timing cfg)) ->
  bp_max (betweenPosts (timing cfg)) < 2 ^ 53 ->
  exists tr,
    history (snd (processTargets env cfg targetAccounts w)) = history w ++ tr
    /\ forall ms, In (EvSleep ms) tr ->
         bp_min (betweenPosts (timing cfg)) <= ms <= bp_max (betweenPosts (timing cfg)).
Proof.
  intros Hmin Hwindow Hmax. unfold processTargets.
  assert (Hloop : forall acc w0,
    exists tr,
      history (snd (processLoop env cfg targetAccounts acc w0)) = history w0 ++ tr
      /\ forall ms, In (EvSleep ms) tr ->
           bp_min (betweenPosts (timing cfg)) <= ms
           <= bp_max (betweenPosts (timing cfg))).
  { induction targetAccounts as [|a rest IH]; intros acc w0; simpl.
    - exists []. rewrite app_nil_r. split; [reflexivity|]. intros ms [].
    - destruct (processOne_run env cfg a acc w0) as (res & w1 & Heq & _ & ->).
      destruct (commentOnLatestPost_never_sleeps env cfg a w0) as (tr1 & Hh1 & Hs1).
      rewrite Heq in Hh1. simpl in Hh1.
      destruct (IH (acc ++ [res])
                  (log (EvSleep (betweenAccountsDelay env cfg (history w1))) w1))
        as (tr2 & Hh2 & Hb2).
      exists (tr1 ++ [EvSleep (betweenAccountsDelay env cfg (history w1))] ++ tr2).
      split.
      + rewrite Hh2. simpl. rewrite Hh1, <- !app_assoc. reflexivity.
      + intros ms Hin. apply in_app_or in Hin as [Hin|Hin].
        * exfalso.
          assert (Hf : In (EvSleep ms) (List.filter isSleep tr1))
            by (apply List.filter_In; auto).
          rewrite Hs1 in Hf. contradiction.
        * simpl in Hin. destruct Hin as [Hin|Hin]; [|auto].
          injection Hin as <-. apply randomDelay_within; assumption. }
  destruct (Hloop [] w) as (tr & Hh & Hb).
  destruct (processLoop env cfg targetAccounts [] w). eauto.
Qed.

Lemma batch_sleeps_witness :
  exists tr,
    history afterOneBatch = tr
    /\ forall ms, In (EvSleep ms) tr -> 5000 <= ms <= 10000.
Proof.
  destruct (batch_sleeps_within_window calmEnv botConfig (accounts (target botConfig))
              emptyWorld ltac:(vm_compute; discriminate)
              ltac:(vm_compute; discriminate) ltac:(vm_compute; reflexivity))
    as (tr & Hh & Hb).
  exists tr. split; [exact Hh|exact Hb].
Defined.

(** ** The scheduler: a run from start to end *)

Lemma processTargets_resolves env cfg targetAccounts w :
  exists results w',
    processTargets env cfg targetAccounts w = (Resolved results, w')
    /\ List.map targetAccount results = targetAccounts.
Proof.
  unfold processTargets.
  pose proof (processLoop_accounts env cfg targetAccounts w) as H.
  destruct (processLoop env cfg targetAccounts [] w) as [results w'].
  exists results, w'. auto.
Qed.

Lemma runScheduledTask_passes env cfg this w :
  skipsThisInterval cfg this = false ->
  exists this' w',
    runScheduledTask env cfg this w = (this', w')
    /\ isRunning this' = false
    /\ runCount this' = runCount this + 1
    /\ lastRunTime this' = Some (clock env (history w))
    /\ task this' = task this
    /\ lastRunTime this' <> None.
Proof.
  intros Hpass. unfold runScheduledTask. rewrite Hpass.
  destruct (accounts (target cfg)) as [|a rest].
  - eexists _, _. split; [reflexivity|]. simpl. repeat split; auto.
  - match goal with
    | |- context [processTargets env cfg ?ts ?w0] =>
        destruct (processTargets_resolves env cfg ts w0) as (results & w3 & -> & _)
    end.
    eexists _, _. split; [reflexivity|]. simpl. repeat split; auto.
Qed.



(** X11. A tick without targets.  With an empty target list, an
    invocation that passes the guard still counts as a run ([runCount] one
    higher, [lastRunTime] renewed) and clears [isRunning], but it calls no
    collaborator, writes nothing and produces no snapshot: [lastRunResults]
    stays what the previous run left, and that is what [runNow] returns. *)
Theorem tick_without_targets
    (env : Env) (cfg : BotConfig) (this : SchedulerService) (w : World) :
  accounts (target cfg) = [] ->
  skipsThisInterval cfg this = false ->
  exists this' w',
    runNow env cfg this w = (lastRunResults this, this', w')
    /\ runCount this' = runCount this + 1
    /\ lastRunTime this' = Some (clock env (history w))
    /\ isRunning this' = false
    /\ lastRunResults this' = lastRunResults this
    /\ ledger w' = ledger w
    /\ exists t1 t2, history w' = history w ++ [EvNow t1; EvNow t2].
Proof.
  intros Hnone Hpass. unfold runNow, runScheduledTask. rewrite Hpass, Hnone.
  eexists _, _. split; [reflexivity|]. simpl. repeat split; auto.
  eexists _, _. rewrite <- app_assoc. reflexivity.
Qed.

Lemma tick_without_targets_witness :
  let earlier := fst (runScheduledTask calmEnv botConfig schedulerService emptyWorld) in
  exists this' w',
    runNow calmEnv botConfigNoTargets earlier emptyWorld
    = (lastRunResults earlier, this', w')
    /\ runCount this' = 2
    /\ option_map runId (lastRunResults this') = Some "RUN-1".
Proof.
  cbv zeta.
  destruct (tick_without_targets calmEnv botConfigNoTargets
              (fst (runScheduledTask calmEnv botConfig schedulerService emptyWorld))
              emptyWorld eq_refl ltac:(vm_compute; reflexivity))
    as (this' & w' & H1 & H2 & _ & _ & H5 & _).
  exists this', w'. split; [exact H1|]. split.
  - rewrite H2. vm_compute. reflexivity.
  - rewrite H5. vm_compute. reflexivity.
Defined.

(** X12. Ticks one after the other are never skipped.  Starting with
    [isRunning] cleared, [n] invocations of [runScheduledTask], each made
    after the one before has returned, raise [runCount] by exactly [n] and
    leave [isRunning] cleared, whatever [skipIfRunning] says and whatever
    the collaborators do. *)
Theorem sequential_ticks_all_run
    (env : Env) (cfg : BotConfig) (n : nat) (this : SchedulerService) (w : World) :
  isRunning this = false ->
  runCount (fst (ticks env cfg n this w)) = runCount this + Z.of_nat n
  /\ isRunning (fst (ticks env cfg n this w)) = false
  /\ task (fst (ticks env cfg n this w)) = task this.
Proof.
  revert this w. induction n as [|n IH]; intros this w Hidle.
  - simpl. repeat split; [lia|exact Hidle].
  - cbn [ticks].
    assert (Hpass : skipsThisInterval cfg this = false)
      by (unfold skipsThisInterval; now rewrite Hidle).
    destruct (runScheduledTask_passes env cfg this w Hpass)
      as (this' & w' & -> & Hrun & Hcount & _ & Htask & _).
    destruct (IH this' w' Hrun) as (H1 & H2 & H3).
    rewrite H1, H2, H3, Hcount, Htask. repeat split; lia.
Qed.

Lemma sequential_ticks_witness :
  runCount (fst (ticks calmEnv botConfig 3 schedulerService emptyWorld)) = 3
  /\ isRunning (fst (ticks calmEnv botConfig 3 schedulerService emptyWorld)) = false.
Proof.
  destruct (sequential_ticks_all_run calmEnv botConfig 3 schedulerService emptyWorld
              eq_refl) as (H1 & H2 & _).
  split; [rewrite H1; reflexivity|exact H2].
Defined.

(** ** The scheduler: timer and status *)

(** X13. [start] and [stop] are idempotent and touch only the timer.
    A second [start] changes nothing and arms no second startup run; a
    second [stop] changes nothing; [stop] after [start] leaves no timer;
    with the scheduler disabled [start] does nothing at all; and neither
    call changes [isRunning], [runCount], [lastRunTime] or
    [lastRunResults], so [stop] does not interrupt a run in progress. *)
Theorem start_stop_idempotent (cfg : BotConfig) (this : SchedulerService) :
  start cfg (start cfg this) = start cfg this
  /\ startupRunScheduled cfg (start cfg this) = false
  /\ stop (stop this) = stop this
  /\ task (stop (start cfg this)) = None
  /\ (enabled (scheduler cfg) = false -> start cfg this = this)
  /\ (enabled (scheduler cfg) = true -> task (start cfg this) <> None)
  /\ (isRunning (start cfg this), runCount (start cfg this),
      lastRunTime (start cfg this), lastRunResults (start cfg this))
     = (isRunning this, runCount this, lastRunTime this, lastRunResults this)
  /\ (isRunning (stop this), runCount (stop this),
      lastRunTime (stop this), lastRunResults (stop this))
     = (isRunning this, runCount this, lastRunTime this, lastRunResults this).
Proof.
  unfold start, stop, startupRunScheduled.
  destruct (enabled (scheduler cfg)) eqn:Een, this as [[t|] r c l s]; simpl;
    rewrite ?Een; simpl; repeat split; auto; try discriminate.
Qed.



(** ** The webhook router: what a request changes *)

Lemma validateAccounts_spec accounts names :
  validateAccounts accounts = inl names
  <-> accounts = List.map JString names
      /\ Forall (fun s => trimsToEmpty s = false) names.
Proof.
  revert names. induction accounts as [|[s|] rest IH]; intros names; simpl.
  - split.
    + intros H. injection H as <-. split; [reflexivity|constructor].
    + intros [H _]. destruct names; [reflexivity|discriminate].
  - destruct (trimsToEmpty s) eqn:Es.
    + split; [discriminate|].
      intros [H Hall]. destruct names as [|n ns]; [discriminate|].
      injection H as -> _. apply Forall_cons in Hall as [Hn _]. congruence.
    + destruct (validateAccounts rest) as [ns|bad] eqn:Er.
      * split.
        -- intros H. injection H as <-.
           destruct (proj1 (IH ns) eq_refl) as [-> Hall].
           split; [reflexivity|]. constructor; assumption.
        -- intros [H Hall]. destruct names as [|n names]; [discriminate|].
           injection H as -> Hrest. apply Forall_cons in Hall as [_ Hall].
           f_equal. f_equal.
           assert (Hi : inl ns = inl (B:=Json) names) by (apply IH; auto).
           now injection Hi.
      * split; [discriminate|].
        intros [H Hall]. destruct names as [|n names]; [discriminate|].
        injection H as -> Hrest. apply Forall_cons in Hall as [_ Hall].
        assert (Hi : inr bad = inl (B:=Json) names) by (apply IH; auto).
        discriminate.
  - split; [discriminate|].
    intros [H _]. destruct names; discriminate.
Qed.

(** X15. Only an accepted request changes anything.  Every request is
    answered 401, 400, 409 or 202.  With 202 exactly one background job is
    started, for a non-empty list of non-blank names, under the identifier
    of the response, and its key, which was not marked, is marked; with any
    other answer no job is started and the map of active jobs is left as it
    was. *)
Theorem only_accepted_requests_change_state
    (key : option string) (jobId : string) (body : RunBotBody)
    (active : gmap string bool) :
  exists response active' started,
    postRunBot key jobId body active = (response, active', started)
    /\ ((status response = 202
         /\ exists job,
              started = Some job
              /\ response = Accepted jobId (job_accounts job)
              /\ job_id job = jobId
              /\ job_accounts job <> []
              /\ Forall (fun s => trimsToEmpty s = false) (job_accounts job)
              /\ job_key job = join "," (job_accounts job)
              /\ active !! job_key job = None
              /\ active' = <[job_key job := true]> active)
        \/ ((status response = 401 \/ status response = 400 \/ status response = 409)
            /\ started = None /\ active' = active)).
Proof.
  unfold postRunBot.
  destruct (keyRejected key (body_apiKey body));
    [eexists _, _, _; split; [reflexivity|right; simpl; auto]|].
  destruct (body_accounts body) as [[|first others]|];
    try (eexists _, _, _; split; [reflexivity|right; simpl; auto]).
  destruct (validateAccounts (first :: others)) as [names|bad] eqn:Ev;
    [|eexists _, _, _; split; [reflexivity|right; simpl; auto]].
  destruct (active !! join "," (arraySort compareStrings names)) eqn:Elook;
    [eexists _, _, _; split; [reflexivity|right; simpl; auto]|].
  eexists _, _, _. split; [reflexivity|]. left. split; [reflexivity|].
  eexists. split; [reflexivity|]. simpl.
  apply validateAccounts_spec in Ev as [Hmap Hall].
  repeat split; auto.
  - intros Hnil.
    assert (Hn : names = []).
    { destruct names as [|n ns]; [reflexivity|].
      assert (In n (arraySort compareStrings (n :: ns)))
        by (apply In_arraySort; left; reflexivity).
      rewrite Hnil in H. contradiction. }
    subst names. discriminate.
  - now apply Forall_arraySort.
Qed.

(** X16. Which requests are refused before the job table is looked at.
    The answer is 401 exactly when an API key is configured (and not
    empty) and the request does not carry it; it is 400 exactly when the
    key check passes and [accounts] is missing, not an array, empty, or
    holds an element that is not a non-blank string. *)
Theorem refused_requests
    (key : option string) (jobId : string) (body : RunBotBody)
    (active : gmap string bool) :
  (status (fst (fst (postRunBot key jobId body active))) = 401
   <-> exists expected, key = Some expected /\ expected <> ""
                        /\ body_apiKey body <> Some expected)
  /\ (status (fst (fst (postRunBot key jobId body active))) = 400
      <-> keyRejected key (body_apiKey body) = false
          /\ ~ exists names,
                 names <> []
                 /\ body_accounts body = Some (List.map JString names)
                 /\ Forall (fun s => trimsToEmpty s = false) names).
Proof.
  assert (Hkey : keyRejected key (body_apiKey body) = true
                 <-> exists expected, key = Some expected /\ expected <> ""
                                      /\ body_apiKey body <> Some expected).
  { unfold keyRejected. destruct key as [expected|].
    - destruct (String.eqb expected "") eqn:Ee; simpl.
      + apply String.eqb_eq in Ee. split; [discriminate|].
        intros (x & Hx & Hne & _). injection Hx as <-. contradiction.
      + apply String.eqb_neq in Ee. destruct (body_apiKey body) as [given|].
        * destruct (String.eqb given expected) eqn:Eg; simpl.
          -- apply String.eqb_eq in Eg. subst. split; [discriminate|].
             intros (x & Hx & _ & Hne). injection Hx as <-. contradiction.
          -- apply String.eqb_neq in Eg. split; [|reflexivity].
             intros _. exists expected. repeat split; congruence.
        * split; [|reflexivity]. intros _. exists expected.
          repeat split; congruence.
    - split; [discriminate|]. intros (x & Hx & _). discriminate. }
  unfold postRunBot.
  destruct (keyRejected key (body_apiKey body)) eqn:Ek.
  { simpl. split; [split; [intros _; apply Hkey; reflexivity|reflexivity]|].
    split; [discriminate|]. intros [H _]. discriminate. }
  assert (Hno401 : ~ exists expected, key = Some expected /\ expected <> ""
                                      /\ body_apiKey body <> Some expected).
  { intros H. apply Hkey in H. discriminate. }
  destruct (body_accounts body) as [[|first others]|] eqn:Eb.
  - simpl. split; [split; [discriminate|intros H; contradiction]|].
    split; [|reflexivity]. intros _. split; [reflexivity|].
    intros (names & Hne & Hb & _). destruct names; [contradiction|discriminate].
  - destruct (validateAccounts (first :: others)) as [names|bad] eqn:Ev; simpl.
    + apply validateAccounts_spec in Ev as [Hmap Hall].
      assert (Hvalid : exists names0,
                names0 <> [] /\ Some (first :: others) = Some (List.map JString names0)
                /\ Forall (fun s => trimsToEmpty s = false) names0).
      { exists names. split; [|split; [congruence|exact Hall]].
        intros ->. discriminate. }
      destruct (active !! join "," (arraySort compareStrings names)); simpl;
        (split; [split; [discriminate|intros H; contradiction]|]);
        (split; [discriminate|intros [_ H]; contradiction]).
    + split; [split; [discriminate|intros H; contradiction]|].
      split; [|reflexivity]. intros _. split; [reflexivity|].
      intros (names & Hne & Hb & Hall). injection Hb as Hb.
      assert (Hi : validateAccounts (first :: others) = inl names)
        by (apply validateAccounts_spec; auto).
      congruence.
  - simpl. split; [split; [discriminate|intros H; contradiction]|].
    split; [|reflexivity]. intros _. split; [reflexivity|].
    intros (names & _ & Hb & _). discriminate.
Qed.

(** ** The webhook router: the job key *)

Lemma compare_not_Gt_trans a :
  forall b c,
    String.compare a b <> Gt -> String.compare b c <> Gt ->
    String.compare a c <> Gt.
Proof.
  induction a as [|x a IH]; intros [|y b] [|z c]; simpl; try congruence.
  unfold Ascii.compare.
  destruct (N.compare_spec (N_of_ascii x) (N_of_ascii y)) as [Exy|Exy|Exy];
    destruct (N.compare_spec (N_of_ascii y) (N_of_ascii z)) as [Eyz|Eyz|Eyz];
    destruct (N.compare_spec (N_of_ascii x) (N_of_ascii z)) as [Exz|Exz|Exz];
    try congruence; try lia.
  apply IH.
Qed.

Lemma notAfter_trans a b c : notAfter a b -> notAfter b c -> notAfter a c.
Proof.
  unfold notAfter, compareStrings.
  pose proof (compare_not_Gt_trans a b c) as H.
  destruct (String.compare a b), (String.compare b c), (String.compare a c);
    intros; try lia; exfalso; apply H; congruence.
Qed.

Lemma notAfter_total a b : notAfter a b \/ notAfter b a.
Proof.
  unfold notAfter, compareStrings. rewrite (String.compare_antisym a b).
  destruct (String.compare b a); simpl; lia.
Qed.

Lemma notAfter_antisym a b : notAfter a b -> notAfter b a -> a = b.
Proof.
  unfold notAfter, compareStrings. rewrite (String.compare_antisym a b).
  destruct (String.compare b a) eqn:E; simpl; try lia.
  intros _ _. symmetry. now apply String.compare_eq_iff.
Qed.

Lemma ascending_insertSorted x l :
  ascending l -> ascending (insertSorted compareStrings x l).
Proof.
  induction l as [|y l IH]; simpl.
  - intros _. split; [intros ? []|exact I].
  - intros [Hy Hl]. destruct (compareStrings x y <=? 0) eqn:E.
    + apply Z.leb_le in E. simpl. repeat split; auto.
      intros z [<-|Hz]; [exact E|]. apply (notAfter_trans x y z); auto.
    + apply Z.leb_gt in E. simpl. split; [|auto].
      intros z Hz. apply In_insertSorted in Hz as [->|Hz]; [|auto].
      destruct (notAfter_total y x) as [H|H]; [exact H|].
      unfold notAfter in H. lia.
Qed.

Lemma ascending_arraySort l : ascending (arraySort compareStrings l).
Proof.
  induction l; simpl; [exact I|]. now apply ascending_insertSorted.
Qed.

Lemma insertSorted_Permutation {A} (compare : A -> A -> Z) x l :
  Permutation (insertSorted compare x l) (x :: l).
Proof.
  induction l as [|y l IH]; simpl; [reflexivity|].
  destruct (compare x y <=? 0); [reflexivity|].
  rewrite IH. apply perm_swap.
Qed.

Lemma arraySort_Permutation {A} (compare : A -> A -> Z) l :
  Permutation (arraySort compare l) l.
Proof.
  induction l as [|x l IH]; simpl; [reflexivity|].
  rewrite insertSorted_Permutation. now constructor.
Qed.

(** Two ascending lists with the same elements are the same list. *)
Lemma ascending_unique l1 :
  forall l2, ascending l1 -> ascending l2 -> Permutation l1 l2 -> l1 = l2.
Proof.
  induction l1 as [|x l1 IH]; intros l2 H1 H2 Hp.
  - apply Permutation_nil in Hp. now subst.
  - destruct l2 as [|y l2].
    { symmetry in Hp. apply Permutation_nil in Hp. discriminate. }
    destruct H1 as [Hx H1], H2 as [Hy H2].
    assert (Hxy : x = y).
    { assert (Hin1 : In x (y :: l2))
        by (apply (Permutation_in _ Hp); left; reflexivity).
      assert (Hin2 : In y (x :: l1))
        by (apply (Permutation_in _ (Permutation_sym Hp)); left; reflexivity).
      destruct Hin1 as [->|Hin1]; [reflexivity|].
      destruct Hin2 as [->|Hin2]; [reflexivity|].
      apply notAfter_antisym; auto. }
    subst y. f_equal. apply IH; auto.
    now apply Permutation_cons_inv in Hp.
Qed.

(** X17. The job key ignores the order of the accounts.  Two account
    lists that are permutations of each other are sorted to the same list
    and get the same key; the sorted list is in ascending order and holds
    the same names as the request. *)
Theorem job_key_ignores_order (names1 names2 : list string) :
  Permutation names1 names2 ->
  arraySort compareStrings names1 = arraySort compareStrings names2
  /\ jobKeyOf names1 = jobKeyOf names2
  /\ ascending (arraySort compareStrings names1)
  /\ Permutation (arraySort compareStrings names1) names1.
Proof.
  intros Hp.
  assert (Hs : arraySort compareStrings names1 = arraySort compareStrings names2).
  { apply ascending_unique; try apply ascending_arraySort.
    rewrite !arraySort_Permutation. exact Hp. }
  split; [exact Hs|]. split; [unfold jobKeyOf; now rewrite Hs|].
  split; [apply ascending_arraySort|apply arraySort_Permutation].
Qed.

Lemma job_key_witness :
  jobKeyOf ["napro_fertility_surgeon"; "lifebytosin"; "drshievag"]
  = jobKeyOf (accounts (target botConfig))
  /\ jobKeyOf (accounts (target botConfig))
     = "drshievag,lifebytosin,napro_fertility_surgeon".
Proof.
  split; [|reflexivity].
  apply (job_key_ignores_order
           ["napro_fertility_surgeon"; "lifebytosin"; "drshievag"]
           (accounts (target botConfig))).
  apply (Permutation_cons_append ["lifebytosin"; "drshievag"]
           "napro_fertility_surgeon").
Defined.

(** X18. Accept, run, release.  In a coherent state, when an authorised
    valid request finds its key unmarked, the job it starts, once finished
    (however [processTargets] ended), leaves the router exactly as it was
    before the request: the key is unmarked again and the job is no longer
    in flight, so the same request is accepted anew. *)
Theorem accepted_job_releases_its_key
    (key : option string) (jobId : string) (body : RunBotBody)
    (names : list string) (wh : Webhook) :
  coherent wh ->
  keyRejected key (body_apiKey body) = false ->
  validNames body names ->
  activeJobs wh !! jobKeyOf names = None ->
  let job := {| job_accounts := arraySort compareStrings names;
                job_id := jobId; job_key := jobKeyOf names |} in
  exists wh',
    serve key jobId body wh = (Accepted jobId (arraySort compareStrings names), wh')
    /\ inFlight wh' = inFlight wh ++ [job]
    /\ forall env cfg w jobId',
         snd (fst (finish env cfg job wh' w)) = wh
         /\ fst (serve key jobId' body (snd (fst (finish env cfg job wh' w))))
            = Accepted jobId' (arraySort compareStrings names).
Proof.
  intros [Hkeys Hjobs] Hkey Hvalid Hfree job.
  pose proof (postRunBot_valid key jobId body (activeJobs wh) names Hkey Hvalid) as Hpost.
  rewrite Hfree in Hpost. unfold serve. rewrite Hpost.
  eexists. split; [reflexivity|]. split; [reflexivity|].
  intros env cfg w jobId'.
  assert (Hback : snd (fst (finish env cfg job
                    {| activeJobs := <[jobKeyOf names:=true]> (activeJobs wh);
                       inFlight := inFlight wh ++ [job] |} w)) = wh).
  { unfold finish, runBotInBackground.
    assert (Hfilter : List.filter
                        (fun j => negb (String.eqb (job_key j) (job_key job)))
                        (inFlight wh ++ [job]) = inFlight wh).
    { rewrite List.filter_app. simpl. rewrite String.eqb_refl. simpl.
      rewrite app_nil_r.
      assert (Hall : forall j, In j (inFlight wh) ->
                negb (String.eqb (job_key j) (jobKeyOf names)) = true).
      { intros j Hj. apply negb_true_iff, String.eqb_neq. intros Hk.
        assert (Hs : is_Some (activeJobs wh !! jobKeyOf names))
          by (apply Hkeys; eauto).
        rewrite Hfree in Hs. destruct Hs. discriminate. }
      clear -Hall. induction (inFlight wh) as [|j l IH]; simpl; [reflexivity|].
      rewrite Hall by (left; reflexivity). f_equal. apply IH.
      intros j' Hj'. apply Hall. now right. }
    destruct (processTargets env cfg (job_accounts job) w) as [[?|?] ?];
      cbn [fst snd]; simpl (activeJobs _); simpl (inFlight _);
      rewrite Hfilter; simpl (job_key job);
      rewrite (delete_insert_id _ _ _ Hfree); destruct wh; reflexivity. }
  split; [exact Hback|].
  transitivity (fst (serve key jobId' body wh));
    [exact (f_equal (fun x => fst (serve key jobId' body x)) Hback)|].
  pose proof (postRunBot_valid key jobId' body (activeJobs wh) names Hkey Hvalid) as Hpost'.
  rewrite Hfree in Hpost'. unfold serve. rewrite Hpost'. reflexivity.
Qed.

Lemma accepted_job_witness :
  exists wh',
    serve None "job-1" (bodyOf ["lifebytosin"] None) idleWebhook
    = (Accepted "job-1" ["lifebytosin"], wh')
    /\ snd (fst (finish calmEnv botConfig
                   {| job_accounts := ["lifebytosin"]; job_id := "job-1";
                      job_key := "lifebytosin" |} wh' emptyWorld))
       = idleWebhook.
Proof.
  destruct (accepted_job_releases_its_key None "job-1" (bodyOf ["lifebytosin"] None)
              ["lifebytosin"] idleWebhook coherent_idle eq_refl
              ltac:(eexists _, _; split; reflexivity) eq_refl)
    as (wh' & H1 & _ & H3).
  exists wh'. split; [exact H1|]. apply (H3 calmEnv botConfig emptyWorld "job-2").
Defined.

(** ** The client: URLs and post ids *)

Lemma startsWith_append p s : startsWith p (p +:+ s) = true.
Proof.
  induction p as [|c p IH]; [reflexivity|].
  rewrite append_String. simpl. now rewrite Ascii.eqb_refl, IH.
Qed.

Lemma takeIdChars_plain s : allChars idChar (takeIdChars s) = true.
Proof.
  induction s as [|c s IH]; simpl; [reflexivity|].
  destruct (idChar c) eqn:E; simpl; [now rewrite E|reflexivity].
Qed.

Lemma takeIdChars_stop id rest :
  allChars idChar id = true ->
  match rest with
  | EmptyString => True
  | String c _ => idChar c = false
  end ->
  takeIdChars (id +:+ rest) = id.
Proof.
  intros Hid Hrest. induction id as [|c id IH].
  - rewrite append_empty. destruct rest as [|c r]; simpl; [reflexivity|].
    now rewrite Hrest.
  - rewrite append_String. simpl in *. apply andb_true_iff in Hid as [Hc Hid].
    rewrite Hc, IH by exact Hid. reflexivity.
Qed.

Lemma matchPostAt_groups s group id :
  matchPostAt s = Some (group, id) ->
  plainId id /\ (group = "p" \/ group = "reel").
Proof.
  unfold matchPostAt.
  destruct (startsWith "/p/" s).
  - destruct (String.eqb (takeIdChars (dropChars 3 s)) "") eqn:E; [discriminate|].
    intros H. injection H as <- <-. apply String.eqb_neq in E.
    split; [split; [exact E|apply takeIdChars_plain]|auto].
  - destruct (startsWith "/reel/" s); [|discriminate].
    destruct (String.eqb (takeIdChars (dropChars 6 s)) "") eqn:E; [discriminate|].
    intros H. injection H as <- <-. apply String.eqb_neq in E.
    split; [split; [exact E|apply takeIdChars_plain]|auto].
Qed.

Lemma matchPost_groups s :
  forall group id,
    matchPost s = Some (group, id) ->
    plainId id /\ (group = "p" \/ group = "reel").
Proof.
  induction s as [|c s IH]; intros group id.
  - vm_compute. discriminate.
  - unfold matchPost; fold matchPost.
    destruct (matchPostAt (String c s)) as [[g i]|] eqn:E.
    + intros H. injection H as <- <-. now apply matchPostAt_groups in E.
    + apply IH.
Qed.

(** Putting the site in front of a link does not change what the
    regular expression finds in it. *)
Lemma matchPost_on_site link :
  matchPost ("https://www.instagram.com" +:+ link) = matchPost link.
Proof.
  repeat (rewrite append_String || rewrite append_empty).
  reflexivity.
Qed.

Lemma plain_not_relative s :
  allChars idChar s = true -> startsWith "/" s = false.
Proof.
  destruct s as [|c s]; [reflexivity|]. intros H.
  change (idChar c && allChars idChar s = true) in H.
  apply andb_true_iff in H as [Hc _]. unfold idChar in Hc.
  apply andb_true_iff in Hc as [Hc _]. apply negb_true_iff in Hc.
  change (Ascii.eqb "/"%char c && true = false).
  rewrite Ascii.eqb_sym, Hc. reflexivity.
Qed.

Lemma matchPost_here s groups :
  matchPostAt s = Some groups -> matchPost s = Some groups.
Proof.
  intros H. destruct s; cbn [matchPost]; now rewrite H.
Qed.

Lemma matchPostAt_p id rest :
  takeIdChars (id +:+ rest) = id -> id <> "" ->
  matchPostAt ("/p/" +:+ id +:+ rest) = Some ("p", id).
Proof.
  intros Htake Hne. unfold matchPostAt. rewrite startsWith_append.
  change (dropChars 3 ("/p/" +:+ id +:+ rest)) with (id +:+ rest).
  rewrite Htake. now destruct (String.eqb_spec id "").
Qed.

Lemma matchPostAt_reel id rest :
  takeIdChars (id +:+ rest) = id -> id <> "" ->
  matchPostAt ("/reel/" +:+ id +:+ rest) = Some ("reel", id).
Proof.
  intros Htake Hne. unfold matchPostAt.
  change (startsWith "/p/" ("/reel/" +:+ id +:+ rest)) with false.
  rewrite startsWith_append.
  change (dropChars 6 ("/reel/" +:+ id +:+ rest)) with (id +:+ rest).
  rewrite Htake. now destruct (String.eqb_spec id "").
Qed.

(** X19. The address [postComment] navigates to.  The result always
    starts with ["http"], so normalising twice is normalising once; a full
    URL is kept as it is, and a bare post id [id] (not empty, without [/] and
    [?], not starting with ["http"]) becomes the [/p/] URL in which the
    regular expression of the client finds exactly [id] again. *)
Theorem comment_url_is_absolute (postIdOrUrl : string) :
  startsWith "http" (commentUrl postIdOrUrl) = true
  /\ commentUrl (commentUrl postIdOrUrl) = commentUrl postIdOrUrl
  /\ (startsWith "http" postIdOrUrl = true -> commentUrl postIdOrUrl = postIdOrUrl)
  /\ (plainId postIdOrUrl -> startsWith "http" postIdOrUrl = false ->
      commentUrl postIdOrUrl = "https://www.instagram.com/p/" +:+ postIdOrUrl +:+ "/"
      /\ matchPost (commentUrl postIdOrUrl) = Some ("p", postIdOrUrl)).
Proof.
  assert (Habs : startsWith "http" (commentUrl postIdOrUrl) = true).
  { unfold commentUrl. destruct (startsWith "http" postIdOrUrl) eqn:E; [exact E|].
    destruct (startsWith "/" postIdOrUrl); reflexivity. }
  split; [exact Habs|]. split.
  { unfold commentUrl at 1. now rewrite Habs. }
  split.
  { intros H. unfold commentUrl. now rewrite H. }
  intros [Hne Hplain] Hhttp. unfold commentUrl. rewrite Hhttp.
  pose proof (plain_not_relative postIdOrUrl Hplain) as Hslash.
  rewrite Hslash. split; [reflexivity|].
  assert (E : forall x, "https://www.instagram.com/p/" +:+ x
                        = "https://www.instagram.com" +:+ ("/p/" +:+ x))
    by reflexivity.
  rewrite E, matchPost_on_site.
  apply matchPost_here, matchPostAt_p; [|exact Hne].
  now apply takeIdChars_stop.
Qed.

Lemma comment_url_witness :
  commentUrl "DAhalf" = "https://www.instagram.com/p/DAhalf/"
  /\ matchPost (commentUrl "DAhalf") = Some ("p", "DAhalf").
Proof.
  apply (proj2 (proj2 (proj2 (comment_url_is_absolute "DAhalf")))).
  - split; [discriminate|reflexivity].
  - reflexivity.
Defined.

Lemma absoluteUrl_absolute link : startsWith "http" (absoluteUrl link) = true.
Proof.
  unfold absoluteUrl. destruct (startsWith "http" link) eqn:E; [exact E|reflexivity].
Qed.

Lemma matchPost_absoluteUrl link : matchPost (absoluteUrl link) = matchPost link.
Proof.
  unfold absoluteUrl. destruct (startsWith "http" link); [reflexivity|].
  apply matchPost_on_site.
Qed.

Lemma In_keepSome {A B} (f : A -> option B) l y :
  In y (keepSome f l) <-> exists x, In x l /\ f x = Some y.
Proof.
  induction l as [|x l IH]; simpl.
  - split; [intros []|intros (x & [] & _)].
  - destruct (f x) as [z|] eqn:E; simpl; rewrite IH; split.
    + intros [<-|(x' & Hin & Hx')]; [exists x; auto|exists x'; auto].
    + intros (x' & [<-|Hin] & Hx'); [left; congruence|right; exists x'; auto].
    + intros (x' & Hin & Hx'); exists x'; auto.
    + intros (x' & [<-|Hin] & Hx'); [congruence|exists x'; auto].
Qed.

Lemma keepSome_length {A B} (f : A -> option B) l :
  (length (keepSome f l) <= length l)%nat.
Proof.
  induction l as [|x l IH]; simpl; [lia|]. destruct (f x); simpl; lia.
Qed.

(** X20. What [getLastFourPosts] makes of the links of a profile.  It
    returns at most four posts.  Each comes from one of the first four
    links, carries that link's pin flag and the [Date] built on the page of
    its URL, valid or not; its URL is absolute, so [postComment] navigates
    to it unchanged; its id is not empty and has no [/] or [?], and is the id
    the regular expression finds in the post's own URL; its type is reel
    when the link is a [/reel/] link and image otherwise, never video.  When
    the dates of all returned posts are valid, the posts are newest first;
    a post with an Invalid Date is returned all the same, and then they need
    not be. *)
Theorem scraped_posts_are_well_formed (readTimestamp : string -> option Date)
    (posts : list FoundPost) (post : Post)
    (Hin : In post (lastFourPosts readTimestamp posts)) :
  (length (lastFourPosts readTimestamp posts) <= 4)%nat
  /\ (Forall validTimestamp (lastFourPosts readTimestamp posts) ->
      newestFirstOrder (lastFourPosts readTimestamp posts))
  /\ (exists found,
        In found (firstn 4 posts)
        /\ p_postUrl post = absoluteUrl (href found)
        /\ p_isPinned post = fp_isPinned found)
  /\ readTimestamp (p_postUrl post) = Some (p_timestamp post)
  /\ commentUrl (p_postUrl post) = p_postUrl post
  /\ plainId (p_postId post)
  /\ (exists group,
        matchPost (p_postUrl post) = Some (group, p_postId post)
        /\ (group = "p" \/ group = "reel")
        /\ p_contentType post = (if String.eqb group "reel" then reel else image))
  /\ p_contentType post <> video.
Proof.
  unfold lastFourPosts in *.
  split.
  { rewrite (Permutation_length (engineSort_Permutation _ _)).
    etransitivity; [apply keepSome_length|].
    rewrite length_firstn. lia. }
  split; [apply newestFirstOrder_sorted|].
  apply In_engineSort, In_keepSome in Hin as (found & Hfound & Hpost).
  unfold postWithTimestamp in Hpost.
  destruct (matchPost (href found)) as [[group id]|] eqn:Hmatch; [|discriminate].
  destruct (readTimestamp (absoluteUrl (href found))) as [t|] eqn:Hread; [|discriminate].
  injection Hpost as <-. cbn [p_postUrl p_isPinned p_timestamp p_postId p_contentType].
  destruct (matchPost_groups _ _ _ Hmatch) as [Hplain Hgroup].
  split; [exists found; auto|].
  split; [exact Hread|].
  split.
  { unfold commentUrl. now rewrite absoluteUrl_absolute. }
  split; [exact Hplain|].
  split.
  { exists group. rewrite matchPost_absoluteUrl. auto. }
  unfold typeLabel. destruct (String.eqb group "reel"); discriminate.
Qed.

(** Three links: the date of the second does not parse, the third post
    is the newest.  All three are returned, in the order of the page. *)
Lemma scraped_posts_witness :
  let found := [ {| href := "/p/DAnine/"; fp_isPinned := false |};
                 {| href := "/p/DAbad/"; fp_isPinned := false |};
                 {| href := "/lifebytosin/reel/DAhalf/?hl=en"; fp_isPinned := true |};
                 {| href := "/explore/"; fp_isPinned := false |} ] in
  let readTimestamp := fun url : string =>
    if String.eqb url "https://www.instagram.com/p/DAnine/" then Some (date 5)
    else if String.eqb url "https://www.instagram.com/p/DAbad/" then Some invalidDate
    else Some (date 7) in
  let newest := {| p_postId := "DAhalf";
                   p_postUrl := "https://www.instagram.com/lifebytosin/reel/DAhalf/?hl=en";
                   p_contentType := reel;
                   p_timestamp := date 7;
                   p_isPinned := true |} in
  List.map p_postId (lastFourPosts readTimestamp found) = ["DAnine"; "DAbad"; "DAhalf"]
  /\ List.map p_timestamp (lastFourPosts readTimestamp found)
     = [date 5; invalidDate; date 7]
  /\ plainId (p_postId newest)
  /\ p_contentType newest <> video.
Proof.
  intros found readTimestamp newest.
  split; [reflexivity|]. split; [reflexivity|].
  assert (Hin : In newest (lastFourPosts readTimestamp found))
    by (right; right; left; reflexivity).
  pose proof (scraped_posts_are_well_formed readTimestamp found newest Hin)
    as (_ & _ & _ & _ & _ & Hid & _ & Htype).
  split; [exact Hid|exact Htype].
Defined.

(** The product of a double below 1 and a whole number stays below that
    number: the difference is more than half a unit in the last place. *)
Lemma fmul_random_below u n :
  0 < n < 2 ^ 53 ->
  let y := fmul (randomValue u) {| mant := n; expo := 0 |} in
  mant y < n * 2 ^ (- expo y).
Proof.
  intros Hn y. subst y. unfold fmul. cbn [mant expo].
  destruct (randomValue_range u) as [Hm He].
  set (m := mant (randomValue u)) in *. set (e := expo (randomValue u)) in *.
  rewrite Z.add_0_r.
  assert (Hpe : 2 ^ 53 <= 2 ^ (- e)) by (apply Z.pow_le_mono_r; lia).
  unfold roundDouble. cbn [mant expo].
  set (sh := Z.max (bitLength (m * n) - 53) (- 1074 - e)).
  destruct (0 <? sh) eqn:Esh; cbn [mant expo]; [|nia].
  apply Z.ltb_lt in Esh.
  assert (Hsh : sh = bitLength (m * n) - 53) by lia.
  assert (Hpos : 0 < m * n).
  { destruct (Z.eq_dec (m * n) 0) as [E0|E0]; [|nia].
    rewrite E0 in Hsh. unfold bitLength in Hsh. simpl in Hsh. lia. }
  destruct (bitLength_spec (m * n) Hpos) as [Hlow _].
  assert (Hlow' : 2 ^ (sh - 1) * 2 ^ 53 <= m * n).
  { rewrite <- pow2_split by lia.
    replace (sh - 1 + 53) with (bitLength (m * n) - 1) by lia. exact Hlow. }
  assert (Hhalf : 2 ^ (sh - 1) < n) by nia.
  assert (Hexp : e + sh <= 0).
  { assert (Hlt : 2 ^ (bitLength (m * n) - 1) < 2 ^ (53 - e)).
    { replace (53 - e) with (53 + - e) by lia.
      rewrite (pow2_split 53 (- e)) by lia. nia. }
    apply Z.pow_lt_mono_r_iff in Hlt; lia. }
  assert (Hsplit : 2 ^ (- e) = 2 ^ (- (e + sh)) * 2 ^ sh).
  { rewrite <- pow2_split by lia. f_equal. lia. }
  pose proof (roundHalfEven_near (m * n) sh Esh) as Hnear.
  assert (Hp : 0 < 2 ^ sh) by (apply Z.pow_pos_nonneg; lia).
  destruct (Z.lt_ge_cases (roundHalfEven (m * n) sh) (n * 2 ^ (- (e + sh))))
    as [Hlt|Hge]; [exact Hlt|exfalso].
  assert (Hc : n * 2 ^ (- e) <= m * n + 2 ^ (sh - 1)).
  { rewrite Hsplit, Z.mul_assoc. nia. }
  nia.
Qed.

Lemma mathFloor_below (z : Double) (b : Z) :
  expo z <= 0 -> mant z < b * 2 ^ (- expo z) -> mathFloor z < b.
Proof.
  intros He Hm. unfold mathFloor.
  assert (Hp : 0 < 2 ^ (- expo z)) by (apply Z.pow_pos_nonneg; lia).
  destruct (0 <=? expo z) eqn:E.
  - apply Z.leb_le in E. assert (expo z = 0) as E0 by lia. rewrite E0 in *.
    change (2 ^ (- 0)) with 1 in Hm. change (2 ^ 0) with 1. lia.
  - apply Z.div_lt_upper_bound; lia.
Qed.

Lemma mathFloor_whole n : mathFloor {| mant := n; expo := 0 |} = n.
Proof. unfold mathFloor. cbn [mant expo]. change (2 ^ 0) with 1. simpl. lia. Qed.

Lemma clientRandomDelay_unfold u lo hi :
  0 <= lo -> lo <= hi -> hi < 2 ^ 53 - 1 ->
  let k := mathFloor (fmul (randomValue u) {| mant := hi - lo + 1; expo := 0 |}) in
  0 <= k < hi - lo + 1 /\ clientRandomDelay u lo hi = k + lo.
Proof.
  intros H0 Hle Hhi k.
  assert (Hk : 0 <= k < hi - lo + 1).
  { subst k.
    destruct (fmul_random_between u (hi - lo + 1)) as [He Hm]; [lia|].
    pose proof (fmul_random_below u (hi - lo + 1) ltac:(lia)) as Hlt.
    cbv zeta in Hlt. split.
    - apply (mathFloor_between _ 0 (hi - lo + 1)); lia.
    - apply mathFloor_below; lia. }
  split; [exact Hk|]. unfold clientRandomDelay.
  rewrite (ofZ_exact hi), (ofZ_exact lo), (ofZ_exact 1) by lia.
  rewrite fsub_whole, fadd_whole by lia. fold k.
  rewrite ofZ_exact by lia. rewrite fadd_whole by lia. apply mathFloor_whole.
Qed.

(** X21. The two random delays, in the arithmetic of the code.  For whole
    numbers [0 <= min <= max] with [max] below 2^53 - 1, the delay of the
    client, [Math.floor(Math.random() * (max - min + 1)) + min], lies between
    [min] and [max], both included, and both ends are drawn for some value
    of [Math.random()]: the product of a double below 1 with [max - min + 1]
    never rounds up to it.  The delay of the service between accounts,
    [Math.floor(Math.random() * (max - min) + min)], lies between [min] and
    [max] as well, and its final addition can round up to [max]: with the
    shipped window and [Math.random() = 1 - 2^-52] it is 10000. *)
Theorem client_delay_bounds (lo hi : Z)
    (Hmin : 0 <= lo) (Hle : lo <= hi) (Hmax : hi < 2 ^ 53 - 1) :
  (forall u, lo <= clientRandomDelay u lo hi <= hi)
  /\ clientRandomDelay {| r_mant := 0; r_shift := 0 |} lo hi = lo
  /\ clientRandomDelay almostOne53 lo hi = hi
  /\ (forall u, lo <= randomDelay u lo hi <= hi)
  /\ randomDelay almostOne52
       (bp_min (betweenPosts (timing botConfig)))
       (bp_max (betweenPosts (timing botConfig)))
     = bp_max (betweenPosts (timing botConfig)).
Proof.
  split.
  { intros u. destruct (clientRandomDelay_unfold u lo hi Hmin Hle Hmax) as [Hk ->].
    lia. }
  split.
  { destruct (clientRandomDelay_unfold {| r_mant := 0; r_shift := 0 |} lo hi
                Hmin Hle Hmax) as [_ ->].
    unfold fmul, randomValue. cbn [mant expo r_mant r_shift].
    change (Z.of_N 0 mod 2 ^ 53) with 0. rewrite Z.mul_0_l. reflexivity. }
  split.
  { destruct (clientRandomDelay_unfold almostOne53 lo hi Hmin Hle Hmax) as [Hk ->].
    cbv zeta in Hk.
    assert (Hlow : hi - lo
                   <= mathFloor (fmul (randomValue almostOne53)
                                      {| mant := hi - lo + 1; expo := 0 |})).
    { unfold fmul.
      change (randomValue almostOne53) with {| mant := 2 ^ 53 - 1; expo := - 53 |}.
      cbn [mant expo]. change (- 53 + 0) with (- 53).
      pose proof (roundDouble_between
                    {| mant := (2 ^ 53 - 1) * (hi - lo + 1); expo := - 53 |}
                    (hi - lo) (hi - lo + 1)
                    ltac:(cbn [expo]; lia) ltac:(lia) ltac:(lia)
                    ltac:(cbn [mant expo]; change (- - 53) with 53; lia))
        as [He Hm].
      cbn [expo] in He.
      apply (mathFloor_between _ (hi - lo) (hi - lo + 1)); [lia|exact Hm]. }
    lia. }
  split.
  { intros u. apply randomDelay_within; lia. }
  vm_compute. reflexivity.
Qed.

Lemma client_delay_witness :
  (forall u, 1000 <= clientRandomDelay u 1000 3000 <= 3000)
  /\ clientRandomDelay almostOne53 1000 3000 = 3000.
Proof.
  destruct (client_delay_bounds 1000 3000) as (Hin & _ & Hmax & _);
    [lia|lia|reflexivity|].
  split; [exact Hin|exact Hmax].
Defined.

(** ** The shared client *)

Lemma getIgClient_cached outcomes m c :
  cachedClient m = Some c -> getIgClient outcomes m = (Resolved c, m).
Proof.
  intros H. unfold getIgClient. now rewrite H.
Qed.

Lemma getIgClient_caches outcomes m :
  exists c,
    cachedClient (snd (getIgClient outcomes m)) = Some c
    /\ launches (snd (getIgClient outcomes m))
       = (launches m + match cachedClient m with None => 1 | Some _ => 0 end)%nat.
Proof.
  unfold getIgClient. destruct (cachedClient m) as [c|] eqn:E.
  - exists c. simpl. split; [exact E|lia].
  - destruct (init (outcomes (launches m))) as [r c]. exists c.
    destruct r; simpl; split; auto; lia.
Qed.

(** X22. A failed initialisation stays cached.  When no client is
    cached and [init] rejects, [getIgClient] rejects with the same error,
    but the client it constructed has been stored: every later call resolves
    with that client without initialising again, and when the browser or
    its page could not be opened, the methods of that client throw
    ['Page not initialized']. *)
Theorem failed_init_stays_cached (outcomes : nat -> InitOutcome)
    (m : InstagramModule) (e : Error)
    (Hnone : cachedClient m = None)
    (Hfail : fst (init (outcomes (launches m))) = Rejected e) :
  let m1 := snd (getIgClient outcomes m) in
  let c := snd (init (outcomes (launches m))) in
  fst (getIgClient outcomes m) = Rejected e
  /\ launches m1 = S (launches m)
  /\ (forall outcomes', getIgClient outcomes' m1 = (Resolved c, m1))
  /\ (page c = false ->
      pageGuard c = Some (mkError "Page not initialized")
      /\ (outcomes (launches m) = launchFails e
          \/ outcomes (launches m) = newPageFails e))
  /\ (page c = true -> outcomes (launches m) = loginFails e).
Proof.
  intros m1 c. subst m1 c. unfold getIgClient at 1 2. rewrite Hnone.
  destruct (outcomes (launches m)) as [|e'|e'|e'] eqn:Ho;
    cbn in Hfail; try discriminate; injection Hfail as ->;
    cbn [init fst snd launches];
    (split; [reflexivity|]); (split; [reflexivity|]);
    (split; [intros outcomes'; apply getIgClient_cached;
             unfold getIgClient; rewrite Hnone, Ho; reflexivity|]);
    cbn [page]; split; intros H; try discriminate H; auto.
Qed.

Lemma failed_init_witness :
  let outcomes := fun n : nat =>
    match n with
    | O => launchFails (mkError "Failed to launch the browser process")
    | _ => initDone
    end in
  let m := {| cachedClient := None; launches := 0 |} in
  fst (getIgClient outcomes m)
    = Rejected (mkError "Failed to launch the browser process")
  /\ fst (getIgClient outcomes (snd (getIgClient outcomes m)))
     = Resolved {| browser := false; page := false |}.
Proof.
  intros outcomes m.
  destruct (failed_init_stays_cached outcomes m
              (mkError "Failed to launch the browser process")
              eq_refl eq_refl) as (H1 & _ & H2 & _).
  split; [exact H1|]. now rewrite (H2 outcomes).
Defined.

(** X23. One client until it is closed.  However often [getIgClient] is
    called in a row, a client is cached afterwards and at most one was
    launched: exactly one when none was cached before, none otherwise.
    A [closeIgClient] that resolves empties the cache, so the next
    [getIgClient] launches a new client; one that rejects (the browser
    would not close) leaves the client cached. *)
Theorem one_client_until_closed (outcomes : nat -> InitOutcome) (n : nat)
    (m : InstagramModule) :
  let m' := getIgClientTimes outcomes (S n) m in
  is_Some (cachedClient m')
  /\ launches m'
     = (launches m + match cachedClient m with None => 1 | Some _ => 0 end)%nat
  /\ (forall closing,
        let closed := closeIgClient closing m' in
        match fst closed with
        | Resolved _ =>
            cachedClient (snd closed) = None
            /\ launches (snd (getIgClient outcomes (snd closed))) = S (launches m')
        | Rejected e =>
            closing = Rejected e /\ snd closed = m'
        end).
Proof.
  intros m'.
  assert (Hm' : is_Some (cachedClient m')
                /\ launches m'
                   = (launches m + match cachedClient m with None => 1 | Some _ => 0 end)%nat).
  { subst m'. revert m. induction n as [|n IH]; intros m.
    - cbn [getIgClientTimes].
      destruct (getIgClient_caches outcomes m) as (c & Hc & Hl).
      split; [rewrite Hc; eauto|exact Hl].
    - change (getIgClientTimes outcomes (S (S n)) m)
        with (getIgClientTimes outcomes (S n) (snd (getIgClient outcomes m))).
      destruct (getIgClient_caches outcomes m) as (c & Hc & Hl).
      destruct (IH (snd (getIgClient outcomes m))) as [Hs Hl'].
      split; [exact Hs|]. rewrite Hl', Hc, Hl. lia. }
  destruct Hm' as [[c Hc] Hl]. split; [rewrite Hc; eauto|]. split; [exact Hl|].
  intros closing closed. subst closed. unfold closeIgClient. rewrite Hc.
  unfold close. destruct (browser c) eqn:Hb.
  - destruct closing as [[]|e]; cbn [fst snd].
    + split; [reflexivity|]. unfold getIgClient. cbn [cachedClient launches].
      destruct (init _) as [[|] ?]; reflexivity.
    + split; [reflexivity|]. destruct m' as [cc l]. cbn in Hc. subst cc. reflexivity.
  - cbn [fst snd]. split; [reflexivity|]. unfold getIgClient. cbn [cachedClient launches].
    destruct (init _) as [[|] ?]; reflexivity.
Qed.

(** ** The comment generator *)

Lemma append_empty_r s : s +:+ "" = s.
Proof.
  induction s as [|c s IH]; [reflexivity|]. now rewrite append_String, IH.
Qed.

Lemma append_assoc' a b c : (a +:+ b) +:+ c = a +:+ (b +:+ c).
Proof.
  induction a as [|x a IH]; [reflexivity|]. now rewrite !append_String, IH.
Qed.




Lemma replaceFrom_absent pattern replacement s :
  forall before,
    includes pattern s = false ->
    replaceFrom pattern replacement before s = before +:+ s.
Proof.
  induction s as [|c s IH]; intros before H; cbn [includes] in H;
    apply orb_false_iff in H as [Hhere Hlater]; cbn [replaceFrom]; rewrite Hhere.
  - now rewrite append_empty_r.
  - rewrite IH by exact Hlater. rewrite append_assoc', append_String, append_empty.
    reflexivity.
Qed.

Lemma replace_absent s pattern replacement :
  includes pattern s = false -> replace s pattern replacement = s.
Proof.
  intros H. unfold replace. rewrite replaceFrom_absent by exact H. apply append_empty.
Qed.





(** X25. A template without placeholder.  When the user prompt of the
    configuration does not contain [{caption}], as the one shipped in
    botConfig.ts does not, the replacement changes nothing: the text-only
    request, and the one sent after a failed vision attempt, are the
    template itself whatever the caption is, so two posts without image
    and frames get the same request and the same outcome. *)
Theorem prompt_without_placeholder (post : OpenRouter.Transport)
    (systemPrompt userTemplate : string)
    (Hnone : includes "{caption}" userTemplate = false) :
  (forall caption sent,
     OpenRouter.generateInstagramComment post systemPrompt userTemplate
       caption None None sent
     = OpenRouter.generateText post userTemplate systemPrompt sent)
  /\ (forall caption image frames sent request,
        In request
           (snd (OpenRouter.generateInstagramComment post systemPrompt userTemplate
                   caption image frames sent)) ->
        In request sent
        \/ request = OpenRouter.visionRequest systemPrompt caption image frames
        \/ request = OpenRouter.textRequest userTemplate systemPrompt).
Proof.
  split.
  - intros caption sent. unfold OpenRouter.generateInstagramComment.
    cbn [OpenRouter.hasVisual]. now rewrite replace_absent.
  - intros caption image frames sent request.
    unfold OpenRouter.generateInstagramComment,
      OpenRouter.generateCommentWithVision, OpenRouter.generateText.
    rewrite !replace_absent by exact Hnone.
    destruct (OpenRouter.hasVisual image frames).
    + destruct (post (length sent) _) as [failure|reply].
      * cbn [snd]. rewrite !in_app_iff. cbn [In]. intuition auto.
      * destruct (OpenRouter.readContent _ reply); cbn [snd];
          rewrite !in_app_iff; cbn [In]; intuition auto.
    + cbn [snd]. rewrite !in_app_iff. cbn [In]. intuition auto.
Qed.

Lemma prompt_without_placeholder_witness :
  let post : OpenRouter.Transport :=
    fun _ _ => inl (OpenRouter.withResponse None "Unauthorized") in
  OpenRouter.generateInstagramComment post "Be brief." promptsUser
    "Sunrise over the bay" None None []
  = OpenRouter.generateText post promptsUser "Be brief." [].
Proof.
  intros post.
  apply (proj1 (prompt_without_placeholder post "Be brief." promptsUser eq_refl)).
Defined.

(** ** The manual run of the configured accounts *)




